(** * Scudo page release engine (release.h): a shallow embedding

    The development follows the header top-down: the helpers of common.h the
    header relies on, the [ReleaseRecorder], the packed [RegionPageMap], the
    [FreePagesRangeTracker], the [PageReleaseContext] with
    [markRangeAsAllCounted] and [markFreeBlocks], and the two
    [releaseFreeMemoryToOS] entry points.  [uptr] values are
    integers in [0, 2^64) and every operation that can leave that range is
    wrapped explicitly. *)

From Stdlib Require Import ZArith Lia List Bool.
From stdpp Require Import base list.
Import ListNotations.

Local Open Scope Z_scope.

(** ** Machine words *)

Definition SCUDO_WORDSIZE : Z := 64.
Definition uptr_modulus : Z := 2 ^ SCUDO_WORDSIZE.
Definition uptr_max : Z := uptr_modulus - 1.

(** Truncation of an integer result to [uptr]. *)
Definition wrap (x : Z) : Z := x mod uptr_modulus.

Definition is_uptr (x : Z) : Prop := 0 <= x < uptr_modulus.

(** [for (uptr I = From; I < To; I++) Body(I)] as a fold over the indices. *)
Definition for_range {St : Type} (From To : Z) (Body : Z -> St -> St) (s : St) : St :=
  fold_left (fun acc I => Body I acc) (seqZ From (To - From)) s.

(** ** Helpers of common.h *)

(** Modelled from the spec: common.h is not part of the sources.  [Min] is
    the smaller of two words. *)
Definition Min (a b : Z) : Z := if a <? b then a else b.

(** Modelled from the spec: common.h is not part of the sources.  [roundUp]
    rounds [X] up to the next multiple of the power of two [Boundary], in
    word arithmetic. *)
Definition roundUp (X Boundary : Z) : Z :=
  wrap (wrap (X + Boundary - 1) / Boundary * Boundary).


(** Modelled from the spec: common.h is not part of the sources.
    [roundUpSlow] is [roundUp] for a boundary that need not be a power of
    two. *)
Definition roundUpSlow (X Boundary : Z) : Z :=
  wrap (wrap (X + Boundary - 1) / Boundary * Boundary).


(** Modelled from the spec: common.h is not part of the sources.  Index of
    the most significant set bit of a non-zero word. *)
Definition getMostSignificantSetBitIndex (X : Z) : Z := Z.log2 X.

(** Modelled from the spec: common.h is not part of the sources.
    [isPowerOfTwo] as a boolean test. *)
Definition isPowerOfTwo (X : Z) : bool := (0 <? X) && (2 ^ Z.log2 X =? X).

(** Modelled from the spec: common.h is not part of the sources.  The spec
    writes [nextPowerOfTwo]: the smallest power of two that is at least
    [X]. *)
Definition roundUpPowerOfTwo (X : Z) : Z :=
  if isPowerOfTwo X then X
  else wrap (Z.shiftl 1 (getMostSignificantSetBitIndex X + 1)).

(** Modelled from the spec: common.h is not part of the sources.  Base two
    logarithm of a power of two. *)
Definition getLog2 (X : Z) : Z := Z.log2 X.

(** ** The platform *)

(** The injected platform capability and the process-wide state of the
    header: the cached page size, the mutex guarding [StaticBuffer], the
    static buffer itself, the answer of [map] to a request of a given size
    and the log of the sizes requested from [map]. *)
Record Platform := mkPlatform {
  PageSizeCached : Z;
  MutexLocked : bool;
  StaticBuffer : list Z;
  MapSucceeds : Z -> bool;
  MapRequests : list Z
}.

Definition getPageSizeCached (Pf : Platform) : Z := PageSizeCached Pf.

(** ** ReleaseRecorder *)

Module ReleaseRecorder.

(** [Released] logs the calls [releasePagesToOS(Base, From, Size, Data)]
    as pairs [(From, Size)], most recent last. *)
Record t := mk {
  ReleasedRangesCount : Z;
  ReleasedBytes : Z;
  Base : Z;
  Released : list (Z * Z)
}.

Definition init (B : Z) : t :=
  {| ReleasedRangesCount := 0; ReleasedBytes := 0; Base := B; Released := [] |}.

Definition getReleasedRangesCount (r : t) : Z := ReleasedRangesCount r.
Definition getReleasedBytes (r : t) : Z := ReleasedBytes r.
Definition getBase (r : t) : Z := Base r.

Definition releasePageRangeToOS (r : t) (From To : Z) : t :=
  let Size := wrap (To - From) in
  {| ReleasedRangesCount := wrap (ReleasedRangesCount r + 1);
     ReleasedBytes := wrap (ReleasedBytes r + Size);
     Base := Base r;
     Released := Released r ++ [(From, Size)] |}.

(** A sequence of calls, each given as [(From, To)]. *)
Definition releaseAll (r : t) (calls : list (Z * Z)) : t :=
  fold_left (fun acc c => releasePageRangeToOS acc (fst c) (snd c)) calls r.

End ReleaseRecorder.

(** ** RegionPageMap *)

Module RegionPageMap.

(** Where [Buffer] points. *)
Inductive BufferPtr := NullBuffer | StaticBufferPtr | MappedBuffer.

(** [Words] is the memory [Buffer] points to, one entry per [uptr]. *)
Record t := mk {
  Regions : Z;
  NumCounters : Z;
  CounterSizeBitsLog : Z;
  CounterMask : Z;
  PackingRatioLog : Z;
  BitOffsetMask : Z;
  SizePerRegion : Z;
  BufferSize : Z;
  Buffer : BufferPtr;
  Words : list Z
}.

Definition StaticBufferCount : Z := 2048.
Definition sizeof_uptr : Z := 8.

Definition empty : t :=
  {| Regions := 0; NumCounters := 0; CounterSizeBitsLog := 0; CounterMask := 0;
     PackingRatioLog := 0; BitOffsetMask := 0; SizePerRegion := 0;
     BufferSize := 0; Buffer := NullBuffer; Words := [] |}.

Definition load (m : t) (i : Z) : Z := default 0 (Words m !! Z.to_nat i).

Definition store (m : t) (i v : Z) : t :=
  {| Regions := Regions m; NumCounters := NumCounters m;
     CounterSizeBitsLog := CounterSizeBitsLog m; CounterMask := CounterMask m;
     PackingRatioLog := PackingRatioLog m; BitOffsetMask := BitOffsetMask m;
     SizePerRegion := SizePerRegion m; BufferSize := BufferSize m;
     Buffer := Buffer m; Words := <[Z.to_nat i := v]> (Words m) |}.

Definition reset (Pf : Platform) (NumberOfRegion CountersPerRegion MaxValue : Z)
  : t * Platform :=
  let MaxCounterBits := sizeof_uptr * 8 in
  let CounterSizeBits :=
    roundUpPowerOfTwo (wrap (getMostSignificantSetBitIndex MaxValue + 1)) in
  let CounterSizeBitsLog' := getLog2 CounterSizeBits in
  let CounterMask' := Z.shiftr uptr_max (wrap (MaxCounterBits - CounterSizeBits)) in
  let PackingRatio := Z.shiftr MaxCounterBits CounterSizeBitsLog' in
  let PackingRatioLog' := getLog2 PackingRatio in
  let BitOffsetMask' := wrap (PackingRatio - 1) in
  let SizePerRegion' :=
    Z.shiftr (roundUp CountersPerRegion (wrap (Z.shiftl 1 PackingRatioLog')))
             PackingRatioLog' in
  let BufferSize' := wrap (wrap (SizePerRegion' * sizeof_uptr) * NumberOfRegion) in
  let geom b w :=
    {| Regions := NumberOfRegion; NumCounters := CountersPerRegion;
       CounterSizeBitsLog := CounterSizeBitsLog'; CounterMask := CounterMask';
       PackingRatioLog := PackingRatioLog'; BitOffsetMask := BitOffsetMask';
       SizePerRegion := SizePerRegion'; BufferSize := BufferSize';
       Buffer := b; Words := w |} in
  if (BufferSize' <=? StaticBufferCount * sizeof_uptr) && negb (MutexLocked Pf) then
    let n := Z.to_nat (BufferSize' / sizeof_uptr) in
    let zeroed := replicate n 0 ++ drop n (StaticBuffer Pf) in
    (geom StaticBufferPtr zeroed,
     {| PageSizeCached := PageSizeCached Pf; MutexLocked := true;
        StaticBuffer := zeroed; MapSucceeds := MapSucceeds Pf;
        MapRequests := MapRequests Pf |})
  else
    let Size := roundUp BufferSize' (getPageSizeCached Pf) in
    let Pf' :=
      {| PageSizeCached := PageSizeCached Pf; MutexLocked := MutexLocked Pf;
         StaticBuffer := StaticBuffer Pf; MapSucceeds := MapSucceeds Pf;
         MapRequests := MapRequests Pf ++ [Size] |} in
    if MapSucceeds Pf Size
    then (geom MappedBuffer (replicate (Z.to_nat (Size / sizeof_uptr)) 0), Pf')
    else (geom NullBuffer [], Pf').

Definition isAllocated (m : t) : bool :=
  match Buffer m with NullBuffer => false | _ => true end.

(** [~RegionPageMap]: a map that holds the static buffer gives it back by
    unlocking the mutex, a map that holds a mapped buffer by [unmap]; the
    result carries the size passed to [unmap] when it is called. *)
Definition destructor (Pf : Platform) (m : t) : (t * Platform) * option Z :=
  if negb (isAllocated m) then ((m, Pf), None)
  else
    let m' :=
      {| Regions := Regions m; NumCounters := NumCounters m;
         CounterSizeBitsLog := CounterSizeBitsLog m; CounterMask := CounterMask m;
         PackingRatioLog := PackingRatioLog m; BitOffsetMask := BitOffsetMask m;
         SizePerRegion := SizePerRegion m; BufferSize := BufferSize m;
         Buffer := NullBuffer; Words := [] |} in
    match Buffer m with
    | StaticBufferPtr =>
        ((m', {| PageSizeCached := PageSizeCached Pf; MutexLocked := false;
                 StaticBuffer := StaticBuffer Pf; MapSucceeds := MapSucceeds Pf;
                 MapRequests := MapRequests Pf |}), None)
    | _ => ((m', Pf), Some (roundUp (BufferSize m) (getPageSizeCached Pf)))
    end.

Definition getCount (m : t) : Z := NumCounters m.

Definition wordIndex (m : t) (Region I : Z) : Z :=
  wrap (wrap (Region * SizePerRegion m) + Z.shiftr I (PackingRatioLog m)).

Definition bitOffset (m : t) (I : Z) : Z :=
  wrap (Z.shiftl (Z.land I (BitOffsetMask m)) (CounterSizeBitsLog m)).

Definition get (m : t) (Region I : Z) : Z :=
  let Index := wordIndex m Region I in
  let BitOffset := bitOffset m I in
  Z.land (Z.shiftr (load m Index) BitOffset) (CounterMask m).

Definition isAllCounted (m : t) (Region I : Z) : bool :=
  get m Region I =? CounterMask m.

Definition inc (m : t) (Region I : Z) : t :=
  let Index := wordIndex m Region I in
  let BitOffset := bitOffset m I in
  store m Index (wrap (load m Index + wrap (Z.shiftl 1 BitOffset))).

Definition incN (m : t) (Region I N : Z) : t :=
  let Index := wordIndex m Region I in
  let BitOffset := bitOffset m I in
  store m Index (wrap (load m Index + wrap (Z.shiftl N BitOffset))).

Definition incRange (m : t) (Region From To : Z) : t :=
  let Top := Min (wrap (To + 1)) (NumCounters m) in
  for_range From Top (fun I acc => inc acc Region I) m.

Definition setAsAllCounted (m : t) (Region I : Z) : t :=
  let Index := wordIndex m Region I in
  let BitOffset := bitOffset m I in
  store m Index (Z.lor (load m Index) (wrap (Z.shiftl (CounterMask m) BitOffset))).

Definition setAsAllCountedRange (m : t) (Region From To : Z) : t :=
  let Top := Min (wrap (To + 1)) (NumCounters m) in
  for_range From Top (fun I acc => setAsAllCounted acc Region I) m.

Definition updateAsAllCountedIf (m : t) (Region I MaxCount : Z) : bool * t :=
  let Count := get m Region I in
  if Count =? CounterMask m then (true, m)
  else if Count =? MaxCount then (true, setAsAllCounted m Region I)
  else (false, m).

Definition getBufferSize (m : t) : Z := BufferSize m.

(** The debug checks of the accessors, as boolean preconditions. *)
Definition validIndex (m : t) (Region I : Z) : bool :=
  (0 <=? Region) && (Region <? Regions m) && (0 <=? I) && (I <? NumCounters m).

Definition inc_pre (m : t) (Region I : Z) : bool :=
  validIndex m Region I && (get m Region I <? CounterMask m)
  && negb (isAllCounted m Region I).

Definition incN_pre (m : t) (Region I N : Z) : bool :=
  validIndex m Region I && (0 <? N) && (N <=? CounterMask m)
  && (get m Region I <=? CounterMask m - N)
  && negb (isAllCounted m Region I).

End RegionPageMap.

(** ** FreePagesRangeTracker *)

(** The [ReleaseRecorderT] template parameter: what the tracker and the
    release scan need from a recorder. *)
Class ReleaseRecorderT (R : Type) := {
  releasePageRangeToOS : R -> Z -> Z -> R;
  getBase : R -> Z
}.

#[export] Instance ReleaseRecorder_recorder : ReleaseRecorderT ReleaseRecorder.t := {
  releasePageRangeToOS := ReleaseRecorder.releasePageRangeToOS;
  getBase := ReleaseRecorder.getBase
}.

(** A recorder that only logs the [(From, To)] arguments it is called with,
    most recent last. *)
Definition RangeLog : Type := list (Z * Z).

#[export] Instance RangeLog_recorder : ReleaseRecorderT RangeLog := {
  releasePageRangeToOS := fun log From To => log ++ [(From, To)];
  getBase := fun _ => 0
}.

Module FreePagesRangeTracker.

Section Tracker.
Context {R : Type} `{ReleaseRecorderT R}.

Record t := mk {
  Recorder : R;
  PageSizeLog : Z;
  InRange : bool;
  CurrentPage : Z;
  CurrentRangeStatePage : Z
}.

Definition init (Pf : Platform) (Rec : R) : t :=
  {| Recorder := Rec; PageSizeLog := getLog2 (getPageSizeCached Pf);
     InRange := false; CurrentPage := 0; CurrentRangeStatePage := 0 |}.

Definition closeOpenedRange (T : t) : t :=
  if InRange T then
    {| Recorder :=
         releasePageRangeToOS (Recorder T)
           (wrap (Z.shiftl (CurrentRangeStatePage T) (PageSizeLog T)))
           (wrap (Z.shiftl (CurrentPage T) (PageSizeLog T)));
       PageSizeLog := PageSizeLog T; InRange := false;
       CurrentPage := CurrentPage T;
       CurrentRangeStatePage := CurrentRangeStatePage T |}
  else T.

Definition advance (T : t) (N : Z) : t :=
  {| Recorder := Recorder T; PageSizeLog := PageSizeLog T;
     InRange := InRange T; CurrentPage := wrap (CurrentPage T + N);
     CurrentRangeStatePage := CurrentRangeStatePage T |}.

Definition processNextPage (T : t) (Released : bool) : t :=
  let T1 :=
    if Released then
      if negb (InRange T) then
        {| Recorder := Recorder T; PageSizeLog := PageSizeLog T;
           InRange := true; CurrentPage := CurrentPage T;
           CurrentRangeStatePage := CurrentPage T |}
      else T
    else closeOpenedRange T in
  advance T1 1.

Definition skipPages (T : t) (N : Z) : t := advance (closeOpenedRange T) N.

Definition finish (T : t) : t := closeOpenedRange T.
End Tracker.

Arguments t R : clear implicits.

(** The public calls of a tracker, and a run of a sequence of them. *)
Inductive call := ProcessNextPage (Released : bool) | SkipPages (N : Z) | Finish.

Definition step {R} `{ReleaseRecorderT R} (T : t R) (c : call) : t R :=
  match c with
  | ProcessNextPage b => processNextPage T b
  | SkipPages N => skipPages T N
  | Finish => finish T
  end.

Definition run {R} `{ReleaseRecorderT R} (T : t R) (cs : list call) : t R :=
  fold_left step cs T.

(** What each call of a run adds to the log of a [RangeLog] recorder. *)
Fixpoint emissions (T : t RangeLog) (cs : list call) : list (list (Z * Z)) :=
  match cs with
  | [] => []
  | c :: cs' =>
      let T' := step T c in
      drop (length (Recorder T)) (Recorder T') :: emissions T' cs'
  end.

Definition isProcessNextPage (c : call) : bool :=
  match c with ProcessNextPage _ => true | _ => false end.

(** The number of pages a call, and a sequence of calls, moves the page
    cursor by. *)
Definition pages (c : call) : Z :=
  match c with ProcessNextPage _ => 1 | SkipPages N => N | Finish => 0 end.

Definition pagesAdvanced (cs : list call) : Z :=
  fold_right (fun c acc => pages c + acc) 0 cs.

End FreePagesRangeTracker.

(** ** PageReleaseContext *)

(** A transfer batch is the list of its compacted block handles:
    [getCount] is its length and [get(I)] its [I]-th entry. *)
Definition TransferBatch : Type := list Z.

Module PageReleaseContext.

Record t := mk {
  BlockSize : Z;
  RegionSize : Z;
  NumberOfRegions : Z;
  ReleasePageOffset : Z;
  PageSize : Z;
  PagesCount : Z;
  PageSizeLog : Z;
  RoundedRegionSize : Z;
  RoundedSize : Z;
  FullPagesBlockCountMax : Z;
  SameBlockCountPerPage : bool;
  PageMap : RegionPageMap.t
}.

(** The geometry classification of the constructor. *)
Definition classify (BlockSize' PageSize' : Z) : Z * bool :=
  if BlockSize' <=? PageSize' then
    if PageSize' mod BlockSize' =? 0 then (PageSize' / BlockSize', true)
    else if BlockSize' mod (PageSize' mod BlockSize') =? 0
         then (wrap (PageSize' / BlockSize' + 1), true)
         else (wrap (PageSize' / BlockSize' + 2), false)
  else
    if BlockSize' mod PageSize' =? 0 then (1, true) else (2, false).

Definition create (Pf : Platform)
    (BlockSize' RegionSize' NumberOfRegions' ReleaseSize ReleaseOffset : Z) : t :=
  let PageSize' := getPageSizeCached Pf in
  let '(Max, Same) := classify BlockSize' PageSize' in
  let PageSizeLog' := getLog2 PageSize' in
  let RoundedRegionSize' := roundUp RegionSize' PageSize' in
  {| BlockSize := BlockSize'; RegionSize := RegionSize';
     NumberOfRegions := NumberOfRegions';
     ReleasePageOffset := Z.shiftr ReleaseOffset PageSizeLog';
     PageSize := PageSize';
     PagesCount := roundUp ReleaseSize PageSize' / PageSize';
     PageSizeLog := PageSizeLog';
     RoundedRegionSize := RoundedRegionSize';
     RoundedSize := wrap (NumberOfRegions' * RoundedRegionSize');
     FullPagesBlockCountMax := Max;
     SameBlockCountPerPage := Same;
     PageMap := RegionPageMap.empty |}.

Definition withPageMap (C : t) (M : RegionPageMap.t) : t :=
  {| BlockSize := BlockSize C; RegionSize := RegionSize C;
     NumberOfRegions := NumberOfRegions C;
     ReleasePageOffset := ReleasePageOffset C; PageSize := PageSize C;
     PagesCount := PagesCount C; PageSizeLog := PageSizeLog C;
     RoundedRegionSize := RoundedRegionSize C; RoundedSize := RoundedSize C;
     FullPagesBlockCountMax := FullPagesBlockCountMax C;
     SameBlockCountPerPage := SameBlockCountPerPage C; PageMap := M |}.

Definition hasBlockMarked (C : t) : bool := RegionPageMap.isAllocated (PageMap C).

(** [ensurePageMapAllocated]: the check that the map is allocated after
    [reset] is a debug-only one and is left out.  When [map] fails the map
    stays unallocated: a store to it, which the code sends through a null
    buffer, leaves the model's map as it is.  What is proved of
    [markFreeBlocks] is proved for a platform whose [map] succeeds or a
    context whose map is allocated. *)
Definition ensurePageMapAllocated (Pf : Platform) (C : t) : t * Platform :=
  if RegionPageMap.isAllocated (PageMap C) then (C, Pf)
  else
    let '(M, Pf') :=
      RegionPageMap.reset Pf (NumberOfRegions C) (PagesCount C)
                          (FullPagesBlockCountMax C) in
    (withPageMap C M, Pf').

Definition getPageIndex (C : t) (P : Z) : Z :=
  wrap (Z.shiftr P (PageSizeLog C) - ReleasePageOffset C).


(** The [markLastBlock] closure of [markFreeBlocks]: the [while] loop
    runs on fuel and yields [None] when the fuel does not suffice. *)
Fixpoint markLastBlockLoop (fuel : nat) (C : t) (RegionIndex PInRegion : Z)
    (M : RegionPageMap.t) : option RegionPageMap.t :=
  if PInRegion <? RoundedRegionSize C then
    match fuel with
    | O => None
    | S fuel' =>
        markLastBlockLoop fuel' C RegionIndex (wrap (PInRegion + BlockSize C))
          (RegionPageMap.incRange M RegionIndex (getPageIndex C PInRegion)
             (getPageIndex C (wrap (wrap (PInRegion + BlockSize C) - 1))))
    end
  else Some M.

(** Every terminating run of the loop visits pairwise distinct offsets
    below [RoundedRegionSize], so this much fuel is always enough. *)
Definition markLastBlockFuel (C : t) : nat := S (Z.to_nat (RoundedRegionSize C)).

Definition markLastBlock (C : t) (LastBlockInRegion RegionIndex : Z)
    (M : RegionPageMap.t) : option RegionPageMap.t :=
  markLastBlockLoop (markLastBlockFuel C) C RegionIndex
    (wrap (LastBlockInRegion + BlockSize C)) M.

(** The body of the two loops over the entries of the free list. *)
Definition markBlock (C : t) (DecompactPtr : Z -> Z) (Base' : Z)
    (LastBlockInRegion : Z) (handle : Z) (M : RegionPageMap.t)
    : option RegionPageMap.t :=
  let P := wrap (DecompactPtr handle - Base') in
  if RoundedSize C <=? P then Some M
  else
    let RegionIndex := if NumberOfRegions C =? 1 then 0 else P / RegionSize C in
    let PInRegion := wrap (P - wrap (RegionIndex * RegionSize C)) in
    let M1 :=
      if (BlockSize C <=? PageSize C) && (PageSize C mod BlockSize C =? 0)
      then RegionPageMap.inc M RegionIndex (getPageIndex C PInRegion)
      else RegionPageMap.incRange M RegionIndex (getPageIndex C PInRegion)
             (getPageIndex C (wrap (wrap (PInRegion + BlockSize C) - 1))) in
    if PInRegion =? LastBlockInRegion
    then markLastBlock C LastBlockInRegion RegionIndex M1
    else Some M1.

Fixpoint markBatch (C : t) (DecompactPtr : Z -> Z) (Base' : Z)
    (LastBlockInRegion : Z) (It : TransferBatch) (M : RegionPageMap.t)
    : option RegionPageMap.t :=
  match It with
  | [] => Some M
  | handle :: rest =>
      match markBlock C DecompactPtr Base' LastBlockInRegion handle M with
      | Some M' => markBatch C DecompactPtr Base' LastBlockInRegion rest M'
      | None => None
      end
  end.

Fixpoint markBatches (C : t) (DecompactPtr : Z -> Z) (Base' : Z)
    (LastBlockInRegion : Z) (FreeList : list TransferBatch) (M : RegionPageMap.t)
    : option RegionPageMap.t :=
  match FreeList with
  | [] => Some M
  | It :: rest =>
      match markBatch C DecompactPtr Base' LastBlockInRegion It M with
      | Some M' => markBatches C DecompactPtr Base' LastBlockInRegion rest M'
      | None => None
      end
  end.

Definition markFreeBlocks (Pf : Platform) (C : t) (FreeList : list TransferBatch)
    (DecompactPtr : Z -> Z) (Base' : Z) : option (t * Platform) :=
  let '(C1, Pf') := ensurePageMapAllocated Pf C in
  let LastBlockInRegion :=
    wrap (wrap (RegionSize C1 / BlockSize C1 - 1) * BlockSize C1) in
  match markBatches C1 DecompactPtr Base' LastBlockInRegion FreeList (PageMap C1) with
  | Some M => Some (withPageMap C1 M, Pf')
  | None => None
  end.

End PageReleaseContext.

(** ** The release scan *)

(** The boundary arithmetic of one page of the slow path: from
    [PrevPageBoundary] and [CurrentBoundary] to the [BlocksPerPage] of the
    page and the two boundaries of the next page. *)
Definition slowBlocks (PageSize' BlockSize' Pn Pnc : Z) (b : Z * Z) : Z * (Z * Z) :=
  let '(PrevPageBoundary, CurrentBoundary) := b in
  let PageBoundary := wrap (PrevPageBoundary + PageSize') in
  if CurrentBoundary <? PageBoundary then
    let B1 := if PrevPageBoundary <? CurrentBoundary then wrap (Pn + 1) else Pn in
    let C1 := wrap (CurrentBoundary + Pnc) in
    if C1 <? PageBoundary then (wrap (B1 + 1), (PageBoundary, wrap (C1 + BlockSize')))
    else (B1, (PageBoundary, C1))
  else (Pn, (PageBoundary, CurrentBoundary)).

(** The boundaries a region starts with on the slow path. *)
Definition slowInit (C : PageReleaseContext.t) : Z * Z :=
  if 0 <? PageReleaseContext.ReleasePageOffset C then
    let Prev := wrap (PageReleaseContext.ReleasePageOffset C
                      * PageReleaseContext.PageSize C) in
    (Prev, roundUpSlow Prev (PageReleaseContext.BlockSize C))
  else (0, 0).

Definition slowPn (C : PageReleaseContext.t) : Z :=
  if PageReleaseContext.BlockSize C <? PageReleaseContext.PageSize C
  then PageReleaseContext.PageSize C / PageReleaseContext.BlockSize C else 1.

Definition slowPnc (C : PageReleaseContext.t) : Z :=
  wrap (slowPn C * PageReleaseContext.BlockSize C).

Section ReleaseScan.
Context {R : Type} `{ReleaseRecorderT R}.

Definition ScanState : Type := RegionPageMap.t * FreePagesRangeTracker.t R.

(** One page of the fast path. *)
Definition fastPage (Region MaxCount J : Z) (s : ScanState) : ScanState :=
  let '(M, T) := s in
  let '(CanRelease, M') := RegionPageMap.updateAsAllCountedIf M Region J MaxCount in
  (M', FreePagesRangeTracker.processNextPage T CanRelease).

(** One page of the slow path; the loop also carries [PrevPageBoundary] and
    [CurrentBoundary]. *)
Definition slowPage (C : PageReleaseContext.t) (Region J : Z)
    (s : (Z * Z) * ScanState) : (Z * Z) * ScanState :=
  let '(b, (M, T)) := s in
  let '(BlocksPerPage, b') :=
    slowBlocks (PageReleaseContext.PageSize C) (PageReleaseContext.BlockSize C)
               (slowPn C) (slowPnc C) b in
  let '(CanRelease, M') := RegionPageMap.updateAsAllCountedIf M Region J BlocksPerPage in
  (b', (M', FreePagesRangeTracker.processNextPage T CanRelease)).

Definition scanRegions (C : PageReleaseContext.t)
    (SkipRegion : Z -> bool) (s : ScanState) : ScanState :=
  let PagesCount' := PageReleaseContext.PagesCount C in
  let NumberOfRegions' := PageReleaseContext.NumberOfRegions C in
  let FullPagesBlockCountMax' := PageReleaseContext.FullPagesBlockCountMax C in
  if PageReleaseContext.SameBlockCountPerPage C then
    for_range 0 NumberOfRegions'
      (fun I '(M, T) =>
         if SkipRegion I then (M, FreePagesRangeTracker.skipPages T PagesCount')
         else for_range 0 PagesCount' (fastPage I FullPagesBlockCountMax') (M, T))
      s
  else
    for_range 0 NumberOfRegions'
      (fun I '(M, T) =>
         if SkipRegion I then (M, FreePagesRangeTracker.skipPages T PagesCount')
         else snd (for_range 0 PagesCount' (slowPage C I) (slowInit C, (M, T))))
      s.

Definition releaseFreeMemoryToOS (Pf : Platform) (C : PageReleaseContext.t)
    (Rec : R) (SkipRegion : Z -> bool) : PageReleaseContext.t * R :=
  let RangeTracker := FreePagesRangeTracker.init Pf Rec in
  let '(M, T) := scanRegions C SkipRegion (PageReleaseContext.PageMap C, RangeTracker) in
  (PageReleaseContext.withPageMap C M,
   FreePagesRangeTracker.Recorder (FreePagesRangeTracker.finish T)).

(** The overload that takes the free list. *)
Definition releaseFreeMemoryToOS_FreeList (Pf : Platform)
    (FreeList : list TransferBatch) (RegionSize NumberOfRegions BlockSize : Z)
    (Rec : R) (DecompactPtr : Z -> Z) (SkipRegion : Z -> bool)
    : option (R * Platform) :=
  let C := PageReleaseContext.create Pf BlockSize RegionSize RegionSize
             NumberOfRegions 0 in
  match PageReleaseContext.markFreeBlocks Pf C FreeList DecompactPtr (getBase Rec) with
  | Some (C', Pf') => Some (snd (releaseFreeMemoryToOS Pf' C' Rec SkipRegion), Pf')
  | None => None
  end.
End ReleaseScan.

(** The sequence the overload is documented to stand for: a context for
    [(BlockSize, RegionSize, NumberOfRegions)] with [ReleaseSize = RegionSize]
    and [ReleaseOffset = 0], then [markFreeBlocks], then the scan. *)
Definition releaseSequence {R : Type} `{ReleaseRecorderT R} (Pf : Platform)
    (FreeList : list TransferBatch) (RegionSize NumberOfRegions BlockSize : Z)
    (Rec : R) (DecompactPtr : Z -> Z) (SkipRegion : Z -> bool)
    : option (R * Platform) :=
  let C := PageReleaseContext.create Pf BlockSize RegionSize NumberOfRegions
             RegionSize 0 in
  match PageReleaseContext.markFreeBlocks Pf C FreeList DecompactPtr (getBase Rec) with
  | Some (C', Pf') => Some (snd (releaseFreeMemoryToOS Pf' C' Rec SkipRegion), Pf')
  | None => None
  end.

(** ** Specification-level notions *)

(** The counter field of width [c] at bit offset [o] of a word. *)
Definition field (w o c : Z) : Z := (w / 2 ^ o) mod 2 ^ c.

Module RegionPageMapSpec.
Import RegionPageMap.

(** What [reset] establishes about the geometry of a map whose buffer is
    allocated: counters of [2 ^ CounterSizeBitsLog] bits, packed
    [2 ^ PackingRatioLog] to a word, every region on its own words. *)
Record wf (m : t) : Prop := mk_wf {
  wf_log : 0 <= CounterSizeBitsLog m <= 6;
  wf_mask : CounterMask m = 2 ^ (2 ^ CounterSizeBitsLog m) - 1;
  wf_ratio : PackingRatioLog m = 6 - CounterSizeBitsLog m;
  wf_offset : BitOffsetMask m = 2 ^ PackingRatioLog m - 1;
  wf_regions : 0 <= Regions m;
  wf_size : 0 <= SizePerRegion m;
  wf_counters : NumCounters m <= SizePerRegion m * 2 ^ PackingRatioLog m;
  wf_words : Regions m * SizePerRegion m <= Z.of_nat (length (Words m));
  wf_fits : Regions m * SizePerRegion m <= uptr_modulus
}.

(** The same, as a test. *)
Definition wfb (m : t) : bool :=
  (0 <=? CounterSizeBitsLog m) && (CounterSizeBitsLog m <=? 6)
  && (CounterMask m =? 2 ^ (2 ^ CounterSizeBitsLog m) - 1)
  && (PackingRatioLog m =? 6 - CounterSizeBitsLog m)
  && (BitOffsetMask m =? 2 ^ PackingRatioLog m - 1)
  && (0 <=? Regions m) && (0 <=? SizePerRegion m)
  && (NumCounters m <=? SizePerRegion m * 2 ^ PackingRatioLog m)
  && (Regions m * SizePerRegion m <=? Z.of_nat (length (Words m)))
  && (Regions m * SizePerRegion m <=? uptr_modulus).

Definition valid (m : t) (Region I : Z) : Prop :=
  0 <= Region < Regions m /\ 0 <= I < NumCounters m.

(** Two maps of the same geometry. *)
Definition sameGeometry (m m' : t) : Prop :=
  Regions m' = Regions m /\ NumCounters m' = NumCounters m /\
  CounterSizeBitsLog m' = CounterSizeBitsLog m /\ CounterMask m' = CounterMask m /\
  PackingRatioLog m' = PackingRatioLog m /\ BitOffsetMask m' = BitOffsetMask m /\
  SizePerRegion m' = SizePerRegion m /\ BufferSize m' = BufferSize m /\
  Buffer m' = Buffer m /\ length (Words m') = length (Words m).
End RegionPageMapSpec.

(** A call of one of the mutating accessors of a page map, its debug-checked
    precondition, and the run of a sequence of calls. *)
Module PageMapOps.
Import RegionPageMap.

Inductive op :=
| Inc (Region I : Z)
| IncN (Region I N : Z)
| IncRange (Region From To : Z)
| SetAsAllCounted (Region I : Z)
| SetAsAllCountedRange (Region From To : Z).

Definition apply (m : t) (o : op) : t :=
  match o with
  | Inc Region J => inc m Region J
  | IncN Region J N => incN m Region J N
  | IncRange Region From To => incRange m Region From To
  | SetAsAllCounted Region J => setAsAllCounted m Region J
  | SetAsAllCountedRange Region From To => setAsAllCountedRange m Region From To
  end.

Definition validRegion (m : t) (Region : Z) : bool :=
  (0 <=? Region) && (Region <? Regions m).

(** The checks of [incRange] are [From <= To] and, for every counter the
    loop visits, those of [inc]. *)
Definition pre (m : t) (o : op) : bool :=
  match o with
  | Inc Region J => inc_pre m Region J
  | IncN Region J N => incN_pre m Region J N
  | IncRange Region From To =>
      validRegion m Region && (0 <=? From) && (From <=? To)
      && forallb (fun I => get m Region I <? CounterMask m)
           (seqZ From (Min (wrap (To + 1)) (NumCounters m) - From))
  | SetAsAllCounted Region J =>
      validIndex m Region J && (get m Region J <=? CounterMask m)
  | SetAsAllCountedRange Region From To =>
      validRegion m Region && (0 <=? From) && (From <=? To)
  end.

Fixpoint legal (m : t) (ops : list op) : bool :=
  match ops with
  | [] => true
  | o :: ops' => pre m o && legal (apply m o) ops'
  end.

Definition run (m : t) (ops : list op) : t := fold_left apply ops m.

(** The reference: one unbounded integer per counter. *)
Definition counters : Type := Z -> Z -> Z.

Definition inRange (NumCounters' From To I : Z) : bool :=
  (From <=? I) && (I <? Min (wrap (To + 1)) NumCounters').

Definition refApply (NumCounters' Mask : Z) (f : counters) (o : op) : counters :=
  fun r i =>
    match o with
    | Inc Region J =>
        if (r =? Region) && (i =? J) then f r i + 1 else f r i
    | IncN Region J N =>
        if (r =? Region) && (i =? J) then f r i + N else f r i
    | IncRange Region From To =>
        if (r =? Region) && inRange NumCounters' From To i
        then f r i + 1 else f r i
    | SetAsAllCounted Region J =>
        if (r =? Region) && (i =? J) then Mask else f r i
    | SetAsAllCountedRange Region From To =>
        if (r =? Region) && inRange NumCounters' From To i
        then Mask else f r i
    end.

Definition refRun (NumCounters' Mask : Z) (f : counters) (ops : list op) : counters :=
  fold_left (refApply NumCounters' Mask) ops f.
End PageMapOps.

(** The total size of a sequence of [(From, To)] ranges, and the ceiling of
    a quotient. *)
Definition sumSizes (calls : list (Z * Z)) : Z :=
  fold_right (fun c acc => (snd c - fst c) + acc) 0 calls.

Definition ceilDiv (a b : Z) : Z := (a + b - 1) / b.

(** The state of a tracker between two calls: the first page a range still
    to be emitted can start at, and the facts that hold of every reachable
    state. *)
Module TrackerSpec.
Import FreePagesRangeTracker.

Definition lower {R} (T : t R) : Z :=
  if InRange T then CurrentRangeStatePage T else CurrentPage T.

Definition wf {R} (lg : Z) (T : t R) : Prop :=
  PageSizeLog T = lg /\ 0 <= lg /\ 0 <= CurrentPage T /\
  (InRange T = true -> 0 <= CurrentRangeStatePage T < CurrentPage T).
End TrackerSpec.

(** The number of pages a sequence of calls reports as released. *)
Definition releasedPages (cs : list FreePagesRangeTracker.call) : Z :=
  fold_right
    (fun c acc =>
       match c with FreePagesRangeTracker.ProcessNextPage true => 1 + acc | _ => acc end)
    0 cs.

(** The release scan, page by page: the count the scan expects of page [J],
    its verdict on a page of a given map, and the calls it makes on the
    tracker. *)
Module ScanSpec.
Import PageReleaseContext.

Definition slowStateAt (C : t) (J : Z) : Z * Z :=
  for_range 0 J
    (fun _ b => snd (slowBlocks (PageSize C) (BlockSize C) (slowPn C) (slowPnc C) b))
    (slowInit C).

Definition expectedBlocks (C : t) (J : Z) : Z :=
  if SameBlockCountPerPage C then FullPagesBlockCountMax C
  else fst (slowBlocks (PageSize C) (BlockSize C) (slowPn C) (slowPnc C)
              (slowStateAt C J)).

Definition canRelease (C : t) (M : RegionPageMap.t) (Region J : Z) : bool :=
  (RegionPageMap.get M Region J =? RegionPageMap.CounterMask M)
  || (RegionPageMap.get M Region J =? expectedBlocks C J).

Definition pageCalls (C : t) (M : RegionPageMap.t) (Region : Z) (n : Z)
  : list FreePagesRangeTracker.call :=
  map (fun J => FreePagesRangeTracker.ProcessNextPage (canRelease C M Region J))
      (seqZ 0 n).

Definition regionCalls (C : t) (M : RegionPageMap.t) (SkipRegion : Z -> bool)
    (Region : Z) : list FreePagesRangeTracker.call :=
  if SkipRegion Region then [FreePagesRangeTracker.SkipPages (PagesCount C)]
  else pageCalls C M Region (PagesCount C).

Definition scanCalls (C : t) (M : RegionPageMap.t) (SkipRegion : Z -> bool) (n : Z)
  : list FreePagesRangeTracker.call :=
  concat (map (regionCalls C M SkipRegion) (seqZ 0 n)).

(** The scan leaves a map alone when every page it would release already
    is all-counted. *)
Definition settled (C : t) (M : RegionPageMap.t) (SkipRegion : Z -> bool) : Prop :=
  forall Region J, RegionPageMapSpec.valid M Region J -> SkipRegion Region = false ->
    canRelease C M Region J = true ->
    RegionPageMap.get M Region J = RegionPageMap.CounterMask M.

(** A context whose page map was allocated for it. *)
Definition populated (C : t) : Prop :=
  RegionPageMapSpec.wf (PageMap C) /\
  RegionPageMap.Regions (PageMap C) = NumberOfRegions C /\
  RegionPageMap.NumCounters (PageMap C) = PagesCount C.

(** The state of the scan after the regions below [n]. *)
Definition regionsDone {R} `{ReleaseRecorderT R} (C : t) (SkipRegion : Z -> bool)
    (M0 : RegionPageMap.t) (T0 : FreePagesRangeTracker.t R) (n : Z)
    (s : ScanState) : Prop :=
  RegionPageMapSpec.sameGeometry M0 (fst s) /\
  snd s = FreePagesRangeTracker.run T0 (scanCalls C M0 SkipRegion n) /\
  (forall R' J', RegionPageMapSpec.valid M0 R' J' ->
     RegionPageMap.get (fst s) R' J' =
       if decide (R' < n) then
         (if negb (SkipRegion R') && canRelease C M0 R' J'
          then RegionPageMap.CounterMask M0 else RegionPageMap.get M0 R' J')
       else RegionPageMap.get M0 R' J') /\
  (settled C M0 SkipRegion -> fst s = M0).

(** The state of the scan inside the unskipped region [Region], [n]
    pages in, when the region was entered with map [M] and tracker [T]. *)
Definition pagesDone {R} `{ReleaseRecorderT R} (C : t) (SkipRegion : Z -> bool)
    (M0 M : RegionPageMap.t) (T : FreePagesRangeTracker.t R) (Region n : Z)
    (s : ScanState) : Prop :=
  RegionPageMapSpec.sameGeometry M0 (fst s) /\
  snd s = FreePagesRangeTracker.run T (pageCalls C M0 Region n) /\
  (forall R' J', RegionPageMapSpec.valid M0 R' J' ->
     RegionPageMap.get (fst s) R' J' =
       if decide (R' = Region /\ J' < n) then
         (if canRelease C M0 R' J' then RegionPageMap.CounterMask M0
          else RegionPageMap.get M0 R' J')
       else RegionPageMap.get M R' J') /\
  (settled C M0 SkipRegion -> M = M0 -> fst s = M0).
End ScanSpec.

(** What the marking of a free list counts: the blocks of the grid of
    [BlockSize]-byte blocks that touch a page, the free ones among them,
    and the pretend blocks past the last whole block of a region. *)
Module MarkSpec.

(** Block [k], that is [k * B, (k + 1) * B), meets page [J], that is
    [J * S, (J + 1) * S). *)
Definition touchesb (S B k J : Z) : bool :=
  (k * B <? (J + 1) * S) && (J * S <? (k + 1) * B).

(** The number of [k] among [a, a + 1, ..., a + n - 1] that pass [f]. *)
Fixpoint countFrom (f : Z -> bool) (a : Z) (n : nat) : Z :=
  match n with
  | O => 0
  | Datatypes.S n' => (if f a then 1 else 0) + countFrom f (a + 1) n'
  end.

(** The number of blocks [k] with [a <= k < b] that touch page [J]. *)
Definition gridCount (S B a b J : Z) : Z :=
  countFrom (fun k => touchesb S B k J) a (Z.to_nat (b - a)).

(** The number of blocks of the whole grid that touch page [J]. *)
Definition fullCount (S B J : Z) : Z := ((J + 1) * S - 1) / B - J * S / B + 1.

(** The number of whole blocks of a region and of blocks, whole or pretend,
    that start below the rounded region size. *)
Definition wholeBlocks (C : PageReleaseContext.t) : Z :=
  PageReleaseContext.RegionSize C / PageReleaseContext.BlockSize C.

Definition gridBlocks (C : PageReleaseContext.t) : Z :=
  ceilDiv (PageReleaseContext.RoundedRegionSize C) (PageReleaseContext.BlockSize C).

(** What the entry at offset [P] adds to the counter of page [J] of region
    [Region]: one when its block touches the page, and the pretend blocks
    that touch the page when it is the last whole block of the region. *)
Definition contribution (C : PageReleaseContext.t) (P Region J : Z) : Z :=
  let S := PageReleaseContext.PageSize C in
  let B := PageReleaseContext.BlockSize C in
  let k := P mod PageReleaseContext.RegionSize C / B in
  if P / PageReleaseContext.RegionSize C =? Region then
    (if touchesb S B k J then 1 else 0)
    + (if k =? wholeBlocks C - 1
       then gridCount S B (wholeBlocks C) (gridBlocks C) J else 0)
  else 0.

Definition marked (C : PageReleaseContext.t) (offsets : list Z) (Region J : Z) : Z :=
  fold_right (fun P acc => contribution C P Region J + acc) 0 offsets.

(** The offsets of the entries of a free list. *)
Definition offsetsOf (FreeList : list TransferBatch) (DecompactPtr : Z -> Z)
    (Base : Z) : list Z :=
  map (fun handle => DecompactPtr handle - Base) (concat FreeList).

(** Membership in a list of offsets, as a test, and whether block [k] of
    region [Region] is in the list. *)
Definition memb (x : Z) (l : list Z) : bool := existsb (Z.eqb x) l.

Definition freeb (C : PageReleaseContext.t) (offsets : list Z) (Region k : Z) : bool :=
  memb (Region * PageReleaseContext.RegionSize C + k * PageReleaseContext.BlockSize C)
       offsets.

(** An offset that is the start of a whole block of some region. *)
Definition blockStart (C : PageReleaseContext.t) (P : Z) : Prop :=
  exists Region k,
    0 <= Region < PageReleaseContext.NumberOfRegions C /\
    0 <= k < wholeBlocks C /\
    P = Region * PageReleaseContext.RegionSize C + k * PageReleaseContext.BlockSize C.

(** The contexts the correctness of the release is stated for: built for a
    whole region ([ReleaseOffset = 0], [ReleaseSize = RegionSize]) on pages
    of [2 ^ lg] bytes, with at least one whole block per region and sizes
    that keep the arithmetic of the engine within a word. *)
Record geometry (lg : Z) (C : PageReleaseContext.t) : Prop := mk_geometry {
  geo_lg : 0 <= lg < 64;
  geo_page : PageReleaseContext.PageSize C = 2 ^ lg;
  geo_log : PageReleaseContext.PageSizeLog C = lg;
  geo_block : 1 <= PageReleaseContext.BlockSize C <= PageReleaseContext.RegionSize C;
  geo_regions : 1 <= PageReleaseContext.NumberOfRegions C;
  geo_offset : PageReleaseContext.ReleasePageOffset C = 0;
  geo_rounded : PageReleaseContext.RoundedRegionSize C
                = PageReleaseContext.PagesCount C * PageReleaseContext.PageSize C;
  geo_round : PageReleaseContext.RegionSize C
              <= PageReleaseContext.RoundedRegionSize C
              < PageReleaseContext.RegionSize C + PageReleaseContext.PageSize C;
  geo_size : PageReleaseContext.RoundedSize C
             = PageReleaseContext.NumberOfRegions C
               * PageReleaseContext.RoundedRegionSize C;
  geo_class : PageReleaseContext.classify (PageReleaseContext.BlockSize C)
                (PageReleaseContext.PageSize C)
              = (PageReleaseContext.FullPagesBlockCountMax C,
                 PageReleaseContext.SameBlockCountPerPage C);
  geo_fit : 8 * PageReleaseContext.NumberOfRegions C
              * (PageReleaseContext.RegionSize C + PageReleaseContext.PageSize C)
            + 2 * PageReleaseContext.PageSize C
            + 2 * PageReleaseContext.BlockSize C + 64 <= uptr_modulus
}.

(** Page [J] lies in one of the ranges of a log. *)
Definition covered (lg : Z) (log : RangeLog) (p : Z) : Prop :=
  exists From To, (From, To) ∈ log /\ From <= p * 2 ^ lg < To.

(** The counters have room for the entry at offset [P], and for all the
    entries at [offsets]. *)
Definition roomFor (C : PageReleaseContext.t) (M : RegionPageMap.t) (P : Z) : Prop :=
  forall R J, RegionPageMapSpec.valid M R J ->
    RegionPageMap.get M R J + contribution C P R J <= RegionPageMap.CounterMask M.

Definition roomForAll (C : PageReleaseContext.t) (M : RegionPageMap.t)
    (offsets : list Z) : Prop :=
  forall R J, RegionPageMapSpec.valid M R J ->
    RegionPageMap.get M R J + marked C offsets R J <= RegionPageMap.CounterMask M.

(** The state of a tracker that was fed the verdicts [v] of the pages below
    [n]: the log covers the released pages below the open range, and the
    open range holds released pages only. *)
Definition fed (lg : Z) (v : Z -> bool) (n : Z)
    (T : FreePagesRangeTracker.t RangeLog) : Prop :=
  TrackerSpec.wf lg T /\ FreePagesRangeTracker.CurrentPage T = n /\
  (FreePagesRangeTracker.InRange T = true ->
   forall p, FreePagesRangeTracker.CurrentRangeStatePage T <= p < n -> v p = true) /\
  forall p, covered lg (FreePagesRangeTracker.Recorder T) p <->
            0 <= p < TrackerSpec.lower T /\ v p = true.

End MarkSpec.

(** ** Worked examples *)

(** A platform with 4096-byte pages, the static buffer free. *)
Definition Pf4096 : Platform :=
  {| PageSizeCached := 4096; MutexLocked := false;
     StaticBuffer := replicate 2048 0; MapSucceeds := fun _ => true;
     MapRequests := [] |}.

(** The same platform with the static buffer taken by another map. *)
Definition Pf4096Locked : Platform :=
  {| PageSizeCached := 4096; MutexLocked := true;
     StaticBuffer := replicate 2048 0; MapSucceeds := fun _ => true;
     MapRequests := [] |}.

(** One region of 12000 bytes cut into four blocks of 3000 bytes, all of
    them free (blocks straddle the 4096-byte pages). *)
Definition straddlingContext : PageReleaseContext.t :=
  let C := PageReleaseContext.create Pf4096 3000 12000 1 12000 0 in
  match PageReleaseContext.markFreeBlocks Pf4096 C [[0; 3000; 6000; 9000]]
          (fun P => P) 0 with
  | Some (C', _) => C'
  | None => C
  end.

(** A fresh map of one region of three counters that count up to two. *)
Definition smallMap : RegionPageMap.t := fst (RegionPageMap.reset Pf4096 1 3 2).

(** ** Accounting and range marking, as specifications *)

(** The books of a tracker that reports to a [ReleaseRecorder] balance
    after [k] released pages: the bytes recorded and the bytes of the open
    range add up to [k] pages, and the ranges recorded, the open one
    included, are at most [k]. *)
Definition balanced (lg Base' k : Z)
    (T : FreePagesRangeTracker.t ReleaseRecorder.t) : Prop :=
  let Rec := FreePagesRangeTracker.Recorder T in
  TrackerSpec.wf lg T /\
  k <= FreePagesRangeTracker.CurrentPage T /\
  ReleaseRecorder.Base Rec = Base' /\
  0 <= ReleaseRecorder.ReleasedRangesCount Rec /\
  (if FreePagesRangeTracker.InRange T
   then ReleaseRecorder.ReleasedBytes Rec
        + (FreePagesRangeTracker.CurrentPage T
           - FreePagesRangeTracker.CurrentRangeStatePage T) * 2 ^ lg = k * 2 ^ lg /\
        ReleaseRecorder.ReleasedRangesCount Rec + 1 <= k
   else ReleaseRecorder.ReleasedBytes Rec = k * 2 ^ lg /\
        ReleaseRecorder.ReleasedRangesCount Rec <= k).

(** What [markRangeAsAllCounted] does with the range [f, t') of a region,
    page by page: the first block that starts in the range, the last block
    that starts in it, the first page whose blocks all start in the range,
    the pages that are marked all-counted and what is added to the counter
    of any other page. *)
Module RangeSpec.
Import PageReleaseContext.









End RangeSpec.

(** * Proofs *)

(** ** Word arithmetic *)

Lemma uptr_modulus_eq : uptr_modulus = 18446744073709551616.
Proof. reflexivity. Qed.

Lemma wrap_small x : 0 <= x < uptr_modulus -> wrap x = x.
Proof. intros; unfold wrap; apply Z.mod_small; assumption. Qed.

Lemma wrap_range x : 0 <= wrap x < uptr_modulus.
Proof. unfold wrap; apply Z.mod_pos_bound; rewrite uptr_modulus_eq; lia. Qed.

Lemma wrap_add_wrap_r a b : wrap (a + wrap b) = wrap (a + b).
Proof. unfold wrap; apply Zplus_mod_idemp_r. Qed.

Lemma wrap_add_wrap_l a b : wrap (wrap a + b) = wrap (a + b).
Proof. unfold wrap; apply Zplus_mod_idemp_l. Qed.

Lemma pow2_pos n : 0 <= n -> 0 < 2 ^ n.
Proof. intros; apply Z.pow_pos_nonneg; lia. Qed.

Lemma pow2_le a b : 0 <= a <= b -> 2 ^ a <= 2 ^ b.
Proof. intros; apply Z.pow_le_mono_r; lia. Qed.

Lemma pow2_split a b : 0 <= a <= b -> 2 ^ b = 2 ^ a * 2 ^ (b - a).
Proof. intros; rewrite <- Z.pow_add_r by lia; f_equal; lia. Qed.

(** Evaluate the closed powers of two of the goal and the hypotheses. *)
Ltac pow_norm :=
  repeat match goal with
  | |- context [2 ^ ?k] =>
      let v := eval vm_compute in (2 ^ k) in
      progress change (2 ^ k) with v in *
  | H : context [2 ^ ?k] |- _ =>
      let v := eval vm_compute in (2 ^ k) in
      progress change (2 ^ k) with v in *
  end.

Lemma Min_spec a b : Min a b = Z.min a b.
Proof. unfold Min; destruct (Z.ltb_spec a b); lia. Qed.

(** ** Counter fields of a word *)

Lemma field_range w o c : 0 <= c -> 0 <= field w o c < 2 ^ c.
Proof. intros; unfold field; apply Z.mod_pos_bound, pow2_pos; lia. Qed.

Lemma field_land_shiftr w o c :
  0 <= o -> 0 <= c -> Z.land (Z.shiftr w o) (2 ^ c - 1) = field w o c.
Proof.
  intros Ho Hc. unfold field.
  rewrite Z.shiftr_div_pow2 by lia.
  replace (2 ^ c - 1) with (Z.ones c) by (rewrite Z.ones_equiv; lia).
  apply Z.land_ones; lia.
Qed.

Lemma field_wrap w o c :
  0 <= o -> 0 <= c -> o + c <= SCUDO_WORDSIZE -> field (wrap w) o c = field w o c.
Proof.
  intros Ho Hc Hoc. unfold field, wrap, uptr_modulus.
  rewrite (pow2_split (o + c) SCUDO_WORDSIZE) by lia.
  rewrite Z.pow_add_r by lia.
  pose proof (pow2_pos o Ho). pose proof (pow2_pos c Hc).
  assert (0 < 2 ^ (SCUDO_WORDSIZE - (o + c))) by (apply pow2_pos; lia).
  set (K := 2 ^ (SCUDO_WORDSIZE - (o + c))) in *.
  rewrite (Z.mod_eq w (2 ^ o * 2 ^ c * K)) by nia.
  replace (w - 2 ^ o * 2 ^ c * K * (w / (2 ^ o * 2 ^ c * K)))
    with (w + (- (w / (2 ^ o * 2 ^ c * K)) * K * 2 ^ c) * 2 ^ o) by ring.
  rewrite Z.div_add by lia.
  replace (w / 2 ^ o + - (w / (2 ^ o * 2 ^ c * K)) * K * 2 ^ c)
    with (w / 2 ^ o + (- (w / (2 ^ o * 2 ^ c * K)) * K) * 2 ^ c) by ring.
  apply Z.mod_add; lia.
Qed.

Lemma field_add_same w n o c :
  0 <= o -> 0 <= c -> field (w + n * 2 ^ o) o c = (field w o c + n) mod 2 ^ c.
Proof.
  intros Ho Hc. unfold field. pose proof (pow2_pos o Ho).
  rewrite Z.div_add by lia. rewrite Zplus_mod_idemp_l. reflexivity.
Qed.

Lemma field_add_below w n o o' c :
  0 <= o' -> 0 <= c -> o' + c <= o -> field (w + n * 2 ^ o) o' c = field w o' c.
Proof.
  intros Ho Hc Hoc. unfold field.
  rewrite (pow2_split (o' + c) o) by lia. rewrite Z.pow_add_r by lia.
  pose proof (pow2_pos o' Ho). pose proof (pow2_pos c Hc).
  replace (w + n * (2 ^ o' * 2 ^ c * 2 ^ (o - (o' + c))))
    with (w + (n * 2 ^ (o - (o' + c)) * 2 ^ c) * 2 ^ o') by ring.
  rewrite Z.div_add by lia.
  replace (w / 2 ^ o' + n * 2 ^ (o - (o' + c)) * 2 ^ c)
    with (w / 2 ^ o' + (n * 2 ^ (o - (o' + c))) * 2 ^ c) by ring.
  apply Z.mod_add; lia.
Qed.

Lemma field_add_above w n o o' c :
  0 <= o -> 0 <= c -> o + c <= o' -> 0 <= field w o c + n < 2 ^ c ->
  field (w + n * 2 ^ o) o' c = field w o' c.
Proof.
  intros Ho Hc Hoc Hn. unfold field in *.
  pose proof (pow2_pos o Ho). pose proof (pow2_pos c Hc).
  assert (0 < 2 ^ (o' - (o + c))) by (apply pow2_pos; lia).
  f_equal.
  rewrite (pow2_split (o + c) o') by lia. rewrite Z.pow_add_r by lia.
  rewrite <- !Z.div_div by lia.
  f_equal.
  rewrite Z.div_add by lia.
  set (x := w / 2 ^ o) in *.
  rewrite (Z.div_mod x (2 ^ c)) at 1 by lia.
  replace (2 ^ c * (x / 2 ^ c) + x mod 2 ^ c + n)
    with ((x mod 2 ^ c + n) + (x / 2 ^ c) * 2 ^ c) by ring.
  rewrite Z.div_add by lia. rewrite Z.div_small by lia. lia.
Qed.

Lemma field_testbit w o c i :
  0 <= o -> 0 <= c -> 0 <= i ->
  Z.testbit (field w o c) i = (i <? c) && Z.testbit w (i + o).
Proof.
  intros Ho Hc Hi. rewrite <- field_land_shiftr by lia.
  replace (2 ^ c - 1) with (Z.ones c) by (rewrite Z.ones_equiv; lia).
  rewrite Z.land_spec, Z.shiftr_spec by lia.
  rewrite Z.testbit_ones_nonneg by lia.
  destruct (Z.ltb_spec i c); rewrite ?andb_true_r, ?andb_false_r; reflexivity.
Qed.

Lemma field_lor_same w o c :
  0 <= o -> 0 <= c -> field (Z.lor w (Z.shiftl (2 ^ c - 1) o)) o c = 2 ^ c - 1.
Proof.
  intros Ho Hc. apply Z.bits_inj'. intros i Hi.
  rewrite field_testbit by lia.
  replace (2 ^ c - 1) with (Z.ones c) by (rewrite Z.ones_equiv; lia).
  rewrite Z.lor_spec, Z.shiftl_spec by lia.
  replace (i + o - o) with i by lia.
  rewrite Z.testbit_ones_nonneg by lia.
  destruct (Z.ltb_spec i c); rewrite ?orb_true_r; reflexivity.
Qed.

Lemma field_lor_other w o o' c :
  0 <= o -> 0 <= o' -> 0 <= c -> o' + c <= o \/ o + c <= o' ->
  field (Z.lor w (Z.shiftl (2 ^ c - 1) o)) o' c = field w o' c.
Proof.
  intros Ho Ho' Hc Hd. apply Z.bits_inj'. intros i Hi.
  rewrite !field_testbit by lia.
  replace (2 ^ c - 1) with (Z.ones c) by (rewrite Z.ones_equiv; lia).
  rewrite Z.lor_spec, Z.shiftl_spec by lia.
  destruct (Z.ltb_spec i c); [|reflexivity]. simpl.
  destruct (Z.ltb_spec (i + o' - o) 0).
  - rewrite (Z.testbit_neg_r _ (i + o' - o)) by lia. apply orb_false_r.
  - rewrite Z.testbit_ones_nonneg by lia.
    destruct (Z.ltb_spec (i + o' - o) c); [lia|]. apply orb_false_r.
Qed.

(** ** Loops *)

Lemma for_range_nil {St} (From To : Z) (Body : Z -> St -> St) s :
  To <= From -> for_range From To Body s = s.
Proof. intros; unfold for_range; rewrite seqZ_nil by lia; reflexivity. Qed.

Lemma for_range_first {St} (From To : Z) (Body : Z -> St -> St) s :
  From < To ->
  for_range From To Body s = for_range (From + 1) To Body (Body From s).
Proof.
  intros; unfold for_range. rewrite seqZ_cons by lia. simpl.
  do 2 f_equal; lia.
Qed.

Lemma for_range_last {St} (From To : Z) (Body : Z -> St -> St) s :
  From <= To ->
  for_range From (To + 1) Body s = Body To (for_range From To Body s).
Proof.
  intros; unfold for_range.
  replace (To + 1 - From) with ((To - From) + 1) by lia.
  rewrite seqZ_app by lia. rewrite fold_left_app.
  rewrite (seqZ_cons _ 1) by lia. rewrite seqZ_nil by lia. simpl.
  f_equal; lia.
Qed.

(** The loop invariant rule. *)
Lemma for_range_inv {St} (Inv : Z -> St -> Prop) (From To : Z)
    (Body : Z -> St -> St) s :
  From <= To -> Inv From s ->
  (forall I acc, From <= I < To -> Inv I acc -> Inv (I + 1) (Body I acc)) ->
  Inv To (for_range From To Body s).
Proof.
  intros Hle H0 Hstep.
  assert (Hgen : forall n : nat, From + Z.of_nat n <= To ->
            Inv (From + Z.of_nat n) (for_range From (From + Z.of_nat n) Body s)).
  { induction n as [|n IH]; intros Hn.
    - rewrite Z.add_0_r, for_range_nil by lia. exact H0.
    - replace (From + Z.of_nat (S n)) with (From + Z.of_nat n + 1) by lia.
      rewrite for_range_last by lia. apply Hstep; [lia|]. apply IH; lia. }
  specialize (Hgen (Z.to_nat (To - From))).
  replace (From + Z.of_nat (Z.to_nat (To - From))) with To in Hgen by lia.
  apply Hgen; lia.
Qed.

(** A property that every iteration preserves. *)
Lemma for_range_preserves {St} (P : St -> Prop) (From To : Z)
    (Body : Z -> St -> St) s :
  P s -> (forall I acc, From <= I < To -> P acc -> P (Body I acc)) ->
  P (for_range From To Body s).
Proof.
  intros H0 Hstep. destruct (Z_lt_le_dec To From).
  - rewrite for_range_nil by lia. exact H0.
  - apply (for_range_inv (fun _ => P)); auto.
Qed.

(** ** The packed page map *)

Section PageMapFacts.
Import RegionPageMap RegionPageMapSpec.

Definition bits (m : t) : Z := 2 ^ CounterSizeBitsLog m.

Lemma wfb_wf m : wfb m = true -> wf m.
Proof.
  unfold wfb. rewrite !andb_true_iff, !Z.leb_le, !Z.eqb_eq.
  intros H. constructor; tauto.
Qed.

Lemma bits_range m : wf m -> 1 <= bits m <= 64.
Proof.
  intros [Hl _ _ _ _ _ _ _ _]. unfold bits. split.
  - pose proof (pow2_pos (CounterSizeBitsLog m)); lia.
  - change 64 with (2 ^ 6). apply pow2_le; lia.
Qed.

Lemma bits_ratio m : wf m -> bits m * 2 ^ PackingRatioLog m = 64.
Proof.
  intros [Hl _ Hr _ _ _ _ _ _]. unfold bits. rewrite Hr.
  rewrite <- Z.pow_add_r by lia.
  replace (CounterSizeBitsLog m + (6 - CounterSizeBitsLog m)) with 6 by lia.
  reflexivity.
Qed.

Lemma CounterMask_bits m : wf m -> CounterMask m = 2 ^ bits m - 1.
Proof. intros [_ Hm _ _ _ _ _ _ _]. exact Hm. Qed.

Lemma CounterMask_pos m : wf m -> 1 <= CounterMask m.
Proof.
  intros Hwf. rewrite CounterMask_bits by assumption.
  pose proof (bits_range m Hwf).
  assert (2 ^ 1 <= 2 ^ bits m) by (apply pow2_le; lia). lia.
Qed.

Lemma ratio_range m : wf m -> 0 <= PackingRatioLog m <= 6.
Proof. intros [Hl _ Hr _ _ _ _ _ _]. lia. Qed.

Lemma wordIndex_eq m Region I :
  wf m -> valid m Region I ->
  wordIndex m Region I = Region * SizePerRegion m + I / 2 ^ PackingRatioLog m /\
  0 <= Region * SizePerRegion m + I / 2 ^ PackingRatioLog m
    < Regions m * SizePerRegion m.
Proof.
  intros Hwf [HR HI]. pose proof (ratio_range m Hwf) as Hr.
  destruct Hwf as [_ _ _ _ _ Hs Hc Hw Hf].
  pose proof (pow2_pos (PackingRatioLog m) (proj1 Hr)) as Hp.
  assert (0 <= I / 2 ^ PackingRatioLog m < SizePerRegion m).
  { split; [apply Z.div_pos; lia|]. apply Z.div_lt_upper_bound; nia. }
  assert (0 <= Region * SizePerRegion m + I / 2 ^ PackingRatioLog m
          < Regions m * SizePerRegion m) by nia.
  split; [|assumption].
  unfold wordIndex. rewrite Z.shiftr_div_pow2 by lia.
  rewrite (wrap_small (Region * SizePerRegion m)) by nia.
  apply wrap_small. lia.
Qed.

Lemma bitOffset_eq m I :
  wf m -> 0 <= I ->
  bitOffset m I = (I mod 2 ^ PackingRatioLog m) * bits m /\
  0 <= (I mod 2 ^ PackingRatioLog m) * bits m /\
  (I mod 2 ^ PackingRatioLog m) * bits m + bits m <= 64.
Proof.
  intros Hwf HI. pose proof (ratio_range m Hwf) as Hr.
  pose proof (bits_range m Hwf) as Hb. pose proof (bits_ratio m Hwf) as Hbr.
  pose proof (pow2_pos (PackingRatioLog m) (proj1 Hr)) as Hp.
  pose proof (Z.mod_pos_bound I _ Hp) as Hm.
  assert (0 <= I mod 2 ^ PackingRatioLog m * bits m /\
          I mod 2 ^ PackingRatioLog m * bits m + bits m <= 64) as [H1 H2] by nia.
  split; [|split; assumption].
  unfold bitOffset. destruct Hwf as [Hl _ _ Ho _ _ _ _ _].
  rewrite Ho. replace (2 ^ PackingRatioLog m - 1) with (Z.ones (PackingRatioLog m))
    by (rewrite Z.ones_equiv; lia).
  rewrite Z.land_ones by lia. rewrite Z.shiftl_mul_pow2 by lia.
  apply wrap_small. fold (bits m). rewrite uptr_modulus_eq. lia.
Qed.

(** [get] reads the counter field of its word. *)
Lemma get_field m Region I :
  wf m -> valid m Region I ->
  get m Region I =
    field (load m (Region * SizePerRegion m + I / 2 ^ PackingRatioLog m))
          ((I mod 2 ^ PackingRatioLog m) * bits m) (bits m).
Proof.
  intros Hwf Hv. unfold get.
  destruct (wordIndex_eq m Region I Hwf Hv) as [-> _].
  destruct (bitOffset_eq m I Hwf (proj1 (proj2 Hv))) as (-> & H1 & H2).
  rewrite CounterMask_bits by assumption.
  pose proof (bits_range m Hwf). apply field_land_shiftr; lia.
Qed.

Lemma get_range m Region I :
  wf m -> valid m Region I -> 0 <= get m Region I <= CounterMask m.
Proof.
  intros Hwf Hv. rewrite get_field, CounterMask_bits by assumption.
  pose proof (bits_range m Hwf).
  pose proof (field_range
    (load m (Region * SizePerRegion m + I / 2 ^ PackingRatioLog m))
    ((I mod 2 ^ PackingRatioLog m) * bits m) (bits m)). lia.
Qed.

(** Two distinct counters lie in distinct words or in disjoint fields. *)
Lemma position_disjoint m Region I Region' I' :
  wf m -> valid m Region I -> valid m Region' I' ->
  (Region, I) <> (Region', I') ->
  Region * SizePerRegion m + I / 2 ^ PackingRatioLog m
    <> Region' * SizePerRegion m + I' / 2 ^ PackingRatioLog m \/
  (I' mod 2 ^ PackingRatioLog m) * bits m + bits m
    <= (I mod 2 ^ PackingRatioLog m) * bits m \/
  (I mod 2 ^ PackingRatioLog m) * bits m + bits m
    <= (I' mod 2 ^ PackingRatioLog m) * bits m.
Proof.
  intros Hwf [HR HI] [HR' HI'] Hne.
  pose proof (ratio_range m Hwf) as Hr. pose proof (bits_range m Hwf) as Hb.
  pose proof (pow2_pos (PackingRatioLog m) (proj1 Hr)) as Hp.
  destruct Hwf as [_ _ _ _ _ Hs Hc _ _].
  set (P := 2 ^ PackingRatioLog m) in *.
  assert (0 <= I / P < SizePerRegion m).
  { split; [apply Z.div_pos; lia|]. apply Z.div_lt_upper_bound; nia. }
  assert (0 <= I' / P < SizePerRegion m).
  { split; [apply Z.div_pos; lia|]. apply Z.div_lt_upper_bound; nia. }
  pose proof (Z.mod_pos_bound I P Hp). pose proof (Z.mod_pos_bound I' P Hp).
  destruct (Z.eq_dec (Region * SizePerRegion m + I / P)
                     (Region' * SizePerRegion m + I' / P)) as [He|]; [|auto].
  right.
  assert (Region = Region') by nia. subst Region'.
  assert (I / P = I' / P) by lia.
  assert (I mod P <> I' mod P).
  { intros Hm. apply Hne. f_equal.
    rewrite (Z.div_mod I P), (Z.div_mod I' P) by lia. congruence. }
  nia.
Qed.

Lemma sameGeometry_refl m : sameGeometry m m.
Proof. unfold sameGeometry; tauto. Qed.

Lemma sameGeometry_trans m1 m2 m3 :
  sameGeometry m1 m2 -> sameGeometry m2 m3 -> sameGeometry m1 m3.
Proof. unfold sameGeometry; intuition congruence. Qed.

Lemma sameGeometry_store m i v : sameGeometry m (store m i v).
Proof. unfold sameGeometry; simpl. rewrite length_insert. tauto. Qed.

Lemma sameGeometry_wf m m' : sameGeometry m m' -> wf m -> wf m'.
Proof.
  intros (H1 & H2 & H3 & H4 & H5 & H6 & H7 & H8 & H9 & H10) [].
  constructor; rewrite ?H1, ?H2, ?H3, ?H4, ?H5, ?H6, ?H7, ?H10; assumption.
Qed.

Lemma sameGeometry_valid m m' Region I :
  sameGeometry m m' -> valid m Region I -> valid m' Region I.
Proof. intros (H1 & H2 & _) Hv. unfold valid. rewrite H1, H2. exact Hv. Qed.

Lemma load_store_same m i v :
  0 <= i < Z.of_nat (length (Words m)) -> load (store m i v) i = v.
Proof.
  intros Hi. unfold load, store; simpl.
  rewrite list_lookup_insert_eq by lia. reflexivity.
Qed.

Lemma load_store_other m i j v :
  0 <= i -> 0 <= j -> i <> j -> load (store m i v) j = load m j.
Proof.
  intros Hi Hj Hne. unfold load, store; simpl.
  rewrite list_lookup_insert_ne by lia. reflexivity.
Qed.

(** Overwriting the word of counter [(Region, I)] with a value that
    agrees with the old word on every other field changes no other
    counter. *)
Lemma get_store m Region I v Region' I' :
  wf m -> valid m Region I -> valid m Region' I' ->
  (forall o', 0 <= o' -> o' + bits m <= 64 ->
     o' + bits m <= (I mod 2 ^ PackingRatioLog m) * bits m \/
     (I mod 2 ^ PackingRatioLog m) * bits m + bits m <= o' ->
     field v o' (bits m) =
     field (load m (Region * SizePerRegion m + I / 2 ^ PackingRatioLog m))
           o' (bits m)) ->
  get (store m (Region * SizePerRegion m + I / 2 ^ PackingRatioLog m) v)
      Region' I' =
  if decide ((Region, I) = (Region', I'))
  then field v ((I mod 2 ^ PackingRatioLog m) * bits m) (bits m)
  else get m Region' I'.
Proof.
  intros Hwf Hv Hv' Hframe.
  set (idx := Region * SizePerRegion m + I / 2 ^ PackingRatioLog m) in *.
  assert (Hwf' : wf (store m idx v))
    by (eapply sameGeometry_wf; [apply sameGeometry_store|assumption]).
  rewrite (get_field (store m idx v)) by assumption.
  change (SizePerRegion (store m idx v)) with (SizePerRegion m).
  change (PackingRatioLog (store m idx v)) with (PackingRatioLog m).
  change (bits (store m idx v)) with (bits m).
  destruct (wordIndex_eq m Region I Hwf Hv) as [_ Hi].
  destruct (wordIndex_eq m Region' I' Hwf Hv') as [_ Hi'].
  fold idx in Hi.
  destruct (bitOffset_eq m I' Hwf (proj1 (proj2 Hv'))) as (_ & Ho1 & Ho2).
  case_decide as Heq.
  - inversion Heq; subst Region' I'. fold idx.
    rewrite load_store_same by (destruct Hwf; lia). reflexivity.
  - rewrite (get_field m) by assumption.
    destruct (position_disjoint m Region I Region' I' Hwf Hv Hv' Heq)
      as [Hw|Hd].
    + fold idx in Hw. rewrite load_store_other by lia. reflexivity.
    + destruct (Z.eq_dec idx
        (Region' * SizePerRegion m + I' / 2 ^ PackingRatioLog m)) as [<-|Hw].
      * rewrite load_store_same by (destruct Hwf; lia).
        apply Hframe; lia.
      * rewrite load_store_other by lia. reflexivity.
Qed.

Lemma inc_incN m Region I : inc m Region I = incN m Region I 1.
Proof. reflexivity. Qed.

(** Adding [N] to a counter that has room for it adds [N] to that counter
    and to no other. *)
Lemma get_incN m Region I N Region' I' :
  wf m -> valid m Region I -> valid m Region' I' ->
  0 <= N -> get m Region I + N <= CounterMask m ->
  get (incN m Region I N) Region' I' =
  if decide ((Region, I) = (Region', I'))
  then get m Region I + N else get m Region' I'.
Proof.
  intros Hwf Hv Hv' HN Hroom.
  pose proof (get_range m Region I Hwf Hv) as Hg.
  rewrite (get_field m Region I) in * by assumption.
  unfold incN.
  destruct (wordIndex_eq m Region I Hwf Hv) as [-> Hi].
  destruct (bitOffset_eq m I Hwf (proj1 (proj2 Hv))) as (-> & Ho1 & Ho2).
  pose proof (bits_range m Hwf) as Hb.
  rewrite CounterMask_bits in * by assumption.
  rewrite Z.shiftl_mul_pow2 by lia.
  rewrite get_store; try assumption.
  - case_decide; [|reflexivity].
    rewrite wrap_add_wrap_r, field_wrap by (unfold SCUDO_WORDSIZE; lia).
    rewrite field_add_same by lia. apply Z.mod_small; lia.
  - intros o' Ho' Hsmall Hd.
    rewrite wrap_add_wrap_r, field_wrap by (unfold SCUDO_WORDSIZE; lia).
    destruct Hd; [apply field_add_below|apply field_add_above]; lia.
Qed.

Lemma get_inc m Region I Region' I' :
  wf m -> valid m Region I -> valid m Region' I' ->
  get m Region I < CounterMask m ->
  get (inc m Region I) Region' I' =
  if decide ((Region, I) = (Region', I'))
  then get m Region I + 1 else get m Region' I'.
Proof. intros; rewrite inc_incN; apply get_incN; try assumption; lia. Qed.

(** [setAsAllCounted] saturates its counter and no other. *)
Lemma get_setAsAllCounted m Region I Region' I' :
  wf m -> valid m Region I -> valid m Region' I' ->
  get (setAsAllCounted m Region I) Region' I' =
  if decide ((Region, I) = (Region', I'))
  then CounterMask m else get m Region' I'.
Proof.
  intros Hwf Hv Hv'. unfold setAsAllCounted.
  destruct (wordIndex_eq m Region I Hwf Hv) as [-> Hi].
  destruct (bitOffset_eq m I Hwf (proj1 (proj2 Hv))) as (-> & Ho1 & Ho2).
  pose proof (bits_range m Hwf) as Hb.
  rewrite CounterMask_bits by assumption.
  rewrite (wrap_small (Z.shiftl _ _)).
  2:{ rewrite Z.shiftl_mul_pow2 by lia.
      set (o := I mod 2 ^ PackingRatioLog m * bits m) in *.
      pose proof (pow2_pos o Ho1). pose proof (pow2_pos (bits m)).
      assert (2 ^ bits m * 2 ^ o <= uptr_modulus).
      { rewrite <- Z.pow_add_r by lia. apply pow2_le.
        unfold SCUDO_WORDSIZE; lia. }
      nia. }
  rewrite get_store; try assumption.
  - case_decide; [|reflexivity]. apply field_lor_same; lia.
  - intros o' Ho' Hsmall Hd. apply field_lor_other; lia.
Qed.

Lemma sameGeometry_incN m Region I N : sameGeometry m (incN m Region I N).
Proof. apply sameGeometry_store. Qed.

Lemma sameGeometry_inc m Region I : sameGeometry m (inc m Region I).
Proof. apply sameGeometry_store. Qed.

Lemma sameGeometry_setAsAllCounted m Region I :
  sameGeometry m (setAsAllCounted m Region I).
Proof. apply sameGeometry_store. Qed.
End PageMapFacts.

(** ** What [reset] establishes *)

Section ResetFacts.
Import RegionPageMap RegionPageMapSpec.

Lemma log2_word x : 0 < x < uptr_modulus -> 0 <= Z.log2 x < 64.
Proof.
  intros Hx. split; [apply Z.log2_nonneg|].
  apply Z.log2_lt_pow2; [lia|]. exact (proj2 Hx).
Qed.

(** The counter width chosen by [reset] is one of 1, 2, 4, ..., 64 bits. *)
Lemma counterSizeBits_cases MaxValue :
  0 < MaxValue < uptr_modulus ->
  let CounterSizeBits :=
    roundUpPowerOfTwo (wrap (getMostSignificantSetBitIndex MaxValue + 1)) in
  exists c, 0 <= c <= 6 /\ CounterSizeBits = 2 ^ c /\
    getLog2 (2 ^ c) = c /\
    Z.shiftr uptr_max (wrap (sizeof_uptr * 8 - 2 ^ c)) = 2 ^ (2 ^ c) - 1 /\
    getLog2 (Z.shiftr (sizeof_uptr * 8) c) = 6 - c /\
    wrap (Z.shiftr (sizeof_uptr * 8) c - 1) = 2 ^ (6 - c) - 1 /\
    wrap (Z.shiftl 1 (6 - c)) = 2 ^ (6 - c) /\
    Z.log2 MaxValue + 1 <= 2 ^ c.
Proof.
  intros Hx. unfold getMostSignificantSetBitIndex.
  pose proof (log2_word MaxValue Hx) as Hl.
  set (l := Z.log2 MaxValue) in *. cbv zeta. clearbody l.
  assert (Hcase : l = 0 \/ l = 1 \/ 2 <= l < 4 \/ 4 <= l < 8 \/ 8 <= l < 16
                  \/ 16 <= l < 32 \/ 32 <= l < 64) by lia.
  assert (Hall : forall c, 0 <= c <= 6 -> 2 ^ c < 2 * (l + 1) <= 2 * 2 ^ c ->
            roundUpPowerOfTwo (wrap (l + 1)) = 2 ^ c).
  { intros c Hc Hlc. rewrite wrap_small by (rewrite uptr_modulus_eq; lia).
    unfold roundUpPowerOfTwo, isPowerOfTwo, getMostSignificantSetBitIndex.
    assert (Hc' : c = 0 \/ c = 1 \/ c = 2 \/ c = 3 \/ c = 4 \/ c = 5 \/ c = 6) by lia.
    destruct (Z.eq_dec (l + 1) (2 ^ c)) as [He|Hne].
    - rewrite He. rewrite Z.log2_pow2 by lia.
      rewrite Z.eqb_refl. pose proof (pow2_pos c). 
      destruct (Z.ltb_spec 0 (2 ^ c)); [reflexivity|lia].
    - assert (Hlog : Z.log2 (l + 1) = c - 1).
      { apply Z.log2_unique; [|].
        - destruct Hc' as [->|[->|[->|[->|[->|[->| ->]]]]]];
            pow_norm; lia.
        - replace (Z.succ (c - 1)) with c by lia.
          split; [|lia].
          destruct Hc' as [->|[->|[->|[->|[->|[->| ->]]]]]];
            pow_norm; lia. }
      rewrite Hlog.
      replace (2 ^ (c - 1) =? l + 1) with false.
      2:{ symmetry. apply Z.eqb_neq.
          destruct Hc' as [->|[->|[->|[->|[->|[->| ->]]]]]]; pow_norm; lia. }
      rewrite andb_false_r. replace (c - 1 + 1) with c by lia.
      rewrite Z.shiftl_mul_pow2 by lia. rewrite Z.mul_1_l.
      apply wrap_small. split; [pose proof (pow2_pos c); lia|].
      apply Z.pow_lt_mono_r; unfold SCUDO_WORDSIZE; lia. }
  assert (Hc : exists c, 0 <= c <= 6 /\ 2 ^ c < 2 * (l + 1) <= 2 * 2 ^ c).
  { destruct Hcase as [->|[->|[H|[H|[H|[H|H]]]]]].
    - exists 0; simpl; lia.
    - exists 1; simpl; lia.
    - exists 2; simpl; lia.
    - exists 3; simpl; lia.
    - exists 4; simpl; lia.
    - exists 5; simpl; lia.
    - exists 6; simpl; lia. }
  destruct Hc as (c & Hc & Hlc). exists c.
  rewrite (Hall c Hc Hlc).
  assert (Hc' : c = 0 \/ c = 1 \/ c = 2 \/ c = 3 \/ c = 4 \/ c = 5 \/ c = 6) by lia.
  split; [exact Hc|]. split; [reflexivity|].
  split; [unfold getLog2; apply Z.log2_pow2; lia|].
  destruct Hc' as [->|[->|[->|[->|[->|[->| ->]]]]]];
    (repeat split; [vm_compute; reflexivity ..| lia]).
Qed.

Lemma roundUp_eq X Boundary :
  0 <= X -> 0 < Boundary -> X + Boundary <= uptr_modulus ->
  roundUp X Boundary = (X + Boundary - 1) / Boundary * Boundary /\
  X <= roundUp X Boundary < X + Boundary.
Proof.
  intros HX HB Hfit. unfold roundUp.
  rewrite (wrap_small (X + Boundary - 1)) by lia.
  pose proof (Z.div_mod (X + Boundary - 1) Boundary ltac:(lia)) as Hdm.
  pose proof (Z.mod_pos_bound (X + Boundary - 1) Boundary HB) as Hm.
  rewrite wrap_small by nia. split; [reflexivity|nia].
Qed.

(** A map that [reset] could allocate is well formed, can count up to
    [MaxValue], and has all its counters at zero. *)
Lemma reset_wf Pf NumberOfRegion CountersPerRegion MaxValue m Pf' :
  0 < NumberOfRegion -> 0 < CountersPerRegion ->
  0 < MaxValue < uptr_modulus ->
  0 < PageSizeCached Pf ->
  CountersPerRegion * 8 * NumberOfRegion + PageSizeCached Pf + 64 <= uptr_modulus ->
  reset Pf NumberOfRegion CountersPerRegion MaxValue = (m, Pf') ->
  isAllocated m = true ->
  wf m /\ Regions m = NumberOfRegion /\ NumCounters m = CountersPerRegion /\
  MaxValue <= CounterMask m /\
  (forall i, 0 <= i < Regions m * SizePerRegion m -> load m i = 0).
Proof.
  intros HR HC HM HP Hfit Hreset Halloc.
  destruct (counterSizeBits_cases MaxValue HM)
    as (c & Hc & Hbits & Hlog & Hmask & Hratio & Hoff & Hone & Hmax).
  cbv zeta in Hbits.
  unfold reset in Hreset. cbv zeta in Hreset.
  rewrite !Hbits, !Hlog, !Hmask, !Hratio, !Hoff, !Hone in Hreset.
  assert (Hpos : 0 < 2 ^ (6 - c)) by (apply pow2_pos; lia).
  assert (Hle : 2 ^ (6 - c) <= 64) by (change 64 with (2 ^ 6); apply pow2_le; lia).
  assert (HCfit : CountersPerRegion + 2 ^ (6 - c) <= uptr_modulus) by nia.
  destruct (roundUp_eq CountersPerRegion (2 ^ (6 - c)) ltac:(lia) Hpos HCfit)
    as [Hru Hrub].
  set (RU := roundUp CountersPerRegion (2 ^ (6 - c))) in *.
  rewrite Z.shiftr_div_pow2 in Hreset by lia.
  assert (HRUdiv : RU = RU / 2 ^ (6 - c) * 2 ^ (6 - c)).
  { rewrite Hru at 2. rewrite Z.div_mul by lia. exact Hru. }
  set (SPR := RU / 2 ^ (6 - c)) in *.
  assert (HSPR : 0 <= SPR <= CountersPerRegion) by nia.
  rewrite (wrap_small (SPR * sizeof_uptr)) in Hreset
    by (unfold sizeof_uptr; nia).
  rewrite (wrap_small (SPR * sizeof_uptr * NumberOfRegion)) in Hreset
    by (unfold sizeof_uptr; nia).
  assert (Hdiv8 : SPR * sizeof_uptr * NumberOfRegion / sizeof_uptr
                  = NumberOfRegion * SPR).
  { replace (SPR * sizeof_uptr * NumberOfRegion)
      with (NumberOfRegion * SPR * sizeof_uptr) by ring.
    apply Z.div_mul. unfold sizeof_uptr; lia. }
  assert (Hgeom : forall b w,
    NumberOfRegion * SPR <= Z.of_nat (length w) ->
    wf {| Regions := NumberOfRegion; NumCounters := CountersPerRegion;
          CounterSizeBitsLog := c; CounterMask := 2 ^ 2 ^ c - 1;
          PackingRatioLog := 6 - c; BitOffsetMask := 2 ^ (6 - c) - 1;
          SizePerRegion := SPR;
          BufferSize := SPR * sizeof_uptr * NumberOfRegion;
          Buffer := b; Words := w |}).
  { intros b w Hw. constructor; simpl; try lia; try reflexivity. nia. }
  assert (Hcm : MaxValue <= 2 ^ 2 ^ c - 1).
  { pose proof (Z.log2_spec MaxValue ltac:(lia)) as [_ Hlt].
    rewrite <- Z.add_1_r in Hlt.
    assert (2 ^ (Z.log2 MaxValue + 1) <= 2 ^ 2 ^ c).
    { apply pow2_le. pose proof (Z.log2_nonneg MaxValue). lia. }
    lia. }
  destruct (_ && _) in Hreset.
  - inversion Hreset; subst m Pf'; clear Hreset.
    rewrite Hdiv8.
    split; [apply Hgeom|split; [reflexivity|split; [reflexivity|split; [exact Hcm|]]]].
    + rewrite length_app, length_replicate. lia.
    + simpl. intros i Hi. unfold load; simpl.
      rewrite lookup_app_l by (rewrite length_replicate; lia).
      rewrite lookup_replicate_2 by lia. reflexivity.
  - set (Size := roundUp (SPR * sizeof_uptr * NumberOfRegion) (getPageSizeCached Pf)) in *.
    destruct (roundUp_eq (SPR * sizeof_uptr * NumberOfRegion) (getPageSizeCached Pf))
      as [_ HSize]; [unfold sizeof_uptr; nia|exact HP|
                     unfold getPageSizeCached, sizeof_uptr; nia|].
    fold Size in HSize.
    destruct (MapSucceeds Pf Size).
    + inversion Hreset; subst m Pf'; clear Hreset.
      assert (NumberOfRegion * SPR <= Size / sizeof_uptr).
      { apply Z.div_le_lower_bound; unfold sizeof_uptr in *; lia. }
      split; [apply Hgeom|split; [reflexivity|split; [reflexivity|split; [exact Hcm|]]]].
      * rewrite length_replicate. lia.
      * simpl. intros i Hi. unfold load; simpl.
        rewrite lookup_replicate_2 by lia. reflexivity.
    + inversion Hreset; subst m. discriminate Halloc.
Qed.
End ResetFacts.

(** ** Ranges of counters *)

Section RangeFacts.
Import RegionPageMap RegionPageMapSpec.

Lemma sameGeometry_incRange m Region From To :
  sameGeometry m (incRange m Region From To).
Proof.
  unfold incRange. apply (for_range_preserves (sameGeometry m)).
  - apply sameGeometry_refl.
  - intros I acc _ Hg. eapply sameGeometry_trans; [exact Hg|].
    apply sameGeometry_inc.
Qed.

Lemma sameGeometry_setAsAllCountedRange m Region From To :
  sameGeometry m (setAsAllCountedRange m Region From To).
Proof.
  unfold setAsAllCountedRange. apply (for_range_preserves (sameGeometry m)).
  - apply sameGeometry_refl.
  - intros I acc _ Hg. eapply sameGeometry_trans; [exact Hg|].
    apply sameGeometry_setAsAllCounted.
Qed.

Lemma get_incRange m Region From To Region' I' :
  wf m -> 0 <= Region < Regions m -> 0 <= From ->
  (forall I, From <= I < Min (wrap (To + 1)) (NumCounters m) ->
             get m Region I < CounterMask m) ->
  valid m Region' I' ->
  sameGeometry m (incRange m Region From To) /\
  get (incRange m Region From To) Region' I' =
    if decide (Region' = Region /\ From <= I' < Min (wrap (To + 1)) (NumCounters m))
    then get m Region' I' + 1 else get m Region' I'.
Proof.
  intros Hwf HR HF Hroom Hv'. unfold incRange.
  set (Top := Min (wrap (To + 1)) (NumCounters m)) in *.
  assert (HTop : Top <= NumCounters m) by (unfold Top; rewrite Min_spec; lia).
  destruct (Z_lt_le_dec Top From) as [Hlt|Hle].
  { rewrite for_range_nil by lia. split; [apply sameGeometry_refl|].
    case_decide; [lia|reflexivity]. }
  pose (Inv := fun (I : Z) (acc : t) =>
    sameGeometry m acc /\
    forall R' J, valid m R' J ->
      get acc R' J = if decide (R' = Region /\ From <= J < I)
                     then get m R' J + 1 else get m R' J).
  assert (HInv : Inv Top (for_range From Top (fun I acc => inc acc Region I) m)).
  { apply for_range_inv; [exact Hle| |].
    - split; [apply sameGeometry_refl|]. intros R' J _.
      case_decide; [lia|reflexivity].
    - intros I acc HI [Hg Hget].
      assert (Hwfa : wf acc) by (eapply sameGeometry_wf; eassumption).
      assert (HvI : valid m Region I) by (unfold valid; lia).
      split; [eapply sameGeometry_trans; [exact Hg|apply sameGeometry_inc]|].
      intros R' J HvJ.
      rewrite get_inc; try (eapply sameGeometry_valid; eassumption); try assumption.
      + rewrite !Hget by assumption.
        destruct Hg as (_ & _ & _ & Hm & _).
        repeat case_decide; try reflexivity; try lia;
          try (match goal with H : (_, _) = (_, _) |- _ => inversion H; subst end; lia).
        * exfalso. match goal with H : (_, _) <> (_, _) |- _ => apply H end.
          f_equal; lia.
      + rewrite Hget by assumption. destruct Hg as (_ & _ & _ & -> & _).
        case_decide; [lia|]. apply Hroom. lia. }
  destruct HInv as [Hg Hget]. split; [exact Hg|]. apply Hget. exact Hv'.
Qed.

Lemma get_setAsAllCountedRange m Region From To Region' I' :
  wf m -> 0 <= Region < Regions m -> 0 <= From ->
  valid m Region' I' ->
  sameGeometry m (setAsAllCountedRange m Region From To) /\
  get (setAsAllCountedRange m Region From To) Region' I' =
    if decide (Region' = Region /\ From <= I' < Min (wrap (To + 1)) (NumCounters m))
    then CounterMask m else get m Region' I'.
Proof.
  intros Hwf HR HF Hv'. unfold setAsAllCountedRange.
  set (Top := Min (wrap (To + 1)) (NumCounters m)) in *.
  assert (HTop : Top <= NumCounters m) by (unfold Top; rewrite Min_spec; lia).
  destruct (Z_lt_le_dec Top From) as [Hlt|Hle].
  { rewrite for_range_nil by lia. split; [apply sameGeometry_refl|].
    case_decide; [lia|reflexivity]. }
  pose (Inv := fun (I : Z) (acc : t) =>
    sameGeometry m acc /\
    forall R' J, valid m R' J ->
      get acc R' J = if decide (R' = Region /\ From <= J < I)
                     then CounterMask m else get m R' J).
  assert (HInv : Inv Top (for_range From Top
                            (fun I acc => setAsAllCounted acc Region I) m)).
  { apply for_range_inv; [exact Hle| |].
    - split; [apply sameGeometry_refl|]. intros R' J _.
      case_decide; [lia|reflexivity].
    - intros I acc HI [Hg Hget].
      assert (Hwfa : wf acc) by (eapply sameGeometry_wf; eassumption).
      assert (HvI : valid m Region I) by (unfold valid; lia).
      split; [eapply sameGeometry_trans;
              [exact Hg|apply sameGeometry_setAsAllCounted]|].
      intros R' J HvJ.
      rewrite get_setAsAllCounted;
        try (eapply sameGeometry_valid; eassumption); try assumption.
      rewrite !Hget by assumption.
      destruct Hg as (_ & _ & _ & -> & _).
      repeat case_decide; try reflexivity; try lia;
        try (match goal with H : (_, _) = (_, _) |- _ => inversion H; subst end; lia).
      exfalso. match goal with H : (_, _) <> (_, _) |- _ => apply H end.
      f_equal; lia. }
  destruct HInv as [Hg Hget]. split; [exact Hg|]. apply Hget. exact Hv'.
Qed.
End RangeFacts.

(** ** The accessors of the page map *)

Section AccessorTheorems.
Import RegionPageMap RegionPageMapSpec.

(** C5.  For a valid [(Region, I)] and [0 <= MaxCount <= CounterMask],
    [updateAsAllCountedIf] returns true and changes nothing when the
    counter already is [CounterMask]; otherwise, when the counter equals
    [MaxCount], it returns true, sets that counter to [CounterMask] and
    leaves every other counter alone; otherwise it returns false and
    changes nothing.  In all cases the result is true exactly when the
    counter is all-counted afterwards: reaching the maximum and being set
    to the sentinel are one and the same. *)
Theorem updateAsAllCountedIf_spec m Region I MaxCount :
  wf m -> valid m Region I -> 0 <= MaxCount <= CounterMask m ->
  let '(b, m') := updateAsAllCountedIf m Region I MaxCount in
  (get m Region I = CounterMask m -> b = true /\ m' = m) /\
  (get m Region I <> CounterMask m -> get m Region I = MaxCount ->
     b = true /\ get m' Region I = CounterMask m /\ sameGeometry m m' /\
     forall Region' I', valid m Region' I' -> (Region', I') <> (Region, I) ->
       get m' Region' I' = get m Region' I') /\
  (get m Region I <> CounterMask m -> get m Region I <> MaxCount ->
     b = false /\ m' = m) /\
  b = isAllCounted m' Region I.
Proof.
  intros Hwf Hv HM. unfold updateAsAllCountedIf.
  destruct (Z.eqb_spec (get m Region I) (CounterMask m)) as [He|Hne].
  - repeat split; try congruence.
    unfold isAllCounted. symmetry. apply Z.eqb_eq. exact He.
  - destruct (Z.eqb_spec (get m Region I) MaxCount) as [He'|Hne'].
    + assert (Hset : get (setAsAllCounted m Region I) Region I = CounterMask m).
      { rewrite get_setAsAllCounted by assumption. case_decide; congruence. }
      repeat split; try congruence.
      * apply sameGeometry_setAsAllCounted.
      * intros Region' I' Hv' Hneq.
        rewrite get_setAsAllCounted by assumption.
        case_decide; [congruence|reflexivity].
      * unfold isAllCounted. symmetry. apply Z.eqb_eq. exact Hset.
    + repeat split; try congruence.
      unfold isAllCounted. symmetry. apply Z.eqb_neq. exact Hne.
Qed.

(** C6.  For a valid [Region] and words [0 <= From <= To], let [Top] be
    the bound the code computes, [Min(To + 1, NumCounters)] with [To + 1]
    taken in word arithmetic: it is [min (To + 1) NumCounters] whenever
    [To + 1] is a word, so that the range includes [To] and is clamped to
    the counters of a region, and it is no index at all for
    [To = 2 ^ 64 - 1], where [To + 1] wraps to zero.  [setAsAllCountedRange]
    sets exactly the counters of [Region] with index in [From, Top) to
    [CounterMask] and leaves all the others as they were, whatever the
    counters hold.  When the counters [incRange] visits have room for one
    more (the check of [inc]), [incRange] adds one to exactly the same
    counters and leaves all the others as they were. *)
Theorem incRange_setAsAllCountedRange_spec m Region From To :
  wf m -> 0 <= Region < Regions m -> 0 <= From <= To -> To < uptr_modulus ->
  let Top := Z.min (wrap (To + 1)) (NumCounters m) in
  (To + 1 < uptr_modulus -> Top = Z.min (To + 1) (NumCounters m)) /\
  (To + 1 = uptr_modulus -> Top <= 0) /\
  forall Region' I', valid m Region' I' ->
    get (setAsAllCountedRange m Region From To) Region' I' =
      (if decide (Region' = Region /\ From <= I' < Top)
       then CounterMask m else get m Region' I') /\
    ((forall I, From <= I < Top -> get m Region I < CounterMask m) ->
     get (incRange m Region From To) Region' I' =
       (if decide (Region' = Region /\ From <= I' < Top)
        then get m Region' I' + 1 else get m Region' I')).
Proof.
  intros Hwf HR HF HTo Top.
  assert (HTop : Min (wrap (To + 1)) (NumCounters m) = Top)
    by (unfold Top; apply Min_spec).
  split; [|split].
  - intros Hno. unfold Top. rewrite wrap_small by lia. reflexivity.
  - intros Hwrap. unfold Top. rewrite Hwrap. unfold wrap.
    rewrite Z.mod_same by (rewrite uptr_modulus_eq; lia). lia.
  - intros Region' I' Hv'. split.
    + destruct (get_setAsAllCountedRange m Region From To Region' I') as [_ ->];
        try assumption; try lia.
      rewrite HTop. reflexivity.
    + intros Hroom.
      destruct (get_incRange m Region From To Region' I') as [_ ->];
        try assumption; try lia.
      * rewrite HTop. exact Hroom.
      * rewrite HTop. reflexivity.
Qed.
End AccessorTheorems.

(** ** Sequences of calls on a page map *)

Section OpsFacts.
Import RegionPageMap RegionPageMapSpec PageMapOps.

Lemma validIndex_valid m Region I :
  validIndex m Region I = true <-> valid m Region I.
Proof.
  unfold validIndex, valid. rewrite !andb_true_iff.
  rewrite !Z.leb_le, !Z.ltb_lt. tauto.
Qed.

Lemma validRegion_spec m Region :
  validRegion m Region = true <-> 0 <= Region < Regions m.
Proof.
  unfold validRegion. rewrite andb_true_iff, Z.leb_le, Z.ltb_lt. tauto.
Qed.

Lemma same_counter_bool (r i Region J : Z) :
  (if decide ((Region, J) = (r, i)) then true else false)
  = (r =? Region) && (i =? J).
Proof.
  case_decide as H.
  - inversion H; subst. rewrite !Z.eqb_refl. reflexivity.
  - destruct (Z.eqb_spec r Region), (Z.eqb_spec i J); try reflexivity.
    subst. contradiction.
Qed.

Lemma in_range_bool (NumCounters' From To r i Region : Z) :
  (if decide (r = Region /\ From <= i < Min (wrap (To + 1)) NumCounters')
   then true else false)
  = (r =? Region) && inRange NumCounters' From To i.
Proof.
  unfold inRange.
  destruct (Z.eqb_spec r Region), (Z.leb_spec From i),
    (Z.ltb_spec i (Min (wrap (To + 1)) NumCounters'));
    case_decide; simpl; try reflexivity; lia.
Qed.

(** One legal call acts on the counters as it does on the reference. *)
Lemma apply_sound m o :
  wf m -> pre m o = true ->
  sameGeometry m (apply m o) /\
  forall r i, valid m r i ->
    get (apply m o) r i
    = refApply (NumCounters m) (CounterMask m) (get m) o r i.
Proof.
  intros Hwf Hpre. destruct o as [Region J|Region J N|Region From To|Region J|Region From To];
    simpl in *.
  - unfold inc_pre in Hpre. rewrite !andb_true_iff in Hpre.
    destruct Hpre as [[Hv Hlt] _]. apply validIndex_valid in Hv.
    apply Z.ltb_lt in Hlt.
    split; [apply sameGeometry_inc|]. intros r i Hri.
    rewrite get_inc by assumption. rewrite <- same_counter_bool.
    case_decide as He; [inversion He; subst|]; reflexivity.
  - unfold incN_pre in Hpre. rewrite !andb_true_iff in Hpre.
    destruct Hpre as [[[[Hv HN] _] Hle] _]. apply validIndex_valid in Hv.
    apply Z.ltb_lt in HN. apply Z.leb_le in Hle.
    split; [apply sameGeometry_incN|]. intros r i Hri.
    rewrite get_incN by (try assumption; lia). rewrite <- same_counter_bool.
    case_decide as He; [inversion He; subst|]; reflexivity.
  - rewrite !andb_true_iff in Hpre. destruct Hpre as [[[HR HF] _] Hall].
    apply validRegion_spec in HR. apply Z.leb_le in HF.
    rewrite forallb_forall in Hall.
    assert (Hroom : forall I, From <= I < Min (wrap (To + 1)) (NumCounters m) ->
                              get m Region I < CounterMask m).
    { intros I HI. apply Z.ltb_lt, Hall. apply list_elem_of_In, elem_of_seqZ. lia. }
    split; [apply sameGeometry_incRange|].
    intros r i Hri.
    destruct (get_incRange m Region From To r i) as [_ ->]; try assumption.
    rewrite <- in_range_bool. case_decide; reflexivity.
  - rewrite !andb_true_iff in Hpre. destruct Hpre as [Hv _].
    apply validIndex_valid in Hv.
    split; [apply sameGeometry_setAsAllCounted|]. intros r i Hri.
    rewrite get_setAsAllCounted by assumption. rewrite <- same_counter_bool.
    case_decide as He; reflexivity.
  - rewrite !andb_true_iff in Hpre. destruct Hpre as [[HR HF] _].
    apply validRegion_spec in HR. apply Z.leb_le in HF.
    split; [apply sameGeometry_setAsAllCountedRange|].
    intros r i Hri.
    destruct (get_setAsAllCountedRange m Region From To r i) as [_ ->];
      try assumption.
    rewrite <- in_range_bool. case_decide; reflexivity.
Qed.

Lemma refApply_ext NumCounters' Mask (f g : counters) o r i :
  f r i = g r i ->
  refApply NumCounters' Mask f o r i = refApply NumCounters' Mask g o r i.
Proof. intros He. destruct o; simpl; rewrite He; reflexivity. Qed.

Lemma refRun_snoc NumCounters' Mask f ops o :
  refRun NumCounters' Mask f (ops ++ [o])
  = refApply NumCounters' Mask (refRun NumCounters' Mask f ops) o.
Proof. unfold refRun. rewrite fold_left_app. reflexivity. Qed.

Lemma refRun_ext NumCounters' Mask ops : forall (f g : counters) r i,
  f r i = g r i ->
  refRun NumCounters' Mask f ops r i = refRun NumCounters' Mask g ops r i.
Proof.
  induction ops as [|o ops IH]; intros f g r i He; simpl; [exact He|].
  apply IH. apply refApply_ext. exact He.
Qed.

(** A legal sequence of calls acts on the counters as it does on the
    reference, and keeps the geometry. *)
Lemma run_sound ops : forall m,
  wf m -> legal m ops = true ->
  sameGeometry m (run m ops) /\
  forall r i, valid m r i ->
    get (run m ops) r i
    = refRun (NumCounters m) (CounterMask m) (get m) ops r i.
Proof.
  induction ops as [|o ops IH]; intros m Hwf Hlegal; simpl in *.
  - split; [apply sameGeometry_refl|reflexivity].
  - apply andb_true_iff in Hlegal. destruct Hlegal as [Hpre Hlegal].
    destruct (apply_sound m o Hwf Hpre) as [Hg Hget].
    assert (Hwf' : wf (apply m o)) by (eapply sameGeometry_wf; eassumption).
    destruct (IH (apply m o) Hwf' Hlegal) as [Hg' Hget'].
    split; [eapply sameGeometry_trans; eassumption|].
    intros r i Hri. unfold run in *. simpl.
    rewrite Hget' by (eapply sameGeometry_valid; eassumption).
    destruct Hg as (_ & -> & _ & -> & _).
    apply refRun_ext. apply Hget. exact Hri.
Qed.

Lemma legal_take ops : forall m k,
  legal m ops = true -> legal m (take k ops) = true.
Proof.
  induction ops as [|o ops IH]; intros m [|k] Hl; simpl in *; try reflexivity.
  apply andb_true_iff in Hl. destruct Hl as [-> Hl]. simpl. apply IH, Hl.
Qed.

(** C9.  Take a page map that [reset] built, with its buffer allocated,
    for [NumberOfRegion > 0], [CountersPerRegion > 0] and [MaxValue > 0],
    and any sequence of [inc], [incN], [incRange], [setAsAllCounted] and
    [setAsAllCountedRange] calls each of which meets its debug-checked
    precondition.  After every prefix of the sequence each counter lies in
    [0, CounterMask] and holds exactly the value of an unpacked reference
    counter that received the same calls: no update spills into a
    neighbouring packed counter. *)
Theorem counters_stay_bounded Pf NumberOfRegion CountersPerRegion MaxValue
    m0 Pf' ops k Region I :
  0 < NumberOfRegion -> 0 < CountersPerRegion ->
  0 < MaxValue < uptr_modulus ->
  0 < PageSizeCached Pf ->
  CountersPerRegion * 8 * NumberOfRegion + PageSizeCached Pf + 64 <= uptr_modulus ->
  reset Pf NumberOfRegion CountersPerRegion MaxValue = (m0, Pf') ->
  isAllocated m0 = true ->
  legal m0 ops = true ->
  valid m0 Region I ->
  let m := run m0 (take k ops) in
  0 <= get m Region I <= CounterMask m0 /\
  get m Region I
  = refRun CountersPerRegion (CounterMask m0) (fun _ _ => 0) (take k ops) Region I.
Proof.
  intros HR HC HM HP Hfit Hreset Halloc Hlegal Hv m.
  destruct (reset_wf _ _ _ _ _ _ HR HC HM HP Hfit Hreset Halloc)
    as (Hwf & HRe & HNc & Hmax & Hzero).
  destruct (run_sound (take k ops) m0 Hwf (legal_take ops m0 k Hlegal))
    as [Hg Hget].
  fold m in Hg, Hget.
  assert (Hwf' : wf m) by (eapply sameGeometry_wf; eassumption).
  split.
  - pose proof (get_range m Region I Hwf'
                  (sameGeometry_valid _ _ _ _ Hg Hv)) as Hr.
    destruct Hg as (_ & _ & _ & Hm & _). rewrite Hm in Hr. exact Hr.
  - rewrite Hget by assumption. rewrite HNc.
    apply refRun_ext.
    rewrite get_field by assumption.
    destruct (wordIndex_eq m0 Region I Hwf Hv) as [_ Hi].
    rewrite Hzero by lia. unfold field.
    rewrite Z.div_0_l, Z.mod_0_l; try reflexivity.
    + pose proof (pow2_pos (bits m0)). pose proof (bits_range m0 Hwf). lia.
    + destruct (bitOffset_eq m0 I Hwf (proj1 (proj2 Hv))) as (_ & Ho & _).
      pose proof (pow2_pos _ Ho). lia.
Qed.
End OpsFacts.

(** ** ReleaseRecorder *)

Section RecorderFacts.
Import ReleaseRecorder.

Lemma sumSizes_nonneg calls :
  Forall (fun c => 0 <= fst c <= snd c /\ snd c < uptr_modulus) calls ->
  0 <= sumSizes calls.
Proof. induction 1; simpl; lia. Qed.

Lemma sumSizes_app xs ys : sumSizes (xs ++ ys) = sumSizes xs + sumSizes ys.
Proof. induction xs; simpl; lia. Qed.

Lemma releaseAll_counters calls : forall r,
  Forall (fun c => 0 <= fst c <= snd c /\ snd c < uptr_modulus) calls ->
  0 <= ReleasedBytes r -> 0 <= ReleasedRangesCount r ->
  ReleasedBytes r + sumSizes calls < uptr_modulus ->
  ReleasedRangesCount r + Z.of_nat (length calls) < uptr_modulus ->
  ReleasedBytes (releaseAll r calls) = ReleasedBytes r + sumSizes calls /\
  ReleasedRangesCount (releaseAll r calls)
    = ReleasedRangesCount r + Z.of_nat (length calls).
Proof.
  induction calls as [|[From To] calls IH]; intros r Hall Hb Hc Hbs Hcs.
  - simpl. lia.
  - inversion Hall as [|? ? [Hft HTo] Hall']; subst. simpl in Hft, HTo.
    pose proof (sumSizes_nonneg calls Hall') as Hs.
    cbn [releaseAll fold_left fst snd sumSizes fold_right length] in *.
    fold (releaseAll (releasePageRangeToOS r From To) calls).
    fold (sumSizes calls) in *.
    destruct (IH (releasePageRangeToOS r From To) Hall') as [Eb Ec];
      cbn [releasePageRangeToOS ReleasedBytes ReleasedRangesCount];
      rewrite ?(wrap_small (To - From)) by lia;
      rewrite ?(wrap_small (ReleasedBytes r + (To - From))) by lia;
      rewrite ?(wrap_small (ReleasedRangesCount r + 1)) by lia; try lia.
    rewrite Eb, Ec.
    cbn [releasePageRangeToOS ReleasedBytes ReleasedRangesCount].
    rewrite (wrap_small (To - From)) by lia.
    rewrite (wrap_small (ReleasedBytes r + (To - From))) by lia.
    rewrite (wrap_small (ReleasedRangesCount r + 1)) by lia. lia.
Qed.

(** C8.  Start from a fresh recorder and make any finite sequence of
    calls [releasePageRangeToOS(From, To)] with [From <= To], the total
    size and the number of calls being words.  After every prefix of the
    sequence [getReleasedBytes] is the sum of the [To - From] of the calls
    made and [getReleasedRangesCount] is their number; neither counter
    decreases from one call to the next. *)
Theorem recorder_accounting B calls k :
  Forall (fun c => 0 <= fst c <= snd c /\ snd c < uptr_modulus) calls ->
  sumSizes calls < uptr_modulus ->
  Z.of_nat (length calls) < uptr_modulus ->
  let r n := releaseAll (init B) (take n calls) in
  getReleasedBytes (r k) = sumSizes (take k calls) /\
  getReleasedRangesCount (r k) = Z.of_nat (length (take k calls)) /\
  getReleasedBytes (r k) <= getReleasedBytes (r (S k)) /\
  getReleasedRangesCount (r k) <= getReleasedRangesCount (r (S k)).
Proof.
  intros Hall Hsum Hlen r.
  assert (Hpre : forall n,
    Forall (fun c => 0 <= fst c <= snd c /\ snd c < uptr_modulus) (take n calls) /\
    0 <= sumSizes (take n calls) <= sumSizes calls /\
    (length (take n calls) <= length calls)%nat).
  { intros n. assert (Ht : Forall (fun c => 0 <= fst c <= snd c /\ snd c < uptr_modulus)
                                    (take n calls)) by (apply Forall_take; exact Hall).
    assert (Hd : Forall (fun c => 0 <= fst c <= snd c /\ snd c < uptr_modulus)
                        (drop n calls)) by (apply Forall_drop; exact Hall).
    split; [exact Ht|]. split.
    - pose proof (sumSizes_nonneg _ Ht). pose proof (sumSizes_nonneg _ Hd).
      rewrite <- (take_drop n calls) at 3. rewrite sumSizes_app. lia.
    - rewrite length_take. lia. }
  assert (Heq : forall n,
    getReleasedBytes (r n) = sumSizes (take n calls) /\
    getReleasedRangesCount (r n) = Z.of_nat (length (take n calls))).
  { intros n. destruct (Hpre n) as (Ht & Hs & Hl).
    destruct (releaseAll_counters (take n calls) (init B) Ht) as [Eb Ec];
      simpl; try lia.
    unfold r, getReleasedBytes, getReleasedRangesCount.
    rewrite Eb, Ec. simpl. lia. }
  destruct (Heq k) as [Eb Ec]. destruct (Heq (S k)) as [Eb' Ec'].
  rewrite Eb, Ec, Eb', Ec'. repeat split; try reflexivity.
  - destruct (Hpre (S k)) as (Ht & _ & _).
    destruct (decide (k < length calls)%nat) as [Hk|Hk].
    + destruct (lookup_lt_is_Some_2 calls k Hk) as [c Hc].
      rewrite (take_S_r calls k c Hc), sumSizes_app.
      rewrite (take_S_r calls k c Hc) in Ht.
      apply Forall_app in Ht. destruct Ht as [_ Hc'].
      pose proof (sumSizes_nonneg _ Hc'). lia.
    + rewrite !take_ge by lia. lia.
  - rewrite !length_take. lia.
Qed.
End RecorderFacts.

(** ** The geometry classification *)

Section ContextFacts.
Import PageReleaseContext.

(** C2.  For [BlockSize >= 1] and a power-of-two page size the constructor
    sets [(FullPagesBlockCountMax, SameBlockCountPerPage)] by the table:
    row A when [BlockSize <= PageSize] divides the page size, row B when
    [BlockSize <= PageSize] and [PageSize mod BlockSize] divides the block
    size (a remainder of zero divides nothing: [x mod 0 = x]), row C for
    the other [BlockSize <= PageSize], row D when [BlockSize > PageSize]
    is a multiple of the page size and row E otherwise. *)
Theorem classification_table Pf BlockSize' RegionSize' NumberOfRegions'
    ReleaseSize ReleaseOffset lg :
  1 <= BlockSize' -> 0 <= lg < SCUDO_WORDSIZE -> PageSizeCached Pf = 2 ^ lg ->
  let C := create Pf BlockSize' RegionSize' NumberOfRegions' ReleaseSize
             ReleaseOffset in
  let PageSize' := PageSizeCached Pf in
  let result := (FullPagesBlockCountMax C, SameBlockCountPerPage C) in
  (BlockSize' <= PageSize' /\ PageSize' mod BlockSize' = 0 ->
     result = (PageSize' / BlockSize', true)) /\
  (BlockSize' <= PageSize' /\ BlockSize' mod (PageSize' mod BlockSize') = 0 ->
     result = (PageSize' / BlockSize' + 1, true)) /\
  (BlockSize' <= PageSize' /\ PageSize' mod BlockSize' <> 0 /\
   BlockSize' mod (PageSize' mod BlockSize') <> 0 ->
     result = (PageSize' / BlockSize' + 2, false)) /\
  (BlockSize' > PageSize' /\ BlockSize' mod PageSize' = 0 ->
     result = (1, true)) /\
  (BlockSize' > PageSize' /\ BlockSize' mod PageSize' <> 0 ->
     result = (2, false)).
Proof.
  intros HB Hlg HP C PageSize' result.
  assert (HPpos : 0 < PageSize') by (unfold PageSize'; rewrite HP; apply pow2_pos; lia).
  assert (HPlt : PageSize' < uptr_modulus).
  { unfold PageSize'. rewrite HP. apply Z.pow_lt_mono_r; lia. }
  assert (Hq : 0 <= PageSize' / BlockSize' <= PageSize').
  { split; [apply Z.div_pos; lia|]. apply Z.div_le_upper_bound; nia. }
  assert (HPbound : PageSize' + 2 < uptr_modulus).
  { unfold PageSize' in *. rewrite HP in *. rewrite uptr_modulus_eq.
    assert (2 ^ lg <= 2 ^ 63) by (apply pow2_le; unfold SCUDO_WORDSIZE in *; lia).
    change (2 ^ 63) with 9223372036854775808 in *. lia. }
  assert (Hres : result = classify BlockSize' PageSize').
  { unfold result, C, create, getPageSizeCached. fold PageSize'.
    destruct (classify BlockSize' PageSize'); reflexivity. }
  rewrite Hres. unfold classify.
  repeat split; intros Hcase.
  - destruct Hcase as [Hle Hm].
    destruct (Z.leb_spec BlockSize' PageSize'); [|lia].
    rewrite Hm. reflexivity.
  - destruct Hcase as [Hle Hm].
    destruct (Z.leb_spec BlockSize' PageSize'); [|lia].
    destruct (Z.eqb_spec (PageSize' mod BlockSize') 0) as [He|Hne].
    + rewrite He in Hm. rewrite Z.mod_0_r in Hm. lia.
    + rewrite Hm. simpl. rewrite wrap_small by lia. reflexivity.
  - destruct Hcase as (Hle & Hm & Hm').
    destruct (Z.leb_spec BlockSize' PageSize'); [|lia].
    destruct (Z.eqb_spec (PageSize' mod BlockSize') 0); [lia|].
    destruct (Z.eqb_spec (BlockSize' mod (PageSize' mod BlockSize')) 0); [lia|].
    rewrite wrap_small by lia. reflexivity.
  - destruct Hcase as [Hgt Hm].
    destruct (Z.leb_spec BlockSize' PageSize'); [lia|].
    rewrite Hm. reflexivity.
  - destruct Hcase as [Hgt Hm].
    destruct (Z.leb_spec BlockSize' PageSize'); [lia|].
    destruct (Z.eqb_spec (BlockSize' mod PageSize') 0); [lia|]. reflexivity.
Qed.
End ContextFacts.

(** ** Allocation of the buffer *)

Section AllocationTheorems.
Import RegionPageMap.

(** C10, as the code has it.  Whenever [reset] takes the mapped-buffer
    path ([BufferSize] exceeds the capacity of the static buffer, or the
    mutex of the static buffer is taken), it asks [map] for
    [roundUp(BufferSize, PageSize)] bytes, that is for
    [ceilDiv BufferSize PageSize] whole pages counted in bytes; and when
    that request fails the buffer is null and [isAllocated] is false. *)
Theorem reset_mapped_request Pf NumberOfRegion CountersPerRegion MaxValue m Pf' :
  reset Pf NumberOfRegion CountersPerRegion MaxValue = (m, Pf') ->
  StaticBufferCount * sizeof_uptr < BufferSize m \/ MutexLocked Pf = true ->
  let Size := roundUp (BufferSize m) (getPageSizeCached Pf) in
  MapRequests Pf' = MapRequests Pf ++ [Size] /\
  (0 < PageSizeCached Pf -> BufferSize m + PageSizeCached Pf <= uptr_modulus ->
     Size = ceilDiv (BufferSize m) (PageSizeCached Pf) * PageSizeCached Pf) /\
  (MapSucceeds Pf Size = false -> Buffer m = NullBuffer /\ isAllocated m = false).
Proof.
  intros Hreset Hpath. unfold reset in Hreset. cbv zeta in Hreset.
  match type of Hreset with
  | (if (?B <=? _) && _ then _ else _) = _ => set (BS := B) in *
  end.
  assert (Hbs : 0 <= BS) by (unfold BS; apply wrap_range).
  destruct ((BS <=? StaticBufferCount * sizeof_uptr) && negb (MutexLocked Pf))
    eqn:Hstatic.
  - exfalso. pose proof (f_equal fst Hreset) as Hm. cbn [fst] in Hm.
    rewrite <- Hm in Hpath.
    cbn [BufferSize] in Hpath.
    apply andb_true_iff in Hstatic. destruct Hstatic as [Hle Hlock].
    apply Z.leb_le in Hle. apply negb_true_iff in Hlock.
    destruct Hpath; [lia|congruence].
  - set (Size := roundUp BS (getPageSizeCached Pf)) in *.
    assert (HB : BufferSize m = BS /\ MapRequests Pf' = MapRequests Pf ++ [Size] /\
                 (MapSucceeds Pf Size = false ->
                  Buffer m = NullBuffer /\ isAllocated m = false)).
    { destruct (MapSucceeds Pf Size);
        pose proof (f_equal fst Hreset) as Hm; pose proof (f_equal snd Hreset) as HPf;
        cbn [fst snd] in Hm, HPf;
        rewrite <- Hm, <- HPf; cbn [BufferSize MapRequests Buffer isAllocated];
        repeat split; try reflexivity; discriminate. }
    destruct HB as (HB & Hreq & Hnull).
    rewrite HB. cbv zeta. fold Size. split; [exact Hreq|split; [|exact Hnull]].
    intros HP Hfit. unfold ceilDiv, Size, getPageSizeCached.
    apply roundUp_eq; lia.
Qed.

(** C10, as stated, fails: with the mutex taken, a map of one region, one
    counter and [MaxValue = 1] on 4096-byte pages has [BufferSize = 8] and
    asks [map] for 4096 bytes, not for [ceilDiv 8 4096 = 1]. *)
Lemma reset_map_request_is_not_page_count :
  ~ (forall Pf NumberOfRegion CountersPerRegion MaxValue m Pf',
       reset Pf NumberOfRegion CountersPerRegion MaxValue = (m, Pf') ->
       StaticBufferCount * sizeof_uptr < BufferSize m \/ MutexLocked Pf = true ->
       MapRequests Pf'
       = MapRequests Pf ++ [ceilDiv (BufferSize m) (getPageSizeCached Pf)]).
Proof.
  intros H.
  specialize (H (mkPlatform 4096 true [] (fun _ => true) []) 1 1 1 _ _
                eq_refl (or_intror eq_refl)).
  vm_compute in H. discriminate H.
Qed.
End AllocationTheorems.

(** ** The range tracker *)

Section TrackerFacts.
Import FreePagesRangeTracker TrackerSpec.

Lemma shift_page x lg :
  0 <= lg -> 0 <= x -> x * 2 ^ lg < uptr_modulus ->
  wrap (Z.shiftl x lg) = x * 2 ^ lg.
Proof.
  intros Hlg Hx Hfit. rewrite Z.shiftl_mul_pow2 by lia.
  apply wrap_small. pose proof (pow2_pos lg Hlg). nia.
Qed.

Lemma pagesAdvanced_nonneg cs :
  Forall (fun c => 0 <= pages c) cs -> 0 <= pagesAdvanced cs.
Proof. induction 1; simpl; lia. Qed.

Lemma pagesAdvanced_app xs ys :
  pagesAdvanced (xs ++ ys) = pagesAdvanced xs + pagesAdvanced ys.
Proof. induction xs; simpl; lia. Qed.

(** What one call does to a tracker whose page cursor does not wrap. *)
Lemma step_emission lg (T : t RangeLog) c :
  wf lg T -> 0 <= pages c ->
  (CurrentPage T + pages c) * 2 ^ lg < uptr_modulus ->
  let T' := step T c in
  wf lg T' /\ CurrentPage T' = CurrentPage T + pages c /\
  lower T <= lower T' /\
  (drop (length (Recorder T)) (Recorder T') = [] \/
   (InRange T = true /\ InRange T' = false /\
    drop (length (Recorder T)) (Recorder T')
    = [(CurrentRangeStatePage T * 2 ^ lg, CurrentPage T * 2 ^ lg)])).
Proof.
  intros (Hlog & Hlg & Hcur & Hin) Hp Hfit.
  pose proof (pow2_pos lg Hlg) as Hpow.
  assert (Hcurfit : CurrentPage T * 2 ^ lg < uptr_modulus) by nia.
  assert (Hw : wrap (CurrentPage T + pages c) = CurrentPage T + pages c)
    by (apply wrap_small; nia).
  unfold wf, lower.
  destruct c as [[|]|N|]; cbn [pages] in *;
    unfold step, processNextPage, skipPages, finish, closeOpenedRange, advance;
    destruct (InRange T) eqn:HIn;
    cbn [negb InRange CurrentPage CurrentRangeStatePage PageSizeLog Recorder
         releasePageRangeToOS RangeLog_recorder];
    rewrite ?HIn, ?Hw, ?Hlog, ?drop_all, ?drop_app_length;
    rewrite ?(shift_page (CurrentPage T) lg) by lia;
    rewrite ?(shift_page (CurrentRangeStatePage T) lg) by (try lia; nia);
    rewrite ?Z.add_0_r;
    (split; [split; [reflexivity|split; [assumption|split; [try lia|]]]
            |split; [try lia|split; [try lia|]]]).
  all: try (intros _; lia).
  all: try (intros HH; discriminate HH).
  all: try (left; reflexivity).
  all: try (right; repeat split; reflexivity).
  all: try (specialize (Hin eq_refl); lia).
  all: try (rewrite wrap_small by nia; try lia).
  all: try assumption.
Qed.
Lemma run_app {R} `{ReleaseRecorderT R} (T : t R) xs ys :
  run T (xs ++ ys) = run (run T xs) ys.
Proof. unfold run. apply fold_left_app. Qed.

Lemma emissions_app xs : forall (T : t RangeLog) ys,
  emissions T (xs ++ ys) = emissions T xs ++ emissions (run T xs) ys.
Proof.
  induction xs as [|c xs IH]; intros T ys; [reflexivity|].
  simpl. rewrite IH. reflexivity.
Qed.

Lemma emissions_length cs : forall T : t RangeLog,
  length (emissions T cs) = length cs.
Proof. induction cs as [|c cs IH]; intros T; simpl; [|rewrite IH]; reflexivity. Qed.

(** The states a run goes through stay well formed, and the cursor is the
    sum of the pages of the calls made. *)
Lemma run_wf lg cs : forall T : t RangeLog,
  wf lg T -> Forall (fun c => 0 <= pages c) cs ->
  (CurrentPage T + pagesAdvanced cs) * 2 ^ lg < uptr_modulus ->
  wf lg (run T cs) /\
  CurrentPage (run T cs) = CurrentPage T + pagesAdvanced cs /\
  lower T <= lower (run T cs).
Proof.
  induction cs as [|c cs IH]; intros T Hwf Hall Hfit; simpl in *.
  - rewrite Z.add_0_r. unfold run; simpl. split; [exact Hwf|split; lia].
  - inversion Hall as [|? ? Hc Hcs]; subst.
    pose proof (pagesAdvanced_nonneg cs Hcs) as Hn.
    pose proof Hwf as (Hlog & Hlg & Hcur & Hin).
    pose proof (pow2_pos lg Hlg) as Hpow.
    destruct (step_emission lg T c) as (Hwf' & Hcur' & Hlow & _);
      [exact Hwf|exact Hc|nia|].
    destruct (IH (step T c) Hwf' Hcs) as (Hwf'' & Hcur'' & Hlow'').
    { rewrite Hcur'. replace (CurrentPage T + pages c + pagesAdvanced cs)
        with (CurrentPage T + (pages c + pagesAdvanced cs)) by lia. exact Hfit. }
    unfold run in *. simpl. split; [exact Hwf''|split; lia].
Qed.

(** Every range a run emits is non-empty and starts no earlier than the
    first page still open at the start of the run. *)
Lemma emissions_lower lg cs : forall (T : t RangeLog) j e f t',
  wf lg T -> Forall (fun c => 0 <= pages c) cs ->
  (CurrentPage T + pagesAdvanced cs) * 2 ^ lg < uptr_modulus ->
  emissions T cs !! j = Some e -> (f, t') ∈ e ->
  lower T * 2 ^ lg <= f /\ f < t' /\
  t' <= (CurrentPage T + pagesAdvanced cs) * 2 ^ lg.
Proof.
  induction cs as [|c cs IH]; intros T j e f t' Hwf Hall Hfit Hj Hin;
    [destruct j; discriminate Hj|].
  inversion Hall as [|? ? Hc Hcs]; subst.
  pose proof (pagesAdvanced_nonneg cs Hcs) as Hn.
  pose proof Hwf as (Hlog & Hlg & Hcur & HinR).
  pose proof (pow2_pos lg Hlg) as Hpow.
  cbn [pagesAdvanced fold_right] in Hfit. fold (pagesAdvanced cs) in Hfit.
  destruct (step_emission lg T c Hwf Hc) as (Hwf' & Hcur' & Hlow & Hem); [nia|].
  destruct j as [|j]; simpl in Hj.
  - inversion Hj; subst e; clear Hj.
    destruct Hem as [Hem|(HIn & _ & Hem)]; rewrite Hem in Hin.
    + inversion Hin.
    + apply list_elem_of_singleton in Hin. inversion Hin; subst f t'.
      unfold lower. rewrite HIn. specialize (HinR HIn).
      cbn [pagesAdvanced fold_right]. fold (pagesAdvanced cs). nia.
  - destruct (IH (step T c) j e f t' Hwf' Hcs) as (H1 & H2 & H3);
      try assumption.
    { rewrite Hcur'. replace (CurrentPage T + pages c + pagesAdvanced cs)
        with (CurrentPage T + (pages c + pagesAdvanced cs)) by lia. exact Hfit. }
    cbn [pagesAdvanced fold_right]. fold (pagesAdvanced cs).
    rewrite Hcur' in H3. split; [nia|]. split; [exact H2|]. nia.
Qed.

(** C7, as the code has it.  Run any sequence of [processNextPage],
    [skipPages] and [finish] calls on a fresh tracker, the page cursor
    staying within a word.  Every call emits at most one range.  Of two
    emitted ranges the later one starts at or after the end of the
    earlier one, both are non-empty, hence the ranges are strictly
    increasing in [From] and never overlap; and when every call from the
    one that emitted the earlier range up to the one that emitted the
    later range is a [processNextPage] (no [skipPages] and no [finish] in
    between) the two ranges are not adjacent. *)
Theorem tracker_ranges_ordered Pf lg cs i j e1 e2 f1 t1 f2 t2 :
  PageSizeCached Pf = 2 ^ lg -> 0 <= lg ->
  Forall (fun c => 0 <= pages c) cs ->
  pagesAdvanced cs * 2 ^ lg < uptr_modulus ->
  let es := emissions (init Pf ([] : RangeLog)) cs in
  (i < j)%nat ->
  es !! i = Some e1 -> (f1, t1) ∈ e1 ->
  es !! j = Some e2 -> (f2, t2) ∈ e2 ->
  e1 = [(f1, t1)] /\ e2 = [(f2, t2)] /\
  f1 < t1 /\ t1 <= f2 /\ f2 < t2 /\ f1 < f2 /\
  ((forall k c, (i <= k < j)%nat -> cs !! k = Some c ->
      isProcessNextPage c = true) -> t1 < f2).
Proof.
  intros HP Hlg Hall Hfit es Hij Hi Hin1 Hj Hin2.
  pose proof (pow2_pos lg Hlg) as Hpow.
  set (T0 := init Pf ([] : RangeLog)) in *.
  assert (Hwf0 : wf lg T0).
  { unfold wf, T0, init; simpl. unfold getLog2, getPageSizeCached.
    rewrite HP, Z.log2_pow2 by lia. repeat split; try lia; discriminate. }
  assert (Hcur0 : CurrentPage T0 = 0) by reflexivity.
  (* split the run at call [i] *)
  assert (Hlen : (j < length cs)%nat).
  { apply lookup_lt_Some in Hj. unfold es in Hj.
    rewrite emissions_length in Hj. exact Hj. }
  destruct (lookup_lt_is_Some_2 cs i ltac:(lia)) as [ci Hci].
  pose proof (take_drop_middle cs i ci Hci) as Hsplit.
  set (pre := take i cs) in *. set (post := drop (S i) cs) in *.
  assert (Hlpre : length pre = i) by (unfold pre; rewrite length_take; lia).
  rewrite <- Hsplit in Hall, Hfit.
  apply Forall_app in Hall. destruct Hall as [Hpre Hrest].
  apply Forall_cons in Hrest. destruct Hrest as [Hc Hpost].
  rewrite pagesAdvanced_app in Hfit.
  cbn [pagesAdvanced fold_right] in Hfit. fold (pagesAdvanced post) in Hfit.
  pose proof (pagesAdvanced_nonneg pre Hpre) as Hnpre.
  pose proof (pagesAdvanced_nonneg post Hpost) as Hnpost.
  destruct (run_wf lg pre T0 Hwf0 Hpre) as (Hwfi & Hcuri & _);
    [rewrite Hcur0; nia|].
  set (Ti := run T0 pre) in *. rewrite Hcur0, Z.add_0_l in Hcuri.
  assert (Hes : es = emissions T0 pre
                     ++ drop (length (Recorder Ti)) (Recorder (step Ti ci))
                     :: emissions (step Ti ci) post).
  { unfold es. rewrite <- Hsplit at 1. rewrite emissions_app. reflexivity. }
  destruct (step_emission lg Ti ci Hwfi Hc) as (Hwf' & Hcur' & Hlow & Hem);
    [rewrite Hcuri; nia|].
  (* the emission of call [i] *)
  rewrite Hes in Hi, Hj.
  rewrite lookup_app_r in Hi by (rewrite emissions_length; lia).
  rewrite emissions_length, Hlpre, Nat.sub_diag in Hi. simpl in Hi.
  inversion Hi; subst e1; clear Hi.
  destruct Hem as [Hem|(HIn & HIn' & Hem)]; rewrite Hem in Hin1;
    [inversion Hin1|].
  apply list_elem_of_singleton in Hin1. inversion Hin1; subst f1 t1.
  destruct Hwfi as (_ & _ & Hcurnn & HinR). specialize (HinR HIn).
  (* the emission of call [j] *)
  rewrite lookup_app_r in Hj by (rewrite emissions_length; lia).
  rewrite emissions_length, Hlpre in Hj.
  destruct (j - i)%nat as [|d] eqn:Hd; [lia|]. simpl in Hj.
  destruct (emissions_lower lg post (step Ti ci) d e2 f2 t2 Hwf' Hpost)
    as (Hlo & Hne & _); try assumption.
  { rewrite Hcur', Hcuri. nia. }
  assert (Hlower' : lower (step Ti ci) = CurrentPage Ti + pages ci).
  { unfold lower. rewrite HIn'. exact Hcur'. }
  rewrite Hlower' in Hlo.
  assert (He2 : e2 = [(f2, t2)]).
  { clear - Hj Hin2 Hwf' Hpost Hfit Hcur' Hcuri Hnpre Hnpost Hc Hpow.
    destruct (lookup_lt_is_Some_2 post d) as [cj Hcj].
    { apply lookup_lt_Some in Hj. rewrite emissions_length in Hj. exact Hj. }
    pose proof (take_drop_middle post d cj Hcj) as Hsp.
    rewrite <- Hsp in Hj at 1. rewrite emissions_app in Hj.
    rewrite lookup_app_r in Hj by (rewrite emissions_length, length_take;
      apply lookup_lt_Some in Hcj; lia).
    rewrite emissions_length, length_take in Hj.
    replace (d - d `min` length post)%nat with 0%nat in Hj
      by (apply lookup_lt_Some in Hcj; lia).
    simpl in Hj. inversion Hj as [He]; clear Hj. subst e2.
    rewrite <- Hsp in Hpost, Hfit.
    apply Forall_app in Hpost. destruct Hpost as [Hp1 Hp2].
    apply Forall_cons in Hp2. destruct Hp2 as [Hcjp Hp3].
    rewrite pagesAdvanced_app in Hfit. cbn [pagesAdvanced fold_right] in Hfit.
    pose proof (pagesAdvanced_nonneg _ Hp1). pose proof (pagesAdvanced_nonneg _ Hp3).
    fold (pagesAdvanced (drop (S d) post)) in Hfit.
    destruct (run_wf lg (take d post) (step Ti ci) Hwf' Hp1) as (Hw & Hcu & _);
      [rewrite Hcur', Hcuri; nia|].
    destruct (step_emission lg (run (step Ti ci) (take d post)) cj Hw Hcjp)
      as (_ & _ & _ & Hem); [rewrite Hcu, Hcur', Hcuri; nia|].
    destruct Hem as [Hem|(_ & _ & Hem)]; rewrite Hem in Hin2 |- *.
    - inversion Hin2.
    - apply list_elem_of_singleton in Hin2. rewrite Hin2. reflexivity. }
  split; [exact Hem|]. split; [exact He2|].
  assert (Hpc : 0 <= pages ci) by exact Hc.
  split; [nia|]. split; [nia|]. split; [exact Hne|]. split; [nia|].
  intros Hproc.
  assert (Hci' : isProcessNextPage ci = true) by (apply (Hproc i); [lia|exact Hci]).
  destruct ci; try discriminate Hci'. cbn [pages] in *. nia.
Qed.

(** C7, as stated, fails: [finish] closes the open range without moving
    the cursor, so the next range starts where the last one ended although
    no [skipPages] separates the two. *)
Lemma finish_then_adjacent_range :
  ~ (forall Pf cs i j f1 t1 f2 t2,
       let es := emissions (init Pf ([] : RangeLog)) cs in
       (i < j)%nat ->
       es !! i = Some [(f1, t1)] -> es !! j = Some [(f2, t2)] ->
       (forall k N, (i <= k < j)%nat -> cs !! k <> Some (SkipPages N)) ->
       t1 < f2).
Proof.
  intros H.
  specialize (H (mkPlatform 4096 false [] (fun _ => true) [])
                [ProcessNextPage true; Finish; ProcessNextPage true; Finish]
                1%nat 3%nat 0 4096 4096 8192 ltac:(lia) eq_refl eq_refl).
  assert (Hno : forall k N, (1 <= k < 3)%nat ->
            [ProcessNextPage true; Finish; ProcessNextPage true; Finish] !! k
            <> Some (SkipPages N)).
  { intros k N Hk. destruct k as [|[|[|k]]]; try lia; simpl; discriminate. }
  specialize (H Hno). lia.
Qed.
End TrackerFacts.

(** ** The release scan *)

Section ScanFacts.
Import RegionPageMap RegionPageMapSpec ScanSpec.
Context {R : Type} `{ReleaseRecorderT R}.

Lemma seqZ_snoc n : 0 <= n -> seqZ 0 (n + 1) = seqZ 0 n ++ [n].
Proof.
  intros Hn. rewrite seqZ_app by lia.
  rewrite (seqZ_cons _ 1) by lia. rewrite (seqZ_nil _ (Z.pred 1)) by lia.
  reflexivity.
Qed.

(** The verdict of the scan on one page and what it does to the map. *)
Lemma page_step M Region J e :
  wf M -> valid M Region J ->
  let '(b, M') := updateAsAllCountedIf M Region J e in
  b = (get M Region J =? CounterMask M) || (get M Region J =? e) /\
  sameGeometry M M' /\
  (forall R' J', valid M R' J' ->
     get M' R' J' = if decide ((Region, J) = (R', J')) then
                      (if b then CounterMask M else get M R' J')
                    else get M R' J') /\
  ((b = true -> get M Region J = CounterMask M) -> M' = M).
Proof.
  intros Hwf Hv. unfold updateAsAllCountedIf.
  destruct (Z.eqb_spec (get M Region J) (CounterMask M)) as [He|Hne].
  - split; [reflexivity|]. split; [apply sameGeometry_refl|]. split; [|reflexivity].
    intros R' J' Hv'. case_decide as Heq; [|reflexivity].
    inversion Heq; subst. exact He.
  - destruct (Z.eqb_spec (get M Region J) e) as [He'|Hne'].
    + split; [reflexivity|]. split; [apply sameGeometry_setAsAllCounted|].
      split; [|intros Hs; specialize (Hs eq_refl); contradiction].
      intros R' J' Hv'. rewrite get_setAsAllCounted by assumption. reflexivity.
    + split; [reflexivity|]. split; [apply sameGeometry_refl|].
      split; [|reflexivity].
      intros R' J' Hv'. case_decide; reflexivity.
Qed.

Lemma pageCalls_snoc C M Region n :
  0 <= n ->
  pageCalls C M Region (n + 1)
  = pageCalls C M Region n
    ++ [FreePagesRangeTracker.ProcessNextPage (canRelease C M Region n)].
Proof.
  intros Hn. unfold pageCalls. rewrite seqZ_snoc by lia.
  rewrite map_app. reflexivity.
Qed.

(** One more page, whatever the path: the scan asks
    [updateAsAllCountedIf] with the expected count of the page. *)
Lemma pagesDone_step C Skip M0 M T Region n s :
  wf M0 -> 0 <= Region < Regions M0 -> 0 <= n < NumCounters M0 ->
  Skip Region = false ->
  (forall J', 0 <= J' < NumCounters M0 -> get M Region J' = get M0 Region J') ->
  pagesDone C Skip M0 M T Region n s ->
  let '(b, M') := updateAsAllCountedIf (fst s) Region n (expectedBlocks C n) in
  pagesDone C Skip M0 M T Region (n + 1)
    (M', FreePagesRangeTracker.processNextPage (snd s) b).
Proof.
  intros Hwf HR Hn Hskip Hfresh (Hg & HT & Hget & Hset).
  assert (Hwfs : wf (fst s)) by (eapply sameGeometry_wf; eassumption).
  assert (Hv : valid M0 Region n) by (unfold valid; lia).
  assert (Hvs : valid (fst s) Region n) by (eapply sameGeometry_valid; eassumption).
  pose proof (page_step (fst s) Region n (expectedBlocks C n) Hwfs Hvs) as Hstep.
  destruct (updateAsAllCountedIf (fst s) Region n (expectedBlocks C n)) as [b M'].
  destruct Hstep as (Hb & Hg' & Hget' & Hsame).
  assert (Hmask : CounterMask (fst s) = CounterMask M0)
    by (destruct Hg as (_ & _ & _ & -> & _); reflexivity).
  assert (Hcur : get (fst s) Region n = get M0 Region n).
  { rewrite Hget by assumption. case_decide; [lia|]. apply Hfresh. lia. }
  assert (Hbc : b = canRelease C M0 Region n).
  { rewrite Hb, Hcur, Hmask. reflexivity. }
  unfold pagesDone; cbn [fst snd]. split; [|split; [|split]].
  - eapply sameGeometry_trans; eassumption.
  - rewrite pageCalls_snoc by lia. rewrite run_app, <- HT, Hbc. reflexivity.
  - intros R' J' Hv'.
    rewrite Hget' by (eapply sameGeometry_valid; eassumption).
    rewrite Hget by assumption. rewrite Hmask, Hbc.
    repeat case_decide; try reflexivity; try lia;
      try (match goal with Heq : (_, _) = (_, _) |- _ => inversion Heq; subst end);
      try lia; try reflexivity.
    + destruct (canRelease C M0 R' J'); [reflexivity|]. apply Hfresh. lia.
    + exfalso. match goal with Hne : (_, _) <> (_, _) |- _ => apply Hne end.
      f_equal; lia.
  - intros Hsettled HM. specialize (Hset Hsettled HM).
    rewrite <- Hset. apply Hsame. intros Hbt.
    rewrite Hset. rewrite Hset in Hmask.
    apply Hsettled; [exact Hv|exact Hskip|]. rewrite <- Hbc. exact Hbt.
Qed.

Lemma pagesDone_start C Skip M0 M T Region :
  sameGeometry M0 M -> pagesDone C Skip M0 M T Region 0 (M, T).
Proof.
  intros Hg. unfold pagesDone; cbn [fst snd]. split; [exact Hg|].
  split; [reflexivity|]. split; [|intros _ HM; exact HM].
  intros R' J' Hv. case_decide; [|reflexivity].
  destruct Hv as [_ Hv]. lia.
Qed.

(** The page loop of the fast path. *)
Lemma fast_region C Skip M0 M T Region :
  wf M0 -> sameGeometry M0 M -> 0 <= Region < Regions M0 ->
  Skip Region = false ->
  PageReleaseContext.SameBlockCountPerPage C = true ->
  (forall J', 0 <= J' < NumCounters M0 -> get M Region J' = get M0 Region J') ->
  0 <= NumCounters M0 ->
  pagesDone C Skip M0 M T Region (NumCounters M0)
    (for_range 0 (NumCounters M0)
       (fastPage Region (PageReleaseContext.FullPagesBlockCountMax C)) (M, T)).
Proof.
  intros Hwf Hg HR Hskip Hsame Hfresh Hpos.
  apply (for_range_inv (pagesDone C Skip M0 M T Region)); [exact Hpos| |].
  - apply pagesDone_start; exact Hg.
  - intros n [M' T'] Hn Hinv.
    pose proof (pagesDone_step C Skip M0 M T Region n (M', T') Hwf HR
                  ltac:(lia) Hskip Hfresh Hinv) as Hstep.
    unfold expectedBlocks in Hstep. rewrite Hsame in Hstep.
    unfold fastPage. cbn [fst snd] in Hstep.
    destruct (updateAsAllCountedIf M' Region n _). exact Hstep.
Qed.

Lemma slowStateAt_succ C n :
  0 <= n ->
  slowStateAt C (n + 1)
  = snd (slowBlocks (PageReleaseContext.PageSize C) (PageReleaseContext.BlockSize C)
           (slowPn C) (slowPnc C) (slowStateAt C n)).
Proof. intros Hn. unfold slowStateAt. rewrite for_range_last by lia. reflexivity. Qed.

(** The page loop of the slow path. *)
Lemma slow_region C Skip M0 M T Region :
  wf M0 -> sameGeometry M0 M -> 0 <= Region < Regions M0 ->
  Skip Region = false ->
  PageReleaseContext.SameBlockCountPerPage C = false ->
  (forall J', 0 <= J' < NumCounters M0 -> get M Region J' = get M0 Region J') ->
  0 <= NumCounters M0 ->
  pagesDone C Skip M0 M T Region (NumCounters M0)
    (snd (for_range 0 (NumCounters M0) (slowPage C Region) (slowInit C, (M, T)))).
Proof.
  intros Hwf Hg HR Hskip Hsame Hfresh Hpos.
  apply (for_range_inv
           (fun n (st : (Z * Z) * ScanState) =>
              fst st = slowStateAt C n /\
              pagesDone C Skip M0 M T Region n (snd st))); [exact Hpos| |].
  - split; [reflexivity|]. apply pagesDone_start; exact Hg.
  - intros n [b [M' T']] Hn [Hb Hinv]. cbn [fst snd] in *. subst b.
    pose proof (pagesDone_step C Skip M0 M T Region n (M', T') Hwf HR
                  ltac:(lia) Hskip Hfresh Hinv) as Hstep.
    unfold expectedBlocks in Hstep. rewrite Hsame in Hstep.
    unfold slowPage. rewrite slowStateAt_succ by lia.
    destruct (slowBlocks _ _ _ _ (slowStateAt C n)) as [bpp b'].
    cbn [fst snd] in *.
    destruct (updateAsAllCountedIf M' Region n bpp).
    cbn [fst snd]. split; [reflexivity|exact Hstep].
Qed.

Lemma scanCalls_snoc C M Skip n :
  0 <= n ->
  scanCalls C M Skip (n + 1) = scanCalls C M Skip n ++ regionCalls C M Skip n.
Proof.
  intros Hn. unfold scanCalls. rewrite seqZ_snoc by lia.
  rewrite map_app, concat_app. simpl. rewrite app_nil_r. reflexivity.
Qed.

(** The scan is the run of the tracker over the verdicts of the pages, and
    it saturates exactly the counters of the pages it releases. *)
Lemma scanRegions_spec C Skip M0 T0 :
  wf M0 -> Regions M0 = PageReleaseContext.NumberOfRegions C ->
  NumCounters M0 = PageReleaseContext.PagesCount C ->
  0 <= PageReleaseContext.PagesCount C ->
  regionsDone C Skip M0 T0 (Z.max 0 (Regions M0)) (scanRegions C Skip (M0, T0)).
Proof.
  intros Hwf HRe HNc HPC.
  assert (Hstart : regionsDone C Skip M0 T0 0 (M0, T0)).
  { unfold regionsDone; cbn [fst snd]. split; [apply sameGeometry_refl|].
    split; [reflexivity|]. split; [|reflexivity].
    intros R' J' [Hv _]. case_decide; [lia|reflexivity]. }
  assert (Hbody : forall body,
    (forall I M T, 0 <= I < Regions M0 -> Skip I = false ->
       sameGeometry M0 M ->
       (forall J', 0 <= J' < NumCounters M0 -> get M I J' = get M0 I J') ->
       pagesDone C Skip M0 M T I (NumCounters M0) (body I M T)) ->
    regionsDone C Skip M0 T0 (Z.max 0 (Regions M0))
      (for_range 0 (PageReleaseContext.NumberOfRegions C)
         (fun I '(M, T) =>
            if Skip I
            then (M, FreePagesRangeTracker.skipPages T (PageReleaseContext.PagesCount C))
            else body I M T) (M0, T0))).
  { intros body Hb. rewrite <- HRe.
    destruct (Z_lt_le_dec (Regions M0) 0) as [Hneg|Hpos].
    { rewrite for_range_nil by lia. rewrite Z.max_l by lia. exact Hstart. }
    rewrite Z.max_r by lia.
    apply (for_range_inv (regionsDone C Skip M0 T0)); [exact Hpos|exact Hstart|].
    intros I [M T] HI (Hg & HT & Hget & Hset). cbn [fst snd] in *.
    destruct (Skip I) eqn:HsI.
    - unfold regionsDone; cbn [fst snd]. split; [exact Hg|]. split; [|split].
      + rewrite scanCalls_snoc by lia. rewrite run_app, <- HT.
        unfold regionCalls. rewrite HsI. reflexivity.
      + intros R' J' Hv. rewrite Hget by assumption.
        repeat case_decide; try reflexivity; try lia.
        assert (R' = I) by lia. subst R'. rewrite HsI. reflexivity.
      + exact Hset.
    - assert (Hfresh : forall J', 0 <= J' < NumCounters M0 ->
                         get M I J' = get M0 I J').
      { intros J' HJ'. rewrite Hget by (unfold valid; lia).
        case_decide; [lia|reflexivity]. }
      destruct (Hb I M T HI HsI Hg Hfresh) as (Hg' & HT' & Hget' & Hset').
      unfold regionsDone. split; [exact Hg'|]. split; [|split].
      + rewrite scanCalls_snoc by lia. rewrite run_app, <- HT.
        unfold regionCalls. rewrite HsI, <- HNc. exact HT'.
      + intros R' J' Hv. rewrite Hget' by assumption.
        repeat case_decide; try lia.
        * match goal with Hd : _ = I /\ _ |- _ => destruct Hd as [-> _] end.
          rewrite HsI. reflexivity.
        * rewrite Hget by assumption.
          case_decide; [reflexivity|destruct Hv as [_ Hv]; lia].
        * rewrite Hget by assumption. case_decide; [lia|reflexivity].
      + intros Hs. apply Hset'; [exact Hs|]. apply Hset. exact Hs. }
  unfold scanRegions.
  destruct (PageReleaseContext.SameBlockCountPerPage C) eqn:Hsame.
  - apply (Hbody (fun I M T =>
      for_range 0 (PageReleaseContext.PagesCount C)
        (fastPage I (PageReleaseContext.FullPagesBlockCountMax C)) (M, T))).
    intros I M T HI HsI Hg Hfresh. rewrite <- HNc.
    apply fast_region; try assumption. lia.
  - apply (Hbody (fun I M T =>
      snd (for_range 0 (PageReleaseContext.PagesCount C) (slowPage C I)
             (slowInit C, (M, T))))).
    intros I M T HI HsI Hg Hfresh. rewrite <- HNc.
    apply slow_region; try assumption. lia.
Qed.
End ScanFacts.

(** ** Scanning twice *)

Section Idempotence.
Import RegionPageMap RegionPageMapSpec ScanSpec.

Lemma scanCalls_ext C M M' Skip n :
  (forall Region J, 0 <= Region < n -> Skip Region = false ->
     0 <= J < PageReleaseContext.PagesCount C ->
     canRelease C M Region J = canRelease C M' Region J) ->
  scanCalls C M Skip n = scanCalls C M' Skip n.
Proof.
  intros Hext. unfold scanCalls. f_equal. apply map_ext_in.
  intros Region HR. apply list_elem_of_In, elem_of_seqZ in HR.
  unfold regionCalls. destruct (Skip Region) eqn:Hs; [reflexivity|].
  unfold pageCalls. apply map_ext_in. intros J HJ.
  apply list_elem_of_In, elem_of_seqZ in HJ. f_equal.
  apply Hext; [lia|exact Hs|lia].
Qed.

(** What one scan of a populated context does, for a [RangeLog]
    recorder. *)
Lemma release_spec Pf C Skip :
  populated C -> 0 <= PageReleaseContext.PagesCount C ->
  let M0 := PageReleaseContext.PageMap C in
  let '(C1, log) := releaseFreeMemoryToOS Pf C ([] : RangeLog) Skip in
  C1 = PageReleaseContext.withPageMap C (PageReleaseContext.PageMap C1) /\
  sameGeometry M0 (PageReleaseContext.PageMap C1) /\
  log = FreePagesRangeTracker.Recorder
          (FreePagesRangeTracker.run (FreePagesRangeTracker.init Pf ([] : RangeLog))
             (scanCalls C M0 Skip (PageReleaseContext.NumberOfRegions C)
              ++ [FreePagesRangeTracker.Finish])) /\
  (forall Region J, valid M0 Region J ->
     get (PageReleaseContext.PageMap C1) Region J =
       if negb (Skip Region) && canRelease C M0 Region J
       then CounterMask M0 else get M0 Region J) /\
  (settled C M0 Skip -> C1 = C).
Proof.
  intros (Hwf & HRe & HNc) HPC M0. unfold releaseFreeMemoryToOS.
  pose proof (scanRegions_spec C Skip M0
                (FreePagesRangeTracker.init Pf ([] : RangeLog)) Hwf HRe HNc HPC)
    as Hscan.
  fold M0.
  destruct (scanRegions C Skip (M0, _)) as [M1 T1].
  destruct Hscan as (Hg & HT & Hget & Hset). cbn [fst snd] in *.
  assert (HRnn : 0 <= Regions M0) by (destruct Hwf; assumption).
  assert (Hmax : Z.max 0 (Regions M0) = PageReleaseContext.NumberOfRegions C)
    by (unfold M0 in *; lia).
  rewrite Hmax in HT, Hget.
  split; [reflexivity|]. split; [exact Hg|]. split; [|split].
  - rewrite run_app, <- HT. reflexivity.
  - intros Region J Hv. cbn [PageReleaseContext.PageMap PageReleaseContext.withPageMap].
    rewrite Hget by assumption.
    case_decide as Hd; [reflexivity|]. destruct Hv as [Hv _]. lia.
  - intros Hs. rewrite (Hset Hs). unfold M0. destruct C; reflexivity.
Qed.

(** C4.  Scan a populated context twice with the same skip predicate and
    nothing in between, each time with an empty log.  The second scan
    emits exactly the ranges of the first, so none of its ranges is new,
    and it leaves the context as the first scan left it.  It observes the
    same releasable pages as the first scan: on every page of an
    unskipped region its verdict is the verdict of the first scan, and
    the pages with a positive verdict have their counter at
    [CounterMask] since the first scan (the others kept their count). *)
Theorem scan_twice Pf C Skip :
  populated C -> 0 <= PageReleaseContext.PagesCount C ->
  let '(C1, log1) := releaseFreeMemoryToOS Pf C ([] : RangeLog) Skip in
  let '(C2, log2) := releaseFreeMemoryToOS Pf C1 ([] : RangeLog) Skip in
  log2 = log1 /\ (forall r, r ∈ log2 -> r ∈ log1) /\ C2 = C1 /\
  forall Region J,
    valid (PageReleaseContext.PageMap C) Region J -> Skip Region = false ->
    canRelease C1 (PageReleaseContext.PageMap C1) Region J
    = canRelease C (PageReleaseContext.PageMap C) Region J /\
    (canRelease C (PageReleaseContext.PageMap C) Region J = true ->
       get (PageReleaseContext.PageMap C1) Region J
       = CounterMask (PageReleaseContext.PageMap C1)) /\
    (canRelease C (PageReleaseContext.PageMap C) Region J = false ->
       get (PageReleaseContext.PageMap C1) Region J
       = get (PageReleaseContext.PageMap C) Region J).
Proof.
  intros Hpop HPC.
  pose proof (release_spec Pf C Skip Hpop HPC) as H1. cbv zeta in H1.
  destruct (releaseFreeMemoryToOS Pf C ([] : RangeLog) Skip) as [C1 log1].
  destruct H1 as (HC1 & Hg & Hlog1 & Hget & _).
  set (M0 := PageReleaseContext.PageMap C) in *.
  set (M1 := PageReleaseContext.PageMap C1) in *.
  destruct Hpop as (Hwf & HRe & HNc). fold M0 in Hwf, HRe, HNc.
  assert (Hmask : CounterMask M1 = CounterMask M0)
    by (destruct Hg as (_ & _ & _ & -> & _); reflexivity).
  assert (Hverdict : forall Region J, valid M0 Region J -> Skip Region = false ->
            canRelease C M1 Region J = canRelease C M0 Region J /\
            (canRelease C M0 Region J = true -> get M1 Region J = CounterMask M1) /\
            (canRelease C M0 Region J = false -> get M1 Region J = get M0 Region J)).
  { intros Region J Hv Hs. pose proof (Hget Region J Hv) as HgJ.
    rewrite Hs in HgJ. cbn [negb andb] in HgJ.
    destruct (canRelease C M0 Region J) eqn:Hc.
    - split; [|split; [intros _; congruence|discriminate]].
      unfold canRelease. rewrite HgJ, Hmask, Z.eqb_refl. reflexivity.
    - split; [|split; [discriminate|intros _; exact HgJ]].
      unfold canRelease in *. rewrite HgJ, Hmask. exact Hc. }
  assert (Hpop1 : populated C1).
  { rewrite HC1. unfold populated.
    cbn [PageReleaseContext.PageMap PageReleaseContext.withPageMap
         PageReleaseContext.NumberOfRegions PageReleaseContext.PagesCount].
    fold M1. pose proof Hg as (HR1 & HN1 & _).
    split; [eapply sameGeometry_wf; [exact Hg|exact Hwf]|].
    split; congruence. }
  assert (HC : forall M R J, canRelease C1 M R J = canRelease C M R J).
  { intros M R J. rewrite HC1. reflexivity. }
  assert (HPC1 : PageReleaseContext.PagesCount C1 = PageReleaseContext.PagesCount C)
    by (rewrite HC1; reflexivity).
  assert (HNR1 : PageReleaseContext.NumberOfRegions C1
                 = PageReleaseContext.NumberOfRegions C)
    by (rewrite HC1; reflexivity).
  pose proof (release_spec Pf C1 Skip Hpop1 ltac:(lia)) as H2. cbv zeta in H2.
  destruct (releaseFreeMemoryToOS Pf C1 ([] : RangeLog) Skip) as [C2 log2].
  destruct H2 as (_ & _ & Hlog2 & _ & Hsettled). fold M1 in Hlog2, Hsettled.
  assert (Hcalls : scanCalls C1 M1 Skip (PageReleaseContext.NumberOfRegions C1)
                   = scanCalls C M0 Skip (PageReleaseContext.NumberOfRegions C)).
  { rewrite HNR1.
    transitivity (scanCalls C M1 Skip (PageReleaseContext.NumberOfRegions C)).
    - rewrite HC1. reflexivity.
    - apply scanCalls_ext. intros Region J HR Hs HJ.
      apply Hverdict; [|exact Hs]. unfold valid. rewrite HRe, HNc. lia. }
  assert (Hlogs : log2 = log1) by (rewrite Hlog2, Hlog1, Hcalls; reflexivity).
  split; [exact Hlogs|]. split; [intros r Hr; rewrite <- Hlogs; exact Hr|].
  split.
  - apply Hsettled. intros Region J Hv Hs Hc.
    assert (Hv0 : valid M0 Region J).
    { destruct Hg as (HR1 & HN1 & _). unfold valid in *.
      rewrite <- HR1, <- HN1. exact Hv. }
    destruct (Hverdict Region J Hv0 Hs) as (He & Ht & _).
    apply Ht. rewrite <- He, <- HC. exact Hc.
  - intros Region J Hv Hs. rewrite HC. apply Hverdict; assumption.
Qed.
End Idempotence.

(** ** The overload that takes the free list *)

Section Overload.

(** C3, on the code.  The overload hands its arguments to the constructor
    in the order [(BlockSize, RegionSize, RegionSize, NumberOfRegions)],
    so the context takes [RegionSize] for the number of regions and
    [NumberOfRegions] for the release size.  For one region of two
    4096-byte pages holding two free 4096-byte blocks, the documented
    sequence releases [0, 8192) while the overload releases [0, 4096)
    only. *)
Theorem overload_differs_from_sequence :
  let FreeList := [[0; 4096]] in
  fst <$> releaseSequence Pf4096 FreeList 8192 1 4096 ([] : RangeLog)
            (fun P => P) (fun _ => false)
    = Some [(0, 8192)] /\
  fst <$> releaseFreeMemoryToOS_FreeList Pf4096 FreeList 8192 1 4096
            ([] : RangeLog) (fun P => P) (fun _ => false)
    = Some [(0, 4096)].
Proof. split; vm_compute; reflexivity. Qed.
End Overload.

(** ** Blocks and pages *)

Section Counting.
Import MarkSpec.

Lemma countFrom_nonneg f a n : 0 <= countFrom f a n.
Proof. revert a; induction n as [|n IH]; intros a; simpl; [lia|]. specialize (IH (a + 1)). destruct (f a); lia. Qed.

Lemma countFrom_false n : forall a, countFrom (fun _ => false) a n = 0.
Proof. induction n as [|n IH]; intros a; simpl; [reflexivity|apply IH]. Qed.

Lemma countFrom_ext f g n : forall a,
  (forall k, a <= k < a + Z.of_nat n -> f k = g k) ->
  countFrom f a n = countFrom g a n.
Proof.
  induction n as [|n IH]; intros a Hfg; simpl; [reflexivity|].
  rewrite (Hfg a) by lia. rewrite (IH (a + 1)); [reflexivity|].
  intros k Hk. apply Hfg. lia.
Qed.

Lemma countFrom_app f n1 n2 : forall a,
  countFrom f a (n1 + n2) = countFrom f a n1 + countFrom f (a + Z.of_nat n1) n2.
Proof.
  induction n1 as [|n1 IH]; intros a.
  - simpl. rewrite Z.add_0_r. reflexivity.
  - cbn [Nat.add countFrom]. rewrite IH, Nat2Z.inj_succ.
    replace (a + 1 + Z.of_nat n1) with (a + Z.succ (Z.of_nat n1)) by lia. lia.
Qed.

(** Counting the members of an interval. *)
Lemma countFrom_interval f lo hi n : forall a,
  (forall k, a <= k < a + Z.of_nat n -> f k = (lo <=? k) && (k <=? hi)) ->
  countFrom f a n
  = Z.max 0 (Z.min hi (a + Z.of_nat n - 1) - Z.max lo a + 1).
Proof.
  induction n as [|n IH]; intros a Hf.
  - simpl. lia.
  - cbn [countFrom]. rewrite (IH (a + 1)) by (intros k Hk; apply Hf; lia).
    rewrite (Hf a) by lia.
    destruct (Z.leb_spec lo a), (Z.leb_spec a hi); simpl; lia.
Qed.

(** Counting under a stronger test. *)
Lemma countFrom_and_le f g n : forall a,
  countFrom (fun k => f k && g k) a n <= countFrom f a n.
Proof.
  induction n as [|n IH]; intros a; simpl; [lia|].
  specialize (IH (a + 1)). destruct (f a), (g a); simpl; lia.
Qed.

Lemma countFrom_and_eq f g n : forall a,
  countFrom (fun k => f k && g k) a n = countFrom f a n <->
  (forall k, a <= k < a + Z.of_nat n -> f k = true -> g k = true).
Proof.
  induction n as [|n IH]; intros a; simpl.
  - split; [intros _ k Hk; lia|reflexivity].
  - pose proof (countFrom_and_le f g n (a + 1)) as Hle.
    specialize (IH (a + 1)). split.
    + intros Heq k Hk Hfk.
      destruct (Z.eq_dec k a) as [->|Hne].
      * destruct (f a), (g a); simpl in *; try reflexivity; try discriminate; lia.
      * apply IH; [|lia|exact Hfk].
        destruct (f a), (g a); simpl in *; lia.
    + intros Hall.
      assert (Htail : countFrom (fun k => f k && g k) (a + 1) n = countFrom f (a + 1) n).
      { apply IH. intros k Hk. apply Hall. lia. }
      rewrite Htail. destruct (f a) eqn:Hfa; simpl; [|reflexivity].
      rewrite (Hall a) by (try lia; assumption). reflexivity.
Qed.

(** Counting one value. *)
Lemma countFrom_single f k0 n : forall a,
  countFrom (fun k => f k && (k =? k0)) a n
  = if (a <=? k0) && (k0 <? a + Z.of_nat n) && f k0 then 1 else 0.
Proof.
  induction n as [|n IH]; intros a.
  - cbn [countFrom]. change (Z.of_nat 0) with 0. rewrite Z.add_0_r.
    destruct (Z.leb_spec a k0), (Z.ltb_spec k0 a); simpl; try reflexivity; lia.
  - cbn [countFrom]. rewrite IH.
    destruct (Z.eqb_spec a k0) as [->|Hne].
    + rewrite andb_true_r.
      destruct (Z.leb_spec (k0 + 1) k0); [lia|]. simpl.
      destruct (Z.leb_spec k0 k0); [|lia].
      destruct (Z.ltb_spec k0 (k0 + Z.of_nat (S n))); [|lia]. simpl.
      destruct (f k0); reflexivity.
    + rewrite andb_false_r. simpl.
      destruct (Z.leb_spec (a + 1) k0), (Z.leb_spec a k0),
        (Z.ltb_spec k0 (a + 1 + Z.of_nat n)), (Z.ltb_spec k0 (a + Z.of_nat (S n)));
        simpl; try reflexivity; lia.
Qed.

Lemma countFrom_or_disjoint f g n : forall a,
  (forall k, a <= k < a + Z.of_nat n -> f k = true -> g k = true -> False) ->
  countFrom (fun k => f k || g k) a n = countFrom f a n + countFrom g a n.
Proof.
  induction n as [|n IH]; intros a Hd; simpl; [reflexivity|].
  rewrite IH by (intros k Hk; apply Hd; lia).
  specialize (Hd a ltac:(lia)).
  destruct (f a), (g a); simpl; try lia; exfalso; apply Hd; reflexivity.
Qed.

(** A block touches the pages between the page of its first byte and the
    page of its last byte. *)
Lemma touchesb_pages S B k J :
  0 < S -> 0 < B -> 0 <= k ->
  touchesb S B k J = (k * B / S <=? J) && (J <=? (k * B + B - 1) / S).
Proof.
  intros HS HB Hk. unfold touchesb.
  assert (H1 : k * B < (J + 1) * S <-> k * B / S <= J).
  { split; intros H.
    - assert (k * B / S < J + 1); [|lia].
      apply Z.div_lt_upper_bound; lia.
    - pose proof (Z.mul_succ_div_gt (k * B) S HS). nia. }
  assert (H2 : J * S < (k + 1) * B <-> J <= (k * B + B - 1) / S).
  { split; intros H.
    - apply Z.div_le_lower_bound; lia.
    - pose proof (Z.mul_div_le (k * B + B - 1) S HS). nia. }
  destruct (Z.ltb_spec (k * B) ((J + 1) * S)), (Z.leb_spec (k * B / S) J),
    (Z.ltb_spec (J * S) ((k + 1) * B)), (Z.leb_spec J ((k * B + B - 1) / S));
    simpl; try reflexivity; lia.
Qed.

(** A page is touched by the blocks between the block of its first byte and
    the block of its last byte. *)
Lemma touchesb_blocks S B k J :
  0 < S -> 0 < B -> 0 <= J ->
  touchesb S B k J = (J * S / B <=? k) && (k <=? ((J + 1) * S - 1) / B).
Proof.
  intros HS HB HJ. unfold touchesb.
  assert (H1 : k * B < (J + 1) * S <-> k <= ((J + 1) * S - 1) / B).
  { split; intros H.
    - apply Z.div_le_lower_bound; lia.
    - pose proof (Z.mul_div_le ((J + 1) * S - 1) B HB). nia. }
  assert (H2 : J * S < (k + 1) * B <-> J * S / B <= k).
  { split; intros H.
    - assert (J * S / B < k + 1); [|lia].
      apply Z.div_lt_upper_bound; lia.
    - pose proof (Z.mul_succ_div_gt (J * S) B HB). nia. }
  destruct (Z.ltb_spec (k * B) ((J + 1) * S)), (Z.leb_spec (J * S / B) k),
    (Z.ltb_spec (J * S) ((k + 1) * B)), (Z.leb_spec k (((J + 1) * S - 1) / B));
    simpl; try reflexivity; lia.
Qed.

Lemma gridCount_interval S B a b J :
  0 < S -> 0 < B -> 0 <= J -> a <= b ->
  gridCount S B a b J
  = Z.max 0 (Z.min (((J + 1) * S - 1) / B) (b - 1) - Z.max (J * S / B) a + 1).
Proof.
  intros HS HB HJ Hab. unfold gridCount.
  rewrite (countFrom_interval _ (J * S / B) (((J + 1) * S - 1) / B)).
  - rewrite Z2Nat.id by lia. f_equal. f_equal. f_equal. lia.
  - intros k _. apply touchesb_blocks; assumption.
Qed.
End Counting.

(** ** The number of blocks on a page *)

Section Geometry.
Import MarkSpec.

Lemma fullCount_bounds S B J :
  0 < S -> 0 < B -> 0 <= J -> 1 <= fullCount S B J <= S / B + 2.
Proof.
  intros HS HB HJ. unfold fullCount.
  replace ((J + 1) * S - 1) with (J * S + (S - 1)) by ring.
  set (a := J * S). assert (Ha : 0 <= a) by (unfold a; nia). clearbody a.
  pose proof (Z.div_mod a B ltac:(lia)) as Ea.
  pose proof (Z.mod_pos_bound a B HB) as Ra.
  pose proof (Z.div_mod S B ltac:(lia)) as ES.
  pose proof (Z.mod_pos_bound S B HB) as RS.
  set (q := a / B) in *. set (r := a mod B) in *.
  set (m := S / B) in *. set (s0 := S mod B) in *.
  replace (a + (S - 1)) with ((r + s0 - 1) + (q + m) * B) by lia.
  rewrite Z.div_add by lia.
  assert (-1 <= (r + s0 - 1) / B <= 1).
  { split.
    - apply Z.div_le_lower_bound; lia.
    - assert ((r + s0 - 1) / B < 2); [|lia]. apply Z.div_lt_upper_bound; lia. }
  assert (0 <= m) by (apply Z.div_pos; lia).
  assert (m = 0 -> 0 <= (r + s0 - 1) / B).
  { intros Hm. apply Z.div_pos; lia. }
  lia.
Qed.

(** Rows A, B and D of the table: every page is touched by the same number
    of blocks. *)
Lemma fullCount_same S B J Max :
  0 < S -> 0 < B -> 0 <= J -> S + 2 < uptr_modulus ->
  PageReleaseContext.classify B S = (Max, true) -> fullCount S B J = Max.
Proof.
  intros HS HB HJ HSfit. unfold PageReleaseContext.classify, fullCount.
  replace ((J + 1) * S - 1) with (J * S + (S - 1)) by ring.
  destruct (Z.leb_spec B S) as [Hle|Hgt].
  - destruct (Z.eqb_spec (S mod B) 0) as [Hdiv|Hndiv].
    + (* row A *)
      intros Hc. inversion Hc; subst Max; clear Hc.
      pose proof (Z.div_mod S B ltac:(lia)) as ES. rewrite Hdiv, Z.add_0_r in ES.
      set (m := S / B) in *.
      assert (Hm : 1 <= m) by nia.
      rewrite ES. replace (J * (B * m)) with (J * m * B) by ring.
      replace (J * m * B + (B * m - 1)) with ((B - 1) + (J * m + m - 1) * B) by ring.
      rewrite Z.div_mul by lia. rewrite Z.div_add by lia.
      rewrite Z.div_small by lia. lia.
    + destruct (Z.eqb_spec (B mod (S mod B)) 0) as [Hdiv2|]; [|discriminate].
      (* row B *)
      intros Hc. inversion Hc; subst Max; clear Hc.
      assert (Hq : 0 <= S / B <= S).
      { split; [apply Z.div_pos; lia|]. apply Z.div_le_upper_bound; nia. }
      pose proof (Z.div_mod S B ltac:(lia)) as ES.
      pose proof (Z.mod_pos_bound S B HB) as RS.
      set (m := S / B) in *. set (r0 := S mod B) in *.
      assert (Hr0 : 0 < r0) by lia.
      pose proof (Z.div_mod B r0 ltac:(lia)) as EB. rewrite Hdiv2, Z.add_0_r in EB.
      set (c := B / r0) in *.
      (* the offset of a page start in its block is a multiple of r0 *)
      pose proof (Z.div_mod (J * S) B ltac:(lia)) as Ea.
      pose proof (Z.mod_pos_bound (J * S) B HB) as Ra.
      set (q := J * S / B) in *. set (r := (J * S) mod B) in *.
      assert (Hmul : exists t, r = t * r0).
      { exists (J * (m * c + 1) - q * c). nia. }
      destruct Hmul as [t Ht].
      assert (Htc : t + 1 <= c) by nia.
      assert (Hrr : 0 <= r + r0 - 1 < B) by nia.
      replace (J * S + (S - 1)) with ((r + r0 - 1) + (q + m) * B) by lia.
      rewrite Z.div_add by lia. rewrite Z.div_small by lia.
      rewrite wrap_small by lia. lia.
  - destruct (Z.eqb_spec (B mod S) 0) as [Hdiv|]; [|discriminate].
    (* row D *)
    intros Hc. inversion Hc; subst Max; clear Hc.
    pose proof (Z.div_mod B S ltac:(lia)) as EB. rewrite Hdiv, Z.add_0_r in EB.
    set (c := B / S) in *.
    assert (Hc : 2 <= c) by nia.
    pose proof (Z.div_mod J c ltac:(lia)) as EJ.
    pose proof (Z.mod_pos_bound J c ltac:(lia)) as RJ.
    set (q := J / c) in *. set (r := J mod c) in *.
    assert (E1 : J * S = r * S + q * B) by nia.
    assert (E2 : J * S + (S - 1) = (r * S + S - 1) + q * B) by nia.
    rewrite E2, E1. rewrite !Z.div_add by lia.
    rewrite !Z.div_small by nia. lia.
Qed.

(** In every row of the table [FullPagesBlockCountMax] bounds the number of
    blocks on a page. *)
Lemma fullCount_le_max S B J Max same :
  0 < S -> 0 < B -> 0 <= J -> S + 2 < uptr_modulus ->
  PageReleaseContext.classify B S = (Max, same) ->
  1 <= fullCount S B J <= Max /\ 1 <= Max < uptr_modulus.
Proof.
  intros HS HB HJ HSfit Hc.
  pose proof (fullCount_bounds S B J HS HB HJ) as Hb.
  assert (Hq : 0 <= S / B <= S).
  { split; [apply Z.div_pos; lia|]. apply Z.div_le_upper_bound; nia. }
  destruct same.
  - rewrite (fullCount_same S B J Max HS HB HJ HSfit Hc) in *.
    split; [lia|]. split; [lia|].
    unfold PageReleaseContext.classify in Hc.
    destruct (B <=? S); [destruct (S mod B =? 0);
      [|destruct (B mod (S mod B) =? 0); [|discriminate]]
      |destruct (B mod S =? 0); [|discriminate]];
      inversion Hc; subst Max; rewrite ?wrap_small by lia; lia.
  - unfold PageReleaseContext.classify in Hc.
    destruct (Z.leb_spec B S).
    + destruct (S mod B =? 0); [discriminate|].
      destruct (B mod (S mod B) =? 0); [discriminate|].
      inversion Hc; subst Max. rewrite wrap_small by lia. lia.
    + destruct (B mod S =? 0); [discriminate|].
      inversion Hc; subst Max. rewrite Z.div_small in Hb by lia.
      rewrite uptr_modulus_eq. lia.
Qed.
End Geometry.

(** ** The slow path counts the blocks on a page *)

Section SlowPath.
Import MarkSpec.

(** One page of the boundary arithmetic: from the start [a] of a page and
    the first block boundary [c] at or after it to the number of blocks on
    the page and the first block boundary at or after the next page. *)
Lemma slowBlocks_spec S B a c q :
  0 < S -> 0 < B -> 0 <= a -> c = q * B -> a <= c < a + B ->
  a + 2 * S + 2 * B < uptr_modulus ->
  let Pn := if B <? S then S / B else 1 in
  exists c' q',
    slowBlocks S B Pn (wrap (Pn * B)) (a, c)
    = ((a + S - 1) / B - a / B + 1, (a + S, c')) /\
    c' = q' * B /\ a + S <= c' < a + S + B.
Proof.
  intros HS HB Ha Hc Hrange Hfit Pn.
  assert (Hm : 0 <= S / B <= S).
  { split; [apply Z.div_pos; lia|]. apply Z.div_le_upper_bound; nia. }
  pose proof (Z.div_mod S B ltac:(lia)) as ES.
  pose proof (Z.mod_pos_bound S B HB) as RS.
  pose proof (Z.div_mod a B ltac:(lia)) as Ea.
  pose proof (Z.mod_pos_bound a B HB) as Ra.
  set (m := S / B) in *. set (s0 := S mod B) in *.
  set (lo := a / B) in *. set (r := a mod B) in *.
  assert (Hlo : 0 <= lo) by (apply Z.div_pos; lia).
  assert (HPn : 1 <= Pn <= S /\ Pn * B <= S + B /\ (B < S -> Pn = m) /\ (S <= B -> Pn = 1)).
  { unfold Pn. destruct (Z.ltb_spec B S); [|lia].
    assert (1 <= m) by nia. nia. }
  destruct HPn as (HPn1 & HPn2 & HPn3 & HPn4). clearbody Pn.
  assert (Hq : (r = 0 /\ q = lo) \/ (0 < r /\ q = lo + 1)) by nia.
  unfold slowBlocks.
  rewrite (wrap_small (a + S)) by lia.
  rewrite (wrap_small (Pn * B)) by nia.
  rewrite (wrap_small (Pn + 1)) by lia.
  rewrite (wrap_small (c + Pn * B)) by nia.
  (* the last block boundary before the end of the page *)
  assert (Hhi : forall h, h * B <= a + S - 1 < (h + 1) * B -> (a + S - 1) / B = h).
  { intros h Hh. symmetry. apply (Z.div_unique _ _ _ (a + S - 1 - h * B)); lia. }
  destruct (Z.ltb_spec c (a + S)) as [Hin|Hout].
  - destruct (Z.ltb_spec a c) as [Hstr|Halg].
    + (* a block straddles the start of the page *)
      assert (Hr : 0 < r /\ q = lo + 1) by lia. destruct Hr as [Hr ->].
      destruct (Z.ltb_spec (c + Pn * B) (a + S)) as [Hmore|Hdone].
      * rewrite (wrap_small (Pn + 1 + 1)) by lia.
        rewrite (wrap_small (c + Pn * B + B)) by nia.
        exists (c + Pn * B + B), (lo + 1 + Pn + 1).
        rewrite (Hhi (lo + 1 + Pn)); [|destruct (Z_lt_le_dec B S); nia].
        split; [f_equal; lia|]. split; [lia|].
        destruct (Z_lt_le_dec B S); nia.
      * exists (c + Pn * B), (lo + 1 + Pn).
        rewrite (Hhi (lo + Pn)); [|destruct (Z_lt_le_dec B S); nia].
        split; [f_equal; lia|]. split; [lia|].
        destruct (Z_lt_le_dec B S); nia.
    + (* the page starts on a block boundary *)
      assert (Hr : r = 0 /\ q = lo) by lia. destruct Hr as [Hr ->].
      destruct (Z.ltb_spec (c + Pn * B) (a + S)) as [Hmore|Hdone].
      * rewrite (wrap_small (Pn + 1)) by lia.
        rewrite (wrap_small (c + Pn * B + B)) by nia.
        exists (c + Pn * B + B), (lo + Pn + 1).
        rewrite (Hhi (lo + Pn)); [|destruct (Z_lt_le_dec B S); nia].
        split; [f_equal; lia|]. split; [lia|].
        destruct (Z_lt_le_dec B S); nia.
      * exists (c + Pn * B), (lo + Pn).
        rewrite (Hhi (lo + Pn - 1)); [|destruct (Z_lt_le_dec B S); nia].
        split; [f_equal; lia|]. split; [lia|].
        destruct (Z_lt_le_dec B S); nia.
  - (* no block boundary on the page *)
    exists c, q.
    assert (Hr : 0 < r /\ q = lo + 1) by nia. destruct Hr as [Hr ->].
    rewrite (Hhi lo) by nia.
    split; [f_equal; lia|]. split; [lia|]. lia.
Qed.
End SlowPath.

(** ** What a free list adds to a counter *)

Section Marked.
Import MarkSpec PageReleaseContext.

Variable C : PageReleaseContext.t.
Hypothesis HB : 1 <= BlockSize C <= RegionSize C.
Hypothesis HS : 0 < PageSize C.

Lemma memb_In x l : memb x l = true <-> In x l.
Proof.
  unfold memb. rewrite existsb_exists. split.
  - intros (y & Hy & He). apply Z.eqb_eq in He. subst. exact Hy.
  - intros Hx. exists x. split; [exact Hx|apply Z.eqb_refl].
Qed.

Lemma wholeBlocks_pos : 1 <= wholeBlocks C /\ wholeBlocks C * BlockSize C <= RegionSize C.
Proof.
  unfold wholeBlocks. split.
  - apply Z.div_le_lower_bound; lia.
  - pose proof (Z.mul_div_le (RegionSize C) (BlockSize C) ltac:(lia)). lia.
Qed.

(** The region and the block of the start of a whole block. *)
Lemma blockStart_decode Region k :
  0 <= Region -> 0 <= k < wholeBlocks C ->
  let P := Region * RegionSize C + k * BlockSize C in
  P / RegionSize C = Region /\ P mod RegionSize C / BlockSize C = k /\
  P mod RegionSize C = k * BlockSize C.
Proof.
  intros HR Hk P. pose proof wholeBlocks_pos as [HN HNB].
  assert (Hlt : 0 <= k * BlockSize C < RegionSize C) by nia.
  assert (Hdiv : P / RegionSize C = Region).
  { unfold P. rewrite Z.add_comm, Z.div_add by lia.
    rewrite Z.div_small by lia. lia. }
  assert (Hmod : P mod RegionSize C = k * BlockSize C).
  { unfold P. rewrite Z.add_comm, Z.mod_add by lia. apply Z.mod_small; lia. }
  rewrite Hmod. split; [exact Hdiv|]. split; [|reflexivity].
  apply Z.div_mul; lia.
Qed.

Lemma blockStart_eq Region k Region' k' :
  0 <= Region -> 0 <= k < wholeBlocks C ->
  0 <= Region' -> 0 <= k' < wholeBlocks C ->
  Region * RegionSize C + k * BlockSize C
  = Region' * RegionSize C + k' * BlockSize C ->
  Region = Region' /\ k = k'.
Proof.
  intros HR Hk HR' Hk' He.
  destruct (blockStart_decode Region k HR Hk) as (H1 & H2 & _).
  destruct (blockStart_decode Region' k' HR' Hk') as (H1' & H2' & _).
  cbv zeta in *. rewrite He in H1, H2. split; congruence.
Qed.

Lemma marked_nonneg offsets Region J : 0 <= marked C offsets Region J.
Proof.
  induction offsets as [|P rest IH]; simpl; [lia|].
  unfold contribution.
  pose proof (countFrom_nonneg (fun k => touchesb (PageSize C) (BlockSize C) k J)
                (wholeBlocks C) (Z.to_nat (gridBlocks C - wholeBlocks C))) as Hg.
  fold (gridCount (PageSize C) (BlockSize C) (wholeBlocks C) (gridBlocks C) J) in Hg.
  destruct (_ =? Region); [|lia].
  destruct (touchesb _ _ _ _), (_ =? _); lia.
Qed.

Lemma marked_app xs ys Region J :
  marked C (xs ++ ys) Region J = marked C xs Region J + marked C ys Region J.
Proof. induction xs as [|P xs IH]; simpl; [reflexivity|]. rewrite IH. lia. Qed.

(** The count of a free list of distinct block starts: the free whole
    blocks that touch the page and, when the last whole block is free, the
    pretend blocks that touch it. *)
Lemma marked_count offsets Region J :
  0 <= Region ->
  Forall (blockStart C) offsets -> NoDup offsets ->
  marked C offsets Region J
  = countFrom (fun k => touchesb (PageSize C) (BlockSize C) k J
                        && freeb C offsets Region k)
      0 (Z.to_nat (wholeBlocks C))
    + (if freeb C offsets Region (wholeBlocks C - 1)
       then gridCount (PageSize C) (BlockSize C) (wholeBlocks C) (gridBlocks C) J
       else 0).
Proof.
  intros HR Hall Hnd. pose proof wholeBlocks_pos as [HN HNB].
  induction offsets as [|P rest IH].
  - simpl. unfold freeb, memb. simpl.
    rewrite (countFrom_ext _ (fun _ => false)) by (intros k _; apply andb_false_r).
    rewrite countFrom_false. reflexivity.
  - apply Forall_cons in Hall. destruct Hall as [(R0 & k0 & HR0 & Hk0 & HP) Hall].
    apply NoDup_cons in Hnd. destruct Hnd as [Hnotin Hnd].
    cbn [marked fold_right]. fold (marked C rest Region J).
    rewrite (IH Hall Hnd). clear IH.
    destruct (blockStart_decode R0 k0 ltac:(lia) Hk0) as (Hd1 & Hd2 & _).
    cbv zeta in Hd1, Hd2. rewrite <- HP in Hd1, Hd2.
    unfold contribution. rewrite Hd1, Hd2.
    (* whether block [k] of [Region] is the new entry *)
    assert (Hnew : forall k, 0 <= k < wholeBlocks C ->
              freeb C (P :: rest) Region k
              = ((Region =? R0) && (k =? k0)) || freeb C rest Region k).
    { intros k Hk. unfold freeb, memb. cbn [existsb]. f_equal.
      destruct (Z.eqb_spec (Region * RegionSize C + k * BlockSize C) P) as [He|Hne].
      - rewrite HP in He.
        destruct (blockStart_eq Region k R0 k0 HR Hk ltac:(lia) Hk0 He) as [E1 E2].
        rewrite E1, E2, !Z.eqb_refl. reflexivity.
      - symmetry. apply andb_false_iff.
        destruct (Z.eqb_spec Region R0) as [E1|], (Z.eqb_spec k k0) as [E2|]; auto.
        exfalso. apply Hne. rewrite HP, E1, E2. reflexivity. }
    assert (Hdisj : forall k, 0 <= k < wholeBlocks C ->
              (Region =? R0) && (k =? k0) = true ->
              freeb C rest Region k = true -> False).
    { intros k Hk He Hf. apply andb_true_iff in He. destruct He as [He1 He2].
      apply Z.eqb_eq in He1, He2. apply memb_In in Hf.
      apply Hnotin. apply list_elem_of_In. rewrite HP, <- He1, <- He2. exact Hf. }
    rewrite (countFrom_ext
      (fun k => touchesb (PageSize C) (BlockSize C) k J
                && freeb C (P :: rest) Region k)
      (fun k => (touchesb (PageSize C) (BlockSize C) k J
                 && ((Region =? R0) && (k =? k0)))
                || (touchesb (PageSize C) (BlockSize C) k J
                    && freeb C rest Region k))).
    2:{ intros k Hk. cbv beta. rewrite Hnew by lia. apply andb_orb_distrib_r. }
    rewrite countFrom_or_disjoint.
    2:{ intros k Hk H1 H2. cbv beta in H1, H2. apply andb_true_iff in H1, H2.
        apply (Hdisj k); [lia|tauto|tauto]. }
    rewrite (countFrom_ext
      (fun k => touchesb (PageSize C) (BlockSize C) k J
                && ((Region =? R0) && (k =? k0)))
      (fun k => (touchesb (PageSize C) (BlockSize C) k J && (Region =? R0))
                && (k =? k0))).
    2:{ intros k _. apply andb_assoc. }
    rewrite countFrom_single.
    rewrite Z2Nat.id by lia.
    rewrite (Hnew (wholeBlocks C - 1)) by lia.
    pose proof (Hdisj (wholeBlocks C - 1) ltac:(lia)) as Hd.
    pose proof (countFrom_nonneg (fun k => touchesb (PageSize C) (BlockSize C) k J)
                  (wholeBlocks C) (Z.to_nat (gridBlocks C - wholeBlocks C))) as Hg.
    fold (gridCount (PageSize C) (BlockSize C) (wholeBlocks C) (gridBlocks C) J) in Hg |- *.
    rewrite (Z.eqb_sym R0 Region).
    destruct (Z.eqb_spec Region R0) as [->|HneR]; simpl.
    + destruct (Z.leb_spec 0 k0); [|lia].
      destruct (Z.ltb_spec k0 (0 + wholeBlocks C)); [|lia]. simpl.
      rewrite andb_true_r.
      destruct (Z.eqb_spec k0 (wholeBlocks C - 1)) as [Hl|Hl].
      * rewrite <- Hl, Z.eqb_refl in *. simpl in *.
        destruct (freeb C rest R0 k0); [exfalso; apply Hd; reflexivity|].
        destruct (touchesb _ _ k0 J); lia.
      * destruct (Z.eqb_spec (wholeBlocks C - 1) k0); [lia|]. simpl.
        destruct (touchesb _ _ k0 J), (freeb C rest R0 (wholeBlocks C - 1)); lia.
    + rewrite andb_false_r. simpl. rewrite andb_false_r. lia.
Qed.
End Marked.

(** ** Marking one block *)

Section MarkBlock.
Import MarkSpec PageReleaseContext RegionPageMap RegionPageMapSpec.

Variables (lg : Z) (C : PageReleaseContext.t).
Hypothesis Hgeo : geometry lg C.

Lemma geo_facts :
  0 < PageSize C /\ 0 <= PagesCount C /\ 1 <= wholeBlocks C /\
  wholeBlocks C * BlockSize C <= RegionSize C /\
  wholeBlocks C <= gridBlocks C /\
  (forall k, k * BlockSize C < RoundedRegionSize C <-> k < gridBlocks C) /\
  RoundedRegionSize C + 2 * PageSize C + 2 * BlockSize C < uptr_modulus /\
  NumberOfRegions C * RoundedRegionSize C < uptr_modulus.
Proof.
  destruct Hgeo as [Hlg HP _ HB HNR _ Hrd Hr _ _ Hfit].
  assert (HS : 0 < PageSize C) by (rewrite HP; apply pow2_pos; lia).
  destruct (wholeBlocks_pos C HB) as [HN HNB].
  assert (Hgrid : forall k, k * BlockSize C < RoundedRegionSize C <-> k < gridBlocks C).
  { intros k. unfold gridBlocks, ceilDiv.
    set (X := RoundedRegionSize C) in *. set (B := BlockSize C) in *.
    split; intros H.
    - assert (k <= (X - 1) / B) by (apply Z.div_le_lower_bound; lia).
      replace (X + B - 1) with ((X - 1) + 1 * B) by ring.
      rewrite Z.div_add by lia. lia.
    - replace (X + B - 1) with ((X - 1) + 1 * B) in H by ring.
      rewrite Z.div_add in H by lia.
      pose proof (Z.mul_div_le (X - 1) B ltac:(lia)). nia. }
  split; [exact HS|]. split; [nia|]. split; [exact HN|]. split; [exact HNB|].
  split; [|split; [exact Hgrid|split; nia]].
  assert (~ gridBlocks C < wholeBlocks C); [|lia].
  intros Hlt.
  assert (Hx : gridBlocks C * BlockSize C < RoundedRegionSize C) by nia.
  apply Hgrid in Hx. lia.
Qed.

Lemma getPageIndex_div P :
  0 <= P < uptr_modulus -> getPageIndex C P = P / PageSize C.
Proof.
  intros HP. destruct Hgeo as [Hlg HPS Hlog _ _ Hoff _ _ _ _ _].
  unfold getPageIndex. rewrite Hlog, Hoff, Z.sub_0_r, Z.shiftr_div_pow2 by lia.
  rewrite <- HPS. apply wrap_small.
  assert (0 < PageSize C) by (rewrite HPS; apply pow2_pos; lia).
  split; [apply Z.div_pos; lia|].
  apply Z.div_lt_upper_bound; nia.
Qed.

(** The pages [incRange] visits for block [k] are the pages the block
    touches. *)
Lemma incRange_block M R0 k :
  wf M -> Regions M = NumberOfRegions C -> NumCounters M = PagesCount C ->
  0 <= R0 < NumberOfRegions C -> 0 <= k < gridBlocks C ->
  (forall J, 0 <= J < PagesCount C ->
     touchesb (PageSize C) (BlockSize C) k J = true ->
     get M R0 J < CounterMask M) ->
  let M' := incRange M R0 (getPageIndex C (k * BlockSize C))
              (getPageIndex C (wrap (wrap (k * BlockSize C + BlockSize C) - 1))) in
  sameGeometry M M' /\
  forall R J, valid M R J ->
    get M' R J = get M R J
                 + (if (R =? R0) && touchesb (PageSize C) (BlockSize C) k J
                    then 1 else 0).
Proof.
  intros Hwf HRe HNc HR0 Hk Hroom M'.
  destruct geo_facts as (HS & HPC & HN & HNB & HNN & Hgrid & Hfit & Hfit2).
  pose proof (geo_block lg C Hgeo) as HB.
  assert (HkB : 0 <= k * BlockSize C < RoundedRegionSize C)
    by (split; [nia|apply Hgrid; lia]).
  split; [apply sameGeometry_incRange|].
  intros R J Hv. unfold M'.
  rewrite (wrap_small (k * BlockSize C + BlockSize C)) by lia.
  rewrite (wrap_small (k * BlockSize C + BlockSize C - 1)) by lia.
  rewrite !getPageIndex_div by lia.
  set (From := k * BlockSize C / PageSize C).
  set (To := (k * BlockSize C + BlockSize C - 1) / PageSize C).
  assert (HFrom : 0 <= From) by (apply Z.div_pos; lia).
  assert (HTo : From <= To < uptr_modulus).
  { split; [apply Z.div_le_mono; lia|].
    apply Z.div_lt_upper_bound; nia. }
  assert (HTop : forall I, 0 <= I < NumCounters M ->
            (From <= I < Min (wrap (To + 1)) (NumCounters M)) <->
            touchesb (PageSize C) (BlockSize C) k I = true).
  { intros I HI. rewrite Min_spec, wrap_small.
    2:{ split; [lia|]. assert (To < RoundedRegionSize C + BlockSize C); [|lia].
        apply Z.div_lt_upper_bound; nia. }
    rewrite touchesb_pages by lia. fold From To.
    rewrite andb_true_iff, !Z.leb_le. lia. }
  destruct (get_incRange M R0 From To R J) as [_ ->]; try assumption; try lia.
  - intros I HI. apply Hroom.
    + rewrite Min_spec in HI. lia.
    + apply HTop; [rewrite Min_spec in HI; lia|exact HI].
  - destruct Hv as [HvR HvJ].
    case_decide as Hd.
    + destruct Hd as [-> Hd]. rewrite Z.eqb_refl. simpl.
      apply HTop in Hd; [|lia]. rewrite Hd. reflexivity.
    + destruct (Z.eqb_spec R R0) as [->|]; simpl; [|lia].
      destruct (touchesb (PageSize C) (BlockSize C) k J) eqn:Ht; [|lia].
      exfalso. apply Hd. split; [reflexivity|]. apply HTop; [lia|exact Ht].
Qed.

(** When the block size divides the page size a block lies on one page. *)
Lemma touchesb_one_page k J :
  0 <= k -> PageSize C mod BlockSize C = 0 ->
  touchesb (PageSize C) (BlockSize C) k J
  = (J =? k * BlockSize C / PageSize C).
Proof.
  intros Hk Hdiv.
  destruct geo_facts as (HS & _).
  pose proof (geo_block lg C Hgeo) as HB.
  rewrite touchesb_pages by lia.
  set (S := PageSize C) in *. set (B := BlockSize C) in *.
  pose proof (Z.div_mod S B ltac:(lia)) as ES. rewrite Hdiv, Z.add_0_r in ES.
  set (m := S / B) in *.
  assert (Hm : 1 <= m) by nia.
  pose proof (Z.div_mod k m ltac:(lia)) as Ek.
  pose proof (Z.mod_pos_bound k m ltac:(lia)) as Rk.
  set (q := k / m) in *. set (r := k mod m) in *.
  assert (E1 : k * B = r * B + q * S) by nia.
  assert (E2 : k * B + B - 1 = (r * B + B - 1) + q * S) by nia.
  rewrite E2, E1. rewrite !Z.div_add by lia.
  rewrite !Z.div_small by nia.
  destruct (Z.leb_spec (0 + q) J), (Z.leb_spec J (0 + q)), (Z.eqb_spec J (0 + q));
    simpl; try reflexivity; lia.
Qed.

(** The first step of [markBlock]: the counters of the pages the block
    touches go up by one. *)
Lemma mark_real_block M R0 k :
  wf M -> Regions M = NumberOfRegions C -> NumCounters M = PagesCount C ->
  0 <= R0 < NumberOfRegions C -> 0 <= k < wholeBlocks C ->
  (forall J, 0 <= J < PagesCount C ->
     touchesb (PageSize C) (BlockSize C) k J = true ->
     get M R0 J < CounterMask M) ->
  let P := k * BlockSize C in
  let M' :=
    if (BlockSize C <=? PageSize C) && (PageSize C mod BlockSize C =? 0)
    then inc M R0 (getPageIndex C P)
    else incRange M R0 (getPageIndex C P)
           (getPageIndex C (wrap (wrap (P + BlockSize C) - 1))) in
  sameGeometry M M' /\
  forall R J, valid M R J ->
    get M' R J = get M R J
                 + (if (R =? R0) && touchesb (PageSize C) (BlockSize C) k J
                    then 1 else 0).
Proof.
  intros Hwf HRe HNc HR0 Hk Hroom P M'.
  destruct geo_facts as (HS & HPC & HN & HNB & HNN & Hgrid & Hfit & Hfit2).
  pose proof (geo_block lg C Hgeo) as HB.
  pose proof (geo_round lg C Hgeo) as Hround.
  pose proof (geo_rounded lg C Hgeo) as Hrounded.
  destruct ((BlockSize C <=? PageSize C) && (PageSize C mod BlockSize C =? 0)) eqn:HA.
  - apply andb_true_iff in HA. destruct HA as [_ Hdiv]. apply Z.eqb_eq in Hdiv.
    unfold M', P. rewrite getPageIndex_div by nia.
    set (J0 := k * BlockSize C / PageSize C).
    assert (HJ0 : 0 <= J0 < PagesCount C).
    { split; [apply Z.div_pos; nia|]. apply Z.div_lt_upper_bound; nia. }
    assert (Hv0 : valid M R0 J0) by (unfold valid; lia).
    split; [apply sameGeometry_inc|].
    intros R J Hv. rewrite get_inc; try assumption.
    + rewrite touchesb_one_page by lia. fold J0.
      case_decide as Hd.
      * inversion Hd; subst. rewrite !Z.eqb_refl. reflexivity.
      * destruct (Z.eqb_spec R R0) as [->|], (Z.eqb_spec J J0) as [->|];
          simpl; try lia. contradiction.
    + apply Hroom; [exact HJ0|]. rewrite touchesb_one_page by lia.
      apply Z.eqb_refl.
  - apply incRange_block; try assumption. lia.
Qed.
End MarkBlock.

(** ** Marking a free list *)

Section MarkFreeList.
Import MarkSpec PageReleaseContext RegionPageMap RegionPageMapSpec.

Variables (lg : Z) (C : PageReleaseContext.t).
Hypothesis Hgeo : geometry lg C.

Lemma gridCount_nil S B k J : gridCount S B k k J = 0.
Proof. unfold gridCount. rewrite Z.sub_diag. reflexivity. Qed.

Lemma gridCount_first S B k b J :
  k < b ->
  gridCount S B k b J
  = (if touchesb S B k J then 1 else 0) + gridCount S B (k + 1) b J.
Proof.
  intros Hk. unfold gridCount.
  replace (Z.to_nat (b - k)) with (Datatypes.S (Z.to_nat (b - (k + 1)))) by lia.
  reflexivity.
Qed.

Lemma gridCount_nonneg S B a b J : 0 <= gridCount S B a b J.
Proof. apply countFrom_nonneg. Qed.

(** The loop of [markLastBlock] from pretend block [k] on: it terminates
    and adds to each counter the pretend blocks that touch its page. *)
Lemma markLastBlockLoop_spec R0 n : forall k M fuel,
  (n <= fuel)%nat -> 0 <= k -> k + Z.of_nat n = gridBlocks C ->
  wf M -> Regions M = NumberOfRegions C -> NumCounters M = PagesCount C ->
  0 <= R0 < NumberOfRegions C ->
  (forall J, 0 <= J < PagesCount C ->
     get M R0 J + gridCount (PageSize C) (BlockSize C) k (gridBlocks C) J
     <= CounterMask M) ->
  exists M',
    markLastBlockLoop fuel C R0 (k * BlockSize C) M = Some M' /\
    sameGeometry M M' /\
    forall R J, valid M R J ->
      get M' R J = get M R J
                   + (if R =? R0
                      then gridCount (PageSize C) (BlockSize C) k (gridBlocks C) J
                      else 0).
Proof.
  destruct (geo_facts lg C Hgeo) as (HS & HPC & HN & HNB & HNN & Hgrid & Hfit & Hfit2).
  pose proof (geo_block lg C Hgeo) as HB.
  induction n as [|n IH]; intros k M fuel Hfuel Hk Hkn Hwf HRe HNc HR0 Hroom.
  - assert (k = gridBlocks C) by lia. subst k.
    exists M. split; [|split; [apply sameGeometry_refl|]].
    + destruct fuel; simpl;
        (destruct (Z.ltb_spec (gridBlocks C * BlockSize C) (RoundedRegionSize C))
           as [Hlt|]; [apply Hgrid in Hlt; lia|reflexivity]).
    + intros R J _. rewrite gridCount_nil. destruct (R =? R0); lia.
  - destruct fuel as [|fuel]; [lia|].
    assert (Hklt : k < gridBlocks C) by lia.
    assert (HkB : 0 <= k * BlockSize C < RoundedRegionSize C)
      by (split; [nia|apply Hgrid; lia]).
    cbn [markLastBlockLoop].
    destruct (Z.ltb_spec (k * BlockSize C) (RoundedRegionSize C)); [|lia].
    destruct (incRange_block lg C Hgeo M R0 k Hwf HRe HNc HR0 ltac:(lia))
      as [Hg1 Hget1].
    { intros J HJ Ht. specialize (Hroom J HJ).
      rewrite gridCount_first in Hroom by lia. rewrite Ht in Hroom.
      pose proof (gridCount_nonneg (PageSize C) (BlockSize C) (k + 1)
                    (gridBlocks C) J). lia. }
    cbv zeta in Hg1, Hget1.
    set (M1 := incRange M R0 _ _) in *.
    rewrite (wrap_small (k * BlockSize C + BlockSize C)) by lia.
    replace (k * BlockSize C + BlockSize C) with ((k + 1) * BlockSize C) by ring.
    destruct (IH (k + 1) M1 fuel) as (M' & Hrun & Hg' & Hget'); try lia.
    + eapply sameGeometry_wf; eassumption.
    + destruct Hg1 as (-> & _); exact HRe.
    + destruct Hg1 as (_ & -> & _); exact HNc.
    + intros J HJ. rewrite Hget1 by (unfold valid; lia).
      destruct Hg1 as (_ & _ & _ & -> & _).
      specialize (Hroom J HJ). rewrite gridCount_first in Hroom by lia.
      rewrite Z.eqb_refl. simpl. lia.
    + exists M'. split; [exact Hrun|]. split;
        [eapply sameGeometry_trans; eassumption|].
      intros R J Hv.
      rewrite Hget' by (eapply sameGeometry_valid; eassumption).
      rewrite Hget1 by assumption.
      rewrite (gridCount_first _ _ k) by lia.
      destruct (R =? R0); simpl; lia.
Qed.

(** [markBlock] on the handle of the start of a whole block adds the
    contribution of that block to every counter. *)
Lemma markBlock_spec DecompactPtr Base handle M :
  wf M -> Regions M = NumberOfRegions C -> NumCounters M = PagesCount C ->
  blockStart C (DecompactPtr handle - Base) ->
  roomFor C M (DecompactPtr handle - Base) ->
  exists M',
    markBlock C DecompactPtr Base
      (wrap (wrap (RegionSize C / BlockSize C - 1) * BlockSize C)) handle M
    = Some M' /\
    sameGeometry M M' /\
    forall R J, valid M R J ->
      get M' R J = get M R J + contribution C (DecompactPtr handle - Base) R J.
Proof.
  intros Hwf HRe HNc (R0 & k0 & HR0 & Hk0 & HP) Hroom.
  destruct (geo_facts lg C Hgeo) as (HS & HPC & HN & HNB & HNN & Hgrid & Hfit & Hfit2).
  pose proof (geo_block lg C Hgeo) as HB.
  pose proof (geo_round lg C Hgeo) as Hround.
  pose proof (geo_size lg C Hgeo) as Hsize.
  set (P := DecompactPtr handle - Base) in *.
  destruct (blockStart_decode C HB R0 k0 ltac:(lia) Hk0) as (Hd1 & Hd2 & Hd3).
  cbv zeta in Hd1, Hd2, Hd3. rewrite <- HP in Hd1, Hd2, Hd3.
  assert (HkB : 0 <= k0 * BlockSize C < RegionSize C) by nia.
  assert (HPrange : 0 <= P < NumberOfRegions C * RegionSize C) by nia.
  assert (Hcontrib : forall R J,
            contribution C P R J
            = if R =? R0 then
                (if touchesb (PageSize C) (BlockSize C) k0 J then 1 else 0)
                + (if k0 =? wholeBlocks C - 1
                   then gridCount (PageSize C) (BlockSize C) (wholeBlocks C)
                          (gridBlocks C) J
                   else 0)
              else 0).
  { intros R J. unfold contribution. rewrite Hd1, Hd2, (Z.eqb_sym R0 R).
    reflexivity. }
  unfold markBlock. fold P.
  rewrite (wrap_small P) by nia.
  destruct (Z.leb_spec (RoundedSize C) P) as [Hskip|_]; [nia|].
  assert (HRI : (if NumberOfRegions C =? 1 then 0 else P / RegionSize C) = R0).
  { destruct (Z.eqb_spec (NumberOfRegions C) 1); [lia|exact Hd1]. }
  rewrite HRI.
  rewrite (wrap_small (R0 * RegionSize C)) by nia.
  replace (P - R0 * RegionSize C) with (k0 * BlockSize C) by lia.
  rewrite (wrap_small (k0 * BlockSize C)) by lia.
  fold (wholeBlocks C).
  rewrite (wrap_small (wholeBlocks C - 1)) by nia.
  rewrite (wrap_small ((wholeBlocks C - 1) * BlockSize C)) by nia.
  destruct (mark_real_block lg C Hgeo M R0 k0 Hwf HRe HNc HR0 Hk0) as [Hg1 Hget1].
  { intros J HJ Ht. specialize (Hroom R0 J ltac:(unfold valid; lia)).
    rewrite Hcontrib, Z.eqb_refl, Ht in Hroom.
    pose proof (gridCount_nonneg (PageSize C) (BlockSize C) (wholeBlocks C)
                  (gridBlocks C) J).
    destruct (k0 =? wholeBlocks C - 1); lia. }
  cbv zeta in Hg1, Hget1.
  match goal with
  | |- context [if _ =? _ then markLastBlock _ _ _ ?X else _] => set (M1 := X) in *
  end.
  destruct (Z.eqb_spec (k0 * BlockSize C) ((wholeBlocks C - 1) * BlockSize C))
    as [Hlast|Hnot].
  - assert (Hk0l : k0 = wholeBlocks C - 1) by nia.
    unfold markLastBlock.
    rewrite (wrap_small ((wholeBlocks C - 1) * BlockSize C + BlockSize C)) by nia.
    replace ((wholeBlocks C - 1) * BlockSize C + BlockSize C)
      with (wholeBlocks C * BlockSize C) by ring.
    assert (Hgb : gridBlocks C <= RoundedRegionSize C).
    { assert (Hx : gridBlocks C - 1 < gridBlocks C) by lia.
      apply Hgrid in Hx. nia. }
    destruct (markLastBlockLoop_spec R0 (Z.to_nat (gridBlocks C - wholeBlocks C))
                (wholeBlocks C) M1 (markLastBlockFuel C))
      as (M' & Hrun & Hg' & Hget'); try lia.
    + unfold markLastBlockFuel. lia.
    + eapply sameGeometry_wf; eassumption.
    + destruct Hg1 as (-> & _); exact HRe.
    + destruct Hg1 as (_ & -> & _); exact HNc.
    + intros J HJ. rewrite Hget1 by (unfold valid; lia).
      destruct Hg1 as (_ & _ & _ & -> & _).
      specialize (Hroom R0 J ltac:(unfold valid; lia)).
      rewrite Hcontrib, Z.eqb_refl in Hroom.
      destruct (Z.eqb_spec k0 (wholeBlocks C - 1)); [|lia].
      rewrite Z.eqb_refl. simpl. lia.
    + exists M'. split; [exact Hrun|]. split;
        [eapply sameGeometry_trans; eassumption|].
      intros R J Hv.
      rewrite Hget' by (eapply sameGeometry_valid; eassumption).
      rewrite Hget1 by assumption. rewrite Hcontrib.
      destruct (Z.eqb_spec k0 (wholeBlocks C - 1)); [|lia].
      destruct (R =? R0); simpl; lia.
  - exists M1. split; [reflexivity|]. split; [exact Hg1|].
    intros R J Hv. rewrite Hget1 by assumption. rewrite Hcontrib.
    destruct (Z.eqb_spec k0 (wholeBlocks C - 1)) as [Hl|]; [subst; lia|].
    destruct (R =? R0); simpl; lia.
Qed.

Lemma markBatch_spec DecompactPtr Base It : forall M,
  wf M -> Regions M = NumberOfRegions C -> NumCounters M = PagesCount C ->
  Forall (blockStart C) (map (fun h => DecompactPtr h - Base) It) ->
  roomForAll C M (map (fun h => DecompactPtr h - Base) It) ->
  exists M',
    markBatch C DecompactPtr Base
      (wrap (wrap (RegionSize C / BlockSize C - 1) * BlockSize C)) It M
    = Some M' /\
    sameGeometry M M' /\
    forall R J, valid M R J ->
      get M' R J
      = get M R J + marked C (map (fun h => DecompactPtr h - Base) It) R J.
Proof.
  induction It as [|h rest IH]; intros M Hwf HRe HNc Hall Hroom.
  - exists M. split; [reflexivity|]. split; [apply sameGeometry_refl|].
    intros R J _. simpl. lia.
  - cbn [map] in Hall, Hroom. apply Forall_cons in Hall. destruct Hall as [Hh Hall].
    destruct (markBlock_spec DecompactPtr Base h M Hwf HRe HNc Hh)
      as (M1 & Hrun1 & Hg1 & Hget1).
    { intros R J Hv. specialize (Hroom R J Hv). cbn [marked fold_right] in Hroom.
      fold (marked C (map (fun h => DecompactPtr h - Base) rest) R J) in Hroom.
      pose proof (marked_nonneg C (map (fun h => DecompactPtr h - Base) rest) R J).
      lia. }
    destruct (IH M1) as (M' & Hrun & Hg' & Hget').
    + eapply sameGeometry_wf; eassumption.
    + destruct Hg1 as (-> & _); exact HRe.
    + destruct Hg1 as (_ & -> & _); exact HNc.
    + exact Hall.
    + intros R J Hv.
      assert (Hv0 : valid M R J).
      { destruct Hg1 as (E1 & E2 & _). unfold valid in *. rewrite <- E1, <- E2.
        exact Hv. }
      rewrite Hget1 by assumption. destruct Hg1 as (_ & _ & _ & -> & _).
      specialize (Hroom R J Hv0). cbn [marked fold_right] in Hroom.
      fold (marked C (map (fun h => DecompactPtr h - Base) rest) R J) in Hroom.
      lia.
    + exists M'. cbn [markBatch]. rewrite Hrun1. split; [exact Hrun|].
      split; [eapply sameGeometry_trans; eassumption|].
      intros R J Hv.
      rewrite Hget' by (eapply sameGeometry_valid; eassumption).
      rewrite Hget1 by assumption. cbn [map marked fold_right].
      fold (marked C (map (fun h => DecompactPtr h - Base) rest) R J). lia.
Qed.

Lemma markBatches_spec DecompactPtr Base FreeList : forall M,
  wf M -> Regions M = NumberOfRegions C -> NumCounters M = PagesCount C ->
  Forall (blockStart C) (offsetsOf FreeList DecompactPtr Base) ->
  roomForAll C M (offsetsOf FreeList DecompactPtr Base) ->
  exists M',
    markBatches C DecompactPtr Base
      (wrap (wrap (RegionSize C / BlockSize C - 1) * BlockSize C)) FreeList M
    = Some M' /\
    sameGeometry M M' /\
    forall R J, valid M R J ->
      get M' R J = get M R J + marked C (offsetsOf FreeList DecompactPtr Base) R J.
Proof.
  induction FreeList as [|It rest IH]; intros M Hwf HRe HNc Hall Hroom.
  - exists M. split; [reflexivity|]. split; [apply sameGeometry_refl|].
    intros R J _. simpl. lia.
  - unfold offsetsOf in Hall, Hroom |- *. cbn [concat] in Hall, Hroom |- *.
    rewrite map_app in Hall, Hroom |- *.
    fold (offsetsOf rest DecompactPtr Base) in Hall, Hroom |- *.
    apply Forall_app in Hall. destruct Hall as [HIt Hall].
    destruct (markBatch_spec DecompactPtr Base It M Hwf HRe HNc HIt)
      as (M1 & Hrun1 & Hg1 & Hget1).
    { intros R J Hv. specialize (Hroom R J Hv). rewrite marked_app in Hroom.
      pose proof (marked_nonneg C (offsetsOf rest DecompactPtr Base) R J). lia. }
    destruct (IH M1) as (M' & Hrun & Hg' & Hget').
    + eapply sameGeometry_wf; eassumption.
    + destruct Hg1 as (-> & _); exact HRe.
    + destruct Hg1 as (_ & -> & _); exact HNc.
    + exact Hall.
    + intros R J Hv.
      assert (Hv0 : valid M R J).
      { destruct Hg1 as (E1 & E2 & _). unfold valid in *. rewrite <- E1, <- E2.
        exact Hv. }
      rewrite Hget1 by assumption. destruct Hg1 as (_ & _ & _ & -> & _).
      specialize (Hroom R J Hv0). rewrite marked_app in Hroom. lia.
    + exists M'. cbn [markBatches]. rewrite Hrun1. split; [exact Hrun|].
      split; [eapply sameGeometry_trans; eassumption|].
      intros R J Hv.
      rewrite Hget' by (eapply sameGeometry_valid; eassumption).
      rewrite Hget1 by assumption. rewrite marked_app. lia.
Qed.
End MarkFreeList.

(** ** The count of a page against the blocks on it *)

Section CountVersusBlocks.
Import MarkSpec PageReleaseContext RegionPageMap RegionPageMapSpec ScanSpec.

Variables (lg : Z) (C : PageReleaseContext.t).
Hypothesis Hgeo : geometry lg C.

Lemma page_in_region J :
  0 <= J < PagesCount C ->
  0 <= J * PageSize C /\ (J + 1) * PageSize C <= RoundedRegionSize C /\
  0 <= J * PageSize C / BlockSize C <= ((J + 1) * PageSize C - 1) / BlockSize C /\
  ((J + 1) * PageSize C - 1) / BlockSize C < gridBlocks C.
Proof.
  intros HJ.
  destruct (geo_facts lg C Hgeo) as (HS & HPC & HN & HNB & HNN & Hgrid & Hfit & Hfit2).
  pose proof (geo_block lg C Hgeo) as HB.
  pose proof (geo_rounded lg C Hgeo) as Hrounded.
  assert (H1 : 0 <= J * PageSize C) by nia.
  assert (H2 : (J + 1) * PageSize C <= RoundedRegionSize C) by nia.
  split; [exact H1|]. split; [exact H2|]. split; [split|].
  - apply Z.div_pos; lia.
  - apply Z.div_le_mono; lia.
  - apply Hgrid.
    pose proof (Z.mul_div_le ((J + 1) * PageSize C - 1) (BlockSize C) ltac:(lia)).
    nia.
Qed.

(** The blocks on a page are whole blocks of the region and pretend
    blocks. *)
Lemma fullCount_split J :
  0 <= J < PagesCount C ->
  fullCount (PageSize C) (BlockSize C) J
  = gridCount (PageSize C) (BlockSize C) 0 (wholeBlocks C) J
    + gridCount (PageSize C) (BlockSize C) (wholeBlocks C) (gridBlocks C) J.
Proof.
  intros HJ.
  destruct (geo_facts lg C Hgeo) as (HS & HPC & HN & HNB & HNN & Hgrid & Hfit & Hfit2).
  pose proof (geo_block lg C Hgeo) as HB.
  destruct (page_in_region J HJ) as (H1 & H2 & H3 & H4).
  rewrite !gridCount_interval by lia. unfold fullCount. lia.
Qed.

(** A page has pretend blocks on it when it reaches past the last whole
    block. *)
Lemma pretend_positive J :
  0 <= J < PagesCount C ->
  0 < gridCount (PageSize C) (BlockSize C) (wholeBlocks C) (gridBlocks C) J <->
  wholeBlocks C * BlockSize C < (J + 1) * PageSize C.
Proof.
  intros HJ.
  destruct (geo_facts lg C Hgeo) as (HS & HPC & HN & HNB & HNN & Hgrid & Hfit & Hfit2).
  pose proof (geo_block lg C Hgeo) as HB.
  destruct (page_in_region J HJ) as (H1 & H2 & H3 & H4).
  rewrite gridCount_interval by lia.
  set (hi := ((J + 1) * PageSize C - 1) / BlockSize C) in *.
  assert (Hhi : wholeBlocks C <= hi <-> wholeBlocks C * BlockSize C < (J + 1) * PageSize C).
  { unfold hi. split; intros H.
    - pose proof (Z.mul_div_le ((J + 1) * PageSize C - 1) (BlockSize C) ltac:(lia)).
      nia.
    - apply Z.div_le_lower_bound; lia. }
  lia.
Qed.

(** The count of a free list never exceeds the number of blocks on the
    page, and reaches it exactly when every whole block on the page is free
    and, if the page reaches past the last whole block, that block is
    free. *)
Lemma marked_full offsets R J :
  0 <= R -> 0 <= J < PagesCount C ->
  Forall (blockStart C) offsets -> NoDup offsets ->
  marked C offsets R J <= fullCount (PageSize C) (BlockSize C) J /\
  (marked C offsets R J = fullCount (PageSize C) (BlockSize C) J <->
   (forall k, 0 <= k < wholeBlocks C ->
      touchesb (PageSize C) (BlockSize C) k J = true ->
      freeb C offsets R k = true) /\
   (wholeBlocks C * BlockSize C < (J + 1) * PageSize C ->
      freeb C offsets R (wholeBlocks C - 1) = true)).
Proof.
  intros HR HJ Hall Hnd.
  destruct (geo_facts lg C Hgeo) as (HS & HPC & HN & HNB & HNN & Hgrid & Hfit & Hfit2).
  pose proof (geo_block lg C Hgeo) as HB.
  rewrite (marked_count C HB offsets R J HR Hall Hnd).
  rewrite (fullCount_split J HJ).
  pose proof (pretend_positive J HJ) as Hpos.
  pose proof (gridCount_nonneg (PageSize C) (BlockSize C) (wholeBlocks C)
                (gridBlocks C) J) as Hnn.
  set (pc := gridCount (PageSize C) (BlockSize C) (wholeBlocks C) (gridBlocks C) J) in *.
  clearbody pc. unfold gridCount. rewrite Z.sub_0_r.
  pose proof (countFrom_and_le (fun k => touchesb (PageSize C) (BlockSize C) k J)
                (fun k => freeb C offsets R k) (Z.to_nat (wholeBlocks C)) 0) as Hle.
  pose proof (countFrom_and_eq (fun k => touchesb (PageSize C) (BlockSize C) k J)
                (fun k => freeb C offsets R k) (Z.to_nat (wholeBlocks C)) 0) as Heq.
  cbv beta in Hle, Heq. rewrite Z2Nat.id in Heq by lia.
  set (free := countFrom (fun k => touchesb (PageSize C) (BlockSize C) k J
                                  && freeb C offsets R k) 0 _) in *.
  set (all := countFrom (fun k => touchesb (PageSize C) (BlockSize C) k J) 0 _) in *.
  split.
  - destruct (freeb C offsets R (wholeBlocks C - 1)); lia.
  - split.
    + intros He.
      assert (Hfa : free = all) by (destruct (freeb C offsets R (wholeBlocks C - 1)); lia).
      split.
      * intros k Hk Ht. apply (proj1 Heq Hfa k); [lia|exact Ht].
      * intros Hpast. apply Hpos in Hpast.
        destruct (freeb C offsets R (wholeBlocks C - 1)); [reflexivity|lia].
    + intros [Hreal Hlast].
      assert (Hfa : free = all).
      { apply Heq. intros k Hk Ht. apply Hreal; [lia|exact Ht]. }
      destruct (freeb C offsets R (wholeBlocks C - 1)) eqn:Hf; [lia|].
      destruct (Z_lt_le_dec 0 pc) as [Hp|Hp]; [|lia].
      apply Hpos in Hp. specialize (Hlast Hp). discriminate.
Qed.

(** On both paths the scan expects of a page the number of blocks on it. *)
Lemma slowStateAt_spec (n : nat) :
  Z.of_nat n <= PagesCount C ->
  exists c q, slowStateAt C (Z.of_nat n) = (Z.of_nat n * PageSize C, c) /\
              c = q * BlockSize C /\
              Z.of_nat n * PageSize C <= c < Z.of_nat n * PageSize C + BlockSize C.
Proof.
  destruct (geo_facts lg C Hgeo) as (HS & HPC & HN & HNB & HNN & Hgrid & Hfit & Hfit2).
  pose proof (geo_block lg C Hgeo) as HB.
  pose proof (geo_rounded lg C Hgeo) as Hrounded.
  induction n as [|n IH]; intros Hn.
  - exists 0, 0. split; [|lia].
    unfold slowStateAt. rewrite for_range_nil by lia.
    unfold slowInit. rewrite (geo_offset lg C Hgeo). reflexivity.
  - destruct IH as (c & q & Hst & Hc & Hrange); [lia|].
    rewrite Nat2Z.inj_succ. unfold Z.succ.
    rewrite slowStateAt_succ by lia. rewrite Hst.
    destruct (slowBlocks_spec (PageSize C) (BlockSize C)
                (Z.of_nat n * PageSize C) c q HS ltac:(lia) ltac:(nia) Hc Hrange)
      as (c' & q' & Hrun & Hc' & Hrange'); [nia|].
    unfold slowPnc, slowPn. rewrite Hrun. cbn [snd].
    exists c', q'. split; [f_equal; ring|]. split; [exact Hc'|]. lia.
Qed.

Lemma expectedBlocks_fullCount J :
  0 <= J < PagesCount C ->
  expectedBlocks C J = fullCount (PageSize C) (BlockSize C) J.
Proof.
  intros HJ.
  destruct (geo_facts lg C Hgeo) as (HS & HPC & HN & HNB & HNN & Hgrid & Hfit & Hfit2).
  pose proof (geo_block lg C Hgeo) as HB.
  pose proof (geo_rounded lg C Hgeo) as Hrounded.
  pose proof (geo_class lg C Hgeo) as Hclass.
  unfold expectedBlocks.
  destruct (SameBlockCountPerPage C) eqn:Hsame.
  - symmetry. apply fullCount_same; try lia. exact Hclass.
  - destruct (slowStateAt_spec (Z.to_nat J)) as (c & q & Hst & Hc & Hrange); [lia|].
    rewrite Z2Nat.id in * by lia. rewrite Hst.
    destruct (slowBlocks_spec (PageSize C) (BlockSize C) (J * PageSize C) c q
                HS ltac:(lia) ltac:(nia) Hc Hrange)
      as (c' & q' & Hrun & _); [nia|].
    unfold slowPnc, slowPn. rewrite Hrun. cbn [fst]. unfold fullCount.
    f_equal. f_equal. f_equal. ring.
Qed.
End CountVersusBlocks.

(** ** The pages the tracker releases *)

Section Coverage.
Import MarkSpec FreePagesRangeTracker TrackerSpec.

Variables (lg : Z) (v : Z -> bool).
Hypothesis Hlg : 0 <= lg.

Lemma covered_snoc log f t' p :
  covered lg (log ++ [(f, t')]) p <-> covered lg log p \/ f <= p * 2 ^ lg < t'.
Proof.
  unfold covered. split.
  - intros (From & To & Hin & Hr). apply elem_of_app in Hin.
    destruct Hin as [Hin|Hin].
    + left. exists From, To. split; assumption.
    + apply list_elem_of_singleton in Hin. inversion Hin; subst. right. exact Hr.
  - intros [(From & To & Hin & Hr)|Hr].
    + exists From, To. split; [apply elem_of_app; left; exact Hin|exact Hr].
    + exists f, t'. split; [apply elem_of_app; right; apply list_elem_of_singleton;
                            reflexivity|exact Hr].
Qed.

Lemma fed_step n T :
  0 <= n -> (n + 1) * 2 ^ lg < uptr_modulus ->
  fed lg v n T -> fed lg v (n + 1) (processNextPage T (v n)).
Proof.
  intros Hn Hfit ((Hlog & _ & Hcur & Hin) & Hpage & Hopen & Hcov).
  pose proof (pow2_pos lg Hlg) as Hpow.
  assert (Hw : wrap (CurrentPage T + 1) = n + 1)
    by (rewrite Hpage; apply wrap_small; nia).
  unfold fed, wf, lower in *.
  unfold processNextPage, closeOpenedRange, advance.
  destruct (v n) eqn:Hv, (InRange T) eqn:HIn;
    cbn [negb InRange CurrentPage CurrentRangeStatePage PageSizeLog Recorder
         releasePageRangeToOS RangeLog_recorder];
    rewrite ?Hw, ?HIn.
  - specialize (Hin eq_refl). specialize (Hopen eq_refl).
    split; [repeat split; try assumption; try lia|].
    split; [reflexivity|]. split; [|exact Hcov].
    intros _ p Hp. destruct (Z.eq_dec p n) as [->|]; [exact Hv|]. apply Hopen. lia.
  - split; [repeat split; try assumption; try lia|].
    split; [reflexivity|]. split.
    + intros _ p Hp. assert (p = n) by lia. subst p. exact Hv.
    + intros p. rewrite Hcov, Hpage. reflexivity.
  - specialize (Hin eq_refl). specialize (Hopen eq_refl).
    split; [repeat split; try assumption; try lia; discriminate|].
    split; [reflexivity|]. split; [discriminate|].
    intros p. rewrite covered_snoc, Hcov, Hlog.
    rewrite (shift_page (CurrentRangeStatePage T) lg) by (try lia; nia).
    rewrite (shift_page (CurrentPage T) lg) by (try lia; nia).
    rewrite Hpage. split.
    + intros [[Hp Hvp]|Hp].
      * split; [lia|exact Hvp].
      * assert (Hp' : CurrentRangeStatePage T <= p < n) by nia.
        split; [lia|]. apply Hopen. exact Hp'.
    + intros [Hp Hvp].
      destruct (Z_lt_le_dec p (CurrentRangeStatePage T)); [left; split; [lia|exact Hvp]|].
      right. assert (p <> n) by (intros ->; congruence). nia.
  - split; [repeat split; try assumption; try lia; discriminate|].
    split; [reflexivity|]. split; [discriminate|].
    intros p. rewrite Hcov, Hpage. split.
    + intros [Hp Hvp]. split; [lia|exact Hvp].
    + intros [Hp Hvp]. split; [|exact Hvp].
      assert (p <> n) by (intros ->; congruence). lia.
Qed.

Lemma fed_run (n : nat) T0 :
  Z.of_nat n * 2 ^ lg < uptr_modulus ->
  fed lg v 0 T0 ->
  fed lg v (Z.of_nat n)
    (run T0 (map (fun p => ProcessNextPage (v p)) (seqZ 0 (Z.of_nat n)))).
Proof.
  pose proof (pow2_pos lg Hlg) as Hpow.
  induction n as [|n IH]; intros Hfit H0.
  - exact H0.
  - rewrite seqZ_S, map_app, run_app. cbn [map run fold_left step].
    rewrite Z.add_0_l. rewrite Nat2Z.inj_succ. unfold Z.succ.
    apply fed_step; [lia|lia|]. apply IH; [nia|exact H0].
Qed.

(** After [finish] the log covers exactly the released pages. *)
Lemma fed_finish n T p :
  0 <= n -> n * 2 ^ lg < uptr_modulus -> fed lg v n T ->
  covered lg (Recorder (finish T)) p <-> 0 <= p < n /\ v p = true.
Proof.
  intros Hn Hfit ((Hlog & _ & Hcur & Hin) & Hpage & Hopen & Hcov).
  pose proof (pow2_pos lg Hlg) as Hpow.
  unfold finish, closeOpenedRange, lower in *.
  destruct (InRange T) eqn:HIn;
    cbn [Recorder releasePageRangeToOS RangeLog_recorder].
  - specialize (Hin eq_refl). specialize (Hopen eq_refl).
    rewrite covered_snoc, Hcov, Hlog.
    rewrite (shift_page (CurrentRangeStatePage T) lg) by (try lia; nia).
    rewrite (shift_page (CurrentPage T) lg) by (try lia; nia).
    rewrite Hpage. split.
    + intros [[Hp Hvp]|Hp].
      * split; [lia|exact Hvp].
      * assert (Hp' : CurrentRangeStatePage T <= p < n) by nia.
        split; [lia|]. apply Hopen. exact Hp'.
    + intros [Hp Hvp].
      destruct (Z_lt_le_dec p (CurrentRangeStatePage T)); [left; split; [lia|exact Hvp]|].
      right. nia.
  - rewrite Hcov, Hpage. reflexivity.
Qed.

Lemma fed_init Pf :
  PageSizeCached Pf = 2 ^ lg -> fed lg v 0 (init Pf ([] : RangeLog)).
Proof.
  intros HP. unfold fed, wf, lower, init, covered; simpl.
  unfold getLog2, getPageSizeCached. rewrite HP, Z.log2_pow2 by lia.
  split; [repeat split; try lia; discriminate|]. split; [reflexivity|].
  split; [discriminate|].
  intros p. split.
  - intros (From & To & Hin & _). inversion Hin.
  - intros [Hp _]. lia.
Qed.
End Coverage.

(** ** The calls of a scan that skips no region *)

Section Flatten.
Import ScanSpec FreePagesRangeTracker.

Lemma map_seqZ_shift {A} (f : Z -> A) a n :
  map f (seqZ a n) = map (fun x => f (a + x)) (seqZ 0 n).
Proof.
  destruct (Z_le_gt_dec n 0) as [Hn|Hn]; [rewrite !seqZ_nil by lia; reflexivity|].
  rewrite <- (Z2Nat.id n) by lia.
  induction (Z.to_nat n) as [|m IH]; [reflexivity|].
  rewrite !seqZ_S, !map_app, IH. simpl. rewrite Z.add_0_l. reflexivity.
Qed.

Lemma scanCalls_flat C M (n : nat) :
  0 < PageReleaseContext.PagesCount C ->
  scanCalls C M (fun _ => false) (Z.of_nat n)
  = map (fun p => ProcessNextPage
                    (canRelease C M (p / PageReleaseContext.PagesCount C)
                                    (p mod PageReleaseContext.PagesCount C)))
        (seqZ 0 (Z.of_nat n * PageReleaseContext.PagesCount C)).
Proof.
  intros HPC. set (PC := PageReleaseContext.PagesCount C) in *.
  induction n as [|n IH]; [reflexivity|].
  rewrite Nat2Z.inj_succ. unfold Z.succ.
  rewrite scanCalls_snoc by lia. rewrite IH.
  replace ((Z.of_nat n + 1) * PC) with (Z.of_nat n * PC + PC) by ring.
  rewrite seqZ_app by nia. rewrite map_app. f_equal.
  unfold regionCalls, pageCalls. fold PC. rewrite Z.add_0_l.
  rewrite (map_seqZ_shift _ (Z.of_nat n * PC)).
  apply map_ext_in. intros J HJ. apply list_elem_of_In, elem_of_seqZ in HJ.
  f_equal. f_equal.
  - rewrite Z.add_comm, Z.div_add by lia. rewrite Z.div_small by lia. lia.
  - rewrite Z.add_comm, Z.mod_add by lia. rewrite Z.mod_small by lia. reflexivity.
Qed.
End Flatten.

(** ** Correctness of the release *)

Section Correctness.
Import MarkSpec PageReleaseContext RegionPageMap RegionPageMapSpec ScanSpec.

Lemma get_zero m Region J :
  wf m -> valid m Region J ->
  (forall i, 0 <= i < Regions m * SizePerRegion m -> load m i = 0) ->
  get m Region J = 0.
Proof.
  intros Hwf Hv Hzero. rewrite get_field by assumption.
  destruct (wordIndex_eq m Region J Hwf Hv) as [_ Hi].
  rewrite Hzero by lia. unfold field.
  rewrite Z.div_0_l, Z.mod_0_l; try reflexivity.
  - pose proof (pow2_pos (bits m)). pose proof (bits_range m Hwf). lia.
  - destruct (bitOffset_eq m J Hwf (proj1 (proj2 Hv))) as (_ & Ho & _).
    pose proof (pow2_pos _ Ho). lia.
Qed.

Lemma reset_allocated Pf NumberOfRegion CountersPerRegion MaxValue :
  (forall n, MapSucceeds Pf n = true) ->
  isAllocated (fst (reset Pf NumberOfRegion CountersPerRegion MaxValue)) = true /\
  PageSizeCached (snd (reset Pf NumberOfRegion CountersPerRegion MaxValue))
  = PageSizeCached Pf.
Proof.
  intros Hmap. unfold reset. cbv zeta.
  destruct (_ && _); [split; reflexivity|].
  rewrite Hmap. split; reflexivity.
Qed.

Lemma geometry_withPageMap lg C M :
  geometry lg C -> geometry lg (withPageMap C M).
Proof. intros []. constructor; assumption. Qed.

(** The constructor, called for whole regions, builds such a context. *)
Lemma create_geometry Pf lg BlockSize' RegionSize' NumberOfRegions' :
  PageSizeCached Pf = 2 ^ lg -> 0 <= lg < 64 ->
  1 <= BlockSize' <= RegionSize' -> 1 <= NumberOfRegions' ->
  8 * NumberOfRegions' * (RegionSize' + 2 ^ lg) + 2 * 2 ^ lg + 2 * BlockSize' + 64
    <= uptr_modulus ->
  let C := create Pf BlockSize' RegionSize' NumberOfRegions' RegionSize' 0 in
  geometry lg C /\ PageMap C = RegionPageMap.empty /\
  PageSize C = 2 ^ lg /\ BlockSize C = BlockSize' /\ RegionSize C = RegionSize' /\
  NumberOfRegions C = NumberOfRegions'.
Proof.
  intros HP Hlg HB HNR Hfit C.
  pose proof (pow2_pos lg ltac:(lia)) as Hpow.
  destruct (roundUp_eq RegionSize' (2 ^ lg) ltac:(lia) Hpow ltac:(nia)) as [Hru Hrub].
  unfold C, create, getPageSizeCached. rewrite HP.
  destruct (classify BlockSize' (2 ^ lg)) as [Max Same] eqn:Hclass.
  split; [|repeat split].
  constructor; cbn [PageSize PageSizeLog BlockSize RegionSize NumberOfRegions
                    ReleasePageOffset RoundedRegionSize PagesCount RoundedSize
                    FullPagesBlockCountMax SameBlockCountPerPage];
    try assumption; try lia; try reflexivity.
  - unfold getLog2. apply Z.log2_pow2; lia.
  - apply Z.shiftr_0_l.
  - rewrite Hru at 1 2. rewrite Z.div_mul by lia. reflexivity.
  - apply wrap_small. nia.
Qed.

(** [markFreeBlocks] on a fresh context terminates and leaves in every
    counter the count of the free list. *)
Lemma markFreeBlocks_spec Pf lg C FreeList DecompactPtr Base :
  geometry lg C -> PageMap C = RegionPageMap.empty ->
  PageSizeCached Pf = PageSize C ->
  (forall n, MapSucceeds Pf n = true) ->
  Forall (blockStart C) (offsetsOf FreeList DecompactPtr Base) ->
  NoDup (offsetsOf FreeList DecompactPtr Base) ->
  exists C' Pf',
    markFreeBlocks Pf C FreeList DecompactPtr Base = Some (C', Pf') /\
    PageSizeCached Pf' = PageSizeCached Pf /\
    C' = withPageMap C (PageMap C') /\
    populated C' /\
    FullPagesBlockCountMax C <= CounterMask (PageMap C') /\
    forall Region J, 0 <= Region < NumberOfRegions C -> 0 <= J < PagesCount C ->
      get (PageMap C') Region J
      = marked C (offsetsOf FreeList DecompactPtr Base) Region J.
Proof.
  intros Hgeo Hempty HP Hmap Hall Hnd.
  destruct (geo_facts lg C Hgeo) as (HS & HPC & HN & HNB & HNN & Hgrid & Hfit & Hfit2).
  pose proof (geo_block lg C Hgeo) as HB.
  pose proof (geo_round lg C Hgeo) as Hround.
  pose proof (geo_rounded lg C Hgeo) as Hrounded.
  pose proof (geo_regions lg C Hgeo) as HNR.
  pose proof (geo_fit lg C Hgeo) as Hgfit.
  assert (HPCpos : 1 <= PagesCount C) by nia.
  assert (HSfit : PageSize C + 2 < uptr_modulus) by lia.
  destruct (fullCount_le_max (PageSize C) (BlockSize C) 0 _ _ HS ltac:(lia)
              ltac:(lia) HSfit (geo_class lg C Hgeo)) as [_ HMax].
  unfold markFreeBlocks, ensurePageMapAllocated.
  rewrite Hempty. cbn [isAllocated RegionPageMap.empty Buffer].
  destruct (reset_allocated Pf (NumberOfRegions C) (PagesCount C)
              (FullPagesBlockCountMax C) Hmap) as [Halloc HPf].
  destruct (reset Pf (NumberOfRegions C) (PagesCount C) (FullPagesBlockCountMax C))
    as [M0 Pf'] eqn:Hreset.
  cbn [fst snd] in Halloc, HPf.
  assert (Hcount : PagesCount C <= RegionSize C + PageSize C) by nia.
  assert (Hbuf : PagesCount C * 8 * NumberOfRegions C + PageSizeCached Pf + 64
                 <= uptr_modulus) by (rewrite HP; nia).
  assert (HMax' : 0 < FullPagesBlockCountMax C < uptr_modulus) by lia.
  assert (HPpos : 0 < PageSizeCached Pf) by lia.
  destruct (reset_wf Pf (NumberOfRegions C) (PagesCount C) (FullPagesBlockCountMax C)
              M0 Pf' ltac:(lia) ltac:(lia) HMax' HPpos
              Hbuf Hreset Halloc) as (Hwf & HRe & HNc & Hmask & Hzero).
  set (C1 := withPageMap C M0).
  assert (Hgeo1 : geometry lg C1) by (apply geometry_withPageMap; exact Hgeo).
  assert (Hroom : roomForAll C1 M0 (offsetsOf FreeList DecompactPtr Base)).
  { intros R J Hv. rewrite (get_zero M0 R J Hwf Hv Hzero).
    destruct Hv as [HvR HvJ]. rewrite HRe in HvR. rewrite HNc in HvJ.
    destruct (marked_full lg C Hgeo (offsetsOf FreeList DecompactPtr Base) R J
                ltac:(lia) HvJ Hall Hnd) as [Hle _].
    destruct (fullCount_le_max (PageSize C) (BlockSize C) J _ _ HS ltac:(lia)
                ltac:(lia) HSfit (geo_class lg C Hgeo)) as [[_ Hfc] _].
    change (marked C1 (offsetsOf FreeList DecompactPtr Base) R J)
      with (marked C (offsetsOf FreeList DecompactPtr Base) R J). lia. }
  destruct (markBatches_spec lg C1 Hgeo1 DecompactPtr Base FreeList M0 Hwf HRe HNc
              Hall Hroom) as (M' & Hrun & Hg & Hget).
  change (PageMap C1) with M0. rewrite Hrun.
  exists (withPageMap C1 M'), Pf'.
  split; [reflexivity|]. split; [exact HPf|]. split; [reflexivity|].
  pose proof Hg as (E1 & E2 & _ & E4 & _).
  split; [|split].
  - unfold populated. cbn [PageMap withPageMap NumberOfRegions PagesCount C1].
    split; [eapply sameGeometry_wf; eassumption|]. split; congruence.
  - cbn [PageMap withPageMap]. rewrite E4. exact Hmask.
  - intros R J HR HJ. cbn [PageMap withPageMap].
    assert (Hv : valid M0 R J) by (unfold valid; lia).
    rewrite Hget by exact Hv. rewrite (get_zero M0 R J Hwf Hv Hzero).
    reflexivity.
Qed.

(** A page that meets a whole block of a region is a page of that region,
    when there is one region only or the regions are whole pages. *)
Lemma page_in_its_region PC P S B NR p Region k :
  0 < P -> 1 <= PC -> 1 <= B -> 1 <= S ->
  NR = 1 \/ S = PC * P ->
  0 <= p < NR * PC -> 0 <= Region < NR -> 0 <= k -> (k + 1) * B <= S ->
  Region * S + k * B < (p + 1) * P -> p * P < Region * S + (k + 1) * B ->
  Region = p / PC /\
  k * B < (p mod PC + 1) * P /\ p mod PC * P < (k + 1) * B.
Proof.
  intros HP HPC HB HS Hplace Hp HR Hk Hwhole Ht1 Ht2.
  pose proof (Z.div_mod p PC ltac:(lia)) as Hdm.
  pose proof (Z.mod_pos_bound p PC ltac:(lia)) as Hmod.
  destruct Hplace as [Hone|Haligned].
  - assert (Region = 0) by lia. subst Region. subst NR.
    rewrite Z.div_small, Z.mod_small by lia. split; [reflexivity|]. lia.
  - remember (p / PC) as R0 eqn:HR0eq. remember (p mod PC) as J0 eqn:HJ0eq.
    clear HR0eq HJ0eq.
    assert (HpS : p * P = R0 * S + J0 * P) by (subst S p; ring).
    assert (Hp1 : (p + 1) * P = R0 * S + (J0 + 1) * P) by (subst S p; ring).
    assert (HJS : (J0 + 1) * P <= S).
    { subst S. apply Z.mul_le_mono_nonneg_r; lia. }
    assert (HJ0pos : 0 <= J0 * P) by (apply Z.mul_nonneg_nonneg; lia).
    assert (HkB : 0 <= k * B) by (apply Z.mul_nonneg_nonneg; lia).
    assert (HkB1 : (k + 1) * B = k * B + B) by ring.
    assert (Hle1 : Region < R0 + 1).
    { destruct (Z_lt_ge_dec Region (R0 + 1)) as [?|Hge]; [assumption|exfalso].
      assert ((R0 + 1) * S <= Region * S) by (apply Z.mul_le_mono_nonneg_r; lia).
      lia. }
    assert (Hle2 : R0 < Region + 1).
    { destruct (Z_lt_ge_dec R0 (Region + 1)) as [?|Hge]; [assumption|exfalso].
      assert ((Region + 1) * S <= R0 * S) by (apply Z.mul_le_mono_nonneg_r; lia).
      lia. }
    assert (HRR : Region = R0) by lia.
    split; [exact HRR|]. subst Region. lia.
Qed.

(** A region of whole pages is not rounded up. *)
Lemma aligned_region_pages PC P S :
  0 < P -> S <= PC * P < S + P -> S mod P = 0 -> S = PC * P.
Proof.
  intros HP Hround Hmod.
  apply Z.mod_divide in Hmod; [|lia]. destruct Hmod as [q Hq]. subst S.
  assert (q <= PC) by (apply (Z.mul_le_mono_pos_r _ _ P); lia).
  assert (PC < q + 1).
  { apply (Z.mul_lt_mono_pos_r P); [lia|]. lia. }
  f_equal. lia.
Qed.

(** C1, as the code has it.  Take whole regions ([ReleaseSize =
    RegionSize], [ReleaseOffset = 0]) of at least one block each, either
    one region only or regions whose size is a multiple of the page size,
    sizes that keep the engine's arithmetic within a word, a platform whose
    [map] succeeds, and a free list of distinct starts of whole blocks of
    the regions.  [markFreeBlocks] returns.  The page the scan counts as
    page [J] of region [Region] is the page at byte offset
    [Region * RegionSize + J * PageSize] from [Base], and the scan with a
    skip predicate that is never true releases it exactly when every whole
    block that meets the page is in the free list and, if the page reaches
    past the end of the last whole block of the region, that last block is
    in the free list.  In particular no released page holds a byte of a
    whole block, of whatever region, that is not in the free list. *)
Theorem release_correct Pf lg BlockSize' RegionSize' NumberOfRegions'
    FreeList DecompactPtr Base :
  PageSizeCached Pf = 2 ^ lg -> 0 <= lg < 64 ->
  1 <= BlockSize' <= RegionSize' -> 1 <= NumberOfRegions' ->
  NumberOfRegions' = 1 \/ RegionSize' mod 2 ^ lg = 0 ->
  8 * NumberOfRegions' * (RegionSize' + 2 ^ lg) + 2 * 2 ^ lg + 2 * BlockSize' + 64
    <= uptr_modulus ->
  (forall n, MapSucceeds Pf n = true) ->
  let C := create Pf BlockSize' RegionSize' NumberOfRegions' RegionSize' 0 in
  let offsets := offsetsOf FreeList DecompactPtr Base in
  Forall (blockStart C) offsets -> NoDup offsets ->
  exists C' Pf',
    markFreeBlocks Pf C FreeList DecompactPtr Base = Some (C', Pf') /\
    let log := snd (releaseFreeMemoryToOS Pf' C' ([] : RangeLog) (fun _ => false)) in
    (forall Region J, 0 <= Region < NumberOfRegions' -> 0 <= J < PagesCount C ->
       (Region * PagesCount C + J) * 2 ^ lg = Region * RegionSize' + J * 2 ^ lg /\
       (covered lg log (Region * PagesCount C + J) <->
        (forall k, 0 <= k < RegionSize' / BlockSize' ->
           k * BlockSize' < (J + 1) * 2 ^ lg /\ J * 2 ^ lg < (k + 1) * BlockSize' ->
           In (Region * RegionSize' + k * BlockSize') offsets) /\
        (RegionSize' / BlockSize' * BlockSize' < (J + 1) * 2 ^ lg ->
           In (Region * RegionSize' + (RegionSize' / BlockSize' - 1) * BlockSize')
              offsets))) /\
    (forall p Region k, covered lg log p ->
       0 <= Region < NumberOfRegions' -> 0 <= k < RegionSize' / BlockSize' ->
       Region * RegionSize' + k * BlockSize' < (p + 1) * 2 ^ lg /\
       p * 2 ^ lg < Region * RegionSize' + (k + 1) * BlockSize' ->
       In (Region * RegionSize' + k * BlockSize') offsets).
Proof.
  intros HP Hlg HB HNR Halign Hfit Hmap C offsets Hall Hnd.
  pose proof (create_geometry Pf lg BlockSize' RegionSize' NumberOfRegions'
                HP Hlg HB HNR Hfit) as Hcreate.
  cbv zeta in Hcreate. fold C in Hcreate. clearbody C.
  destruct Hcreate as (Hgeo & Hempty & HS & HBs & HRs & HNRs).
  assert (Hlg0 : 0 <= lg) by lia.
  destruct (markFreeBlocks_spec Pf lg C FreeList DecompactPtr Base Hgeo Hempty
              ltac:(congruence) Hmap Hall Hnd)
    as (C' & Pf' & Hmark & HPf' & HC' & Hpop & Hmask & Hget).
  exists C', Pf'. split; [exact Hmark|]. cbv zeta.
  destruct (geo_facts lg C Hgeo) as (HSpos & HPC & HN & HNB & HNN & Hgrid & Hfit1 & Hfit2).
  pose proof (geo_round lg C Hgeo) as Hround.
  pose proof (geo_rounded lg C Hgeo) as Hrounded.
  assert (HPCpos : 1 <= PagesCount C).
  { destruct (Z_lt_ge_dec 0 (PagesCount C)) as [?|Hz]; [lia|exfalso].
    assert (PagesCount C * PageSize C <= 0) by (apply Z.mul_nonpos_nonneg; lia).
    pose proof (geo_block lg C Hgeo). lia. }
  remember (PageMap C') as M eqn:HM.
  assert (HPC' : PagesCount C' = PagesCount C) by (rewrite HC'; reflexivity).
  assert (HNR' : NumberOfRegions C' = NumberOfRegions') by (rewrite HC'; exact HNRs).
  (* the log is the run of the tracker over the verdicts *)
  pose proof (release_spec Pf' C' (fun _ => false) Hpop ltac:(lia)) as Hrel.
  cbv zeta in Hrel.
  destruct (releaseFreeMemoryToOS Pf' C' ([] : RangeLog) (fun _ => false))
    as [C2 log].
  destruct Hrel as (_ & _ & Hlog & _ & _). cbn [snd]. rewrite <- HM in Hlog.
  rewrite run_app in Hlog. cbn [FreePagesRangeTracker.run fold_left
                                  FreePagesRangeTracker.step] in Hlog.
  rewrite HNR' in Hlog. rewrite <- (Z2Nat.id NumberOfRegions') in Hlog by lia.
  rewrite scanCalls_flat in Hlog by lia.
  rewrite Z2Nat.id in Hlog by lia. rewrite HPC' in Hlog.
  assert (Hpages : 0 <= NumberOfRegions' * PagesCount C) by nia.
  set (v := fun p => canRelease C' M (p / PagesCount C) (p mod PagesCount C)) in *.
  assert (Htotal : NumberOfRegions' * PagesCount C * 2 ^ lg < uptr_modulus).
  { rewrite <- HS, <- HNRs.
    replace (NumberOfRegions C * PagesCount C * PageSize C)
      with (NumberOfRegions C * (PagesCount C * PageSize C)) by ring.
    rewrite <- Hrounded. exact Hfit2. }
  assert (HPf2 : PageSizeCached Pf' = 2 ^ lg) by congruence.
  pose proof (fed_run lg v Hlg0
                (Z.to_nat (NumberOfRegions' * PagesCount C))
                (FreePagesRangeTracker.init Pf' ([] : RangeLog))) as Hfed.
  rewrite Z2Nat.id in Hfed by exact Hpages.
  specialize (Hfed Htotal (fed_init lg v Hlg0 Pf' HPf2)).
  assert (Hcovered : forall p, covered lg log p <->
            0 <= p < NumberOfRegions' * PagesCount C /\ v p = true).
  { intros p. rewrite Hlog.
    exact (fed_finish lg v Hlg0 _ _ p Hpages Htotal Hfed). }
  (* the pages of a region lie where the region lies *)
  assert (Hplace : NumberOfRegions' = 1 \/ RegionSize' = PagesCount C * 2 ^ lg).
  { destruct Halign as [Hone|Hmod]; [left; exact Hone|right].
    rewrite <- HS, <- HRs. rewrite <- HS, <- HRs in Hmod.
    apply aligned_region_pages; [exact HSpos| |exact Hmod].
    rewrite <- Hrounded. exact Hround. }
  (* the verdict on page [J] of region [Region] *)
  assert (Hpage : forall Region J,
            0 <= Region < NumberOfRegions' -> 0 <= J < PagesCount C ->
            (covered lg log (Region * PagesCount C + J) <->
             (forall k, 0 <= k < RegionSize' / BlockSize' ->
                k * BlockSize' < (J + 1) * 2 ^ lg /\ J * 2 ^ lg < (k + 1) * BlockSize' ->
                In (Region * RegionSize' + k * BlockSize') offsets) /\
             (RegionSize' / BlockSize' * BlockSize' < (J + 1) * 2 ^ lg ->
                In (Region * RegionSize' + (RegionSize' / BlockSize' - 1) * BlockSize')
                   offsets))).
  { intros Region J HR HJ. rewrite Hcovered.
    assert (Hv : v (Region * PagesCount C + J) = canRelease C' M Region J).
    { unfold v. f_equal.
      - rewrite Z.add_comm, Z.div_add by lia. rewrite Z.div_small by lia. lia.
      - rewrite Z.add_comm, Z.mod_add by lia. apply Z.mod_small; lia. }
    rewrite Hv.
    assert (Hexp : expectedBlocks C' J = fullCount (PageSize C) (BlockSize C) J).
    { rewrite HC'. apply (expectedBlocks_fullCount lg (withPageMap C M)).
      - apply geometry_withPageMap; exact Hgeo.
      - exact HJ. }
    destruct (marked_full lg C Hgeo offsets Region J ltac:(lia) HJ Hall Hnd)
      as [Hle Hfull].
    destruct (fullCount_le_max (PageSize C) (BlockSize C) J _ _ HSpos
                ltac:(pose proof (geo_block lg C Hgeo); lia) ltac:(lia)
                ltac:(lia) (geo_class lg C Hgeo)) as [[_ Hfc] _].
    assert (Hcan : canRelease C' M Region J = true <->
                   marked C offsets Region J = fullCount (PageSize C) (BlockSize C) J).
    { unfold canRelease. rewrite Hexp, Hget by lia. fold offsets.
      rewrite orb_true_iff, !Z.eqb_eq. lia. }
    rewrite Hcan, Hfull.
    unfold wholeBlocks, freeb. rewrite HS, HBs, HRs.
    split.
    - intros (_ & Hreal & Hlast). split.
      + intros k Hk Ht. apply memb_In. apply Hreal; [exact Hk|].
        unfold touchesb. apply andb_true_iff. rewrite !Z.ltb_lt. exact Ht.
      + intros Hpast. apply memb_In. apply Hlast. exact Hpast.
    - intros [Hreal Hlast]. split; [nia|]. split.
      + intros k Hk Ht. apply memb_In. apply Hreal; [exact Hk|].
        unfold touchesb in Ht. apply andb_true_iff in Ht. rewrite !Z.ltb_lt in Ht.
        exact Ht.
      + intros Hpast. apply memb_In. apply Hlast. exact Hpast. }
  assert (Hpow : 0 < 2 ^ lg) by (apply pow2_pos; lia).
  split.
  - intros Region J HR HJ. split; [|apply Hpage; assumption].
    destruct Hplace as [Hone|Haligned]; [|rewrite Haligned; ring].
    assert (Region = 0) by lia. subst Region. ring.
  - intros p Region k Hcov HR Hk [Ht1 Ht2].
    pose proof (proj1 (Hcovered p) Hcov) as [Hp _].
    assert (Hwhole : (k + 1) * BlockSize' <= RegionSize').
    { pose proof (Z.mul_div_le RegionSize' BlockSize' ltac:(lia)) as Hmd.
      assert ((k + 1) * BlockSize' <= RegionSize' / BlockSize' * BlockSize')
        by (apply Z.mul_le_mono_nonneg_r; lia).
      lia. }
    destruct (page_in_its_region (PagesCount C) (2 ^ lg) RegionSize' BlockSize'
                NumberOfRegions' p Region k Hpow HPCpos ltac:(lia) ltac:(lia)
                Hplace Hp HR ltac:(lia) Hwhole Ht1 Ht2) as (HRR & Hs1 & Hs2).
    pose proof (Z.div_mod p (PagesCount C) ltac:(lia)) as Hdm.
    pose proof (Z.mod_pos_bound p (PagesCount C) ltac:(lia)) as Hmod.
    assert (Hpeq : p = p / PagesCount C * PagesCount C + p mod PagesCount C) by lia.
    rewrite Hpeq in Hcov. rewrite <- HRR in Hcov.
    apply Hpage in Hcov; [|exact HR|exact Hmod].
    destruct Hcov as [Hreal _]. apply Hreal; [exact Hk|]. split; assumption.
Qed.

(** Why the regions are taken to be whole pages when there are several:
    the scan gives every region [PagesCount] pages, so with two regions
    of 12000 bytes on pages of 4096 bytes the pages of region 1 are
    counted from byte 12288 on while its blocks start at byte 12000.
    With region 0 free and region 1 in use the one released range,
    [0, 12288), holds the first 288 bytes of region 1. *)
Lemma unaligned_regions_overlap :
  let C := create Pf4096 3000 12000 2 12000 0 in
  exists C' Pf',
    markFreeBlocks Pf4096 C [[0; 3000; 6000; 9000]] (fun P => P) 0 = Some (C', Pf') /\
    snd (releaseFreeMemoryToOS Pf' C' ([] : RangeLog) (fun _ => false)) = [(0, 12288)] /\
    ~ In (1 * 12000 + 0 * 3000) (offsetsOf [[0; 3000; 6000; 9000]] (fun P => P) 0) /\
    0 <= 1 * 12000 + 0 * 3000 < 12288.
Proof.
  cbv zeta.
  destruct (markFreeBlocks Pf4096 (create Pf4096 3000 12000 2 12000 0)
              [[0; 3000; 6000; 9000]] (fun P => P) 0) as [[C' Pf']|] eqn:E;
    [|vm_compute in E; discriminate E].
  exists C', Pf'. split; [reflexivity|].
  vm_compute in E. injection E as <- <-.
  split; [vm_compute; reflexivity|]. split; [|lia].
  vm_compute. intros Hin. repeat (destruct Hin as [Hin|Hin]; [discriminate Hin|]).
  exact Hin.
Qed.

(** C1, as stated, fails on a page past the last whole block of a region.
    With blocks of 12288 bytes in a region of 16384 bytes and an empty free
    list, no block meets page 3, so every block that meets it is free; the
    page is kept, since the last block of the region is in use. *)
Lemma page_past_last_block_is_kept :
  ~ (forall Pf lg BlockSize' RegionSize' NumberOfRegions' FreeList DecompactPtr Base,
       PageSizeCached Pf = 2 ^ lg -> 0 <= lg < 64 ->
       1 <= BlockSize' <= RegionSize' -> 1 <= NumberOfRegions' ->
       8 * NumberOfRegions' * (RegionSize' + 2 ^ lg) + 2 * 2 ^ lg
         + 2 * BlockSize' + 64 <= uptr_modulus ->
       (forall n, MapSucceeds Pf n = true) ->
       let C := create Pf BlockSize' RegionSize' NumberOfRegions' RegionSize' 0 in
       let offsets := offsetsOf FreeList DecompactPtr Base in
       Forall (blockStart C) offsets -> NoDup offsets ->
       exists C' Pf',
         markFreeBlocks Pf C FreeList DecompactPtr Base = Some (C', Pf') /\
         forall Region J,
           0 <= Region < NumberOfRegions' -> 0 <= J < PagesCount C ->
           (covered lg
              (snd (releaseFreeMemoryToOS Pf' C' ([] : RangeLog) (fun _ => false)))
              (Region * PagesCount C + J) <->
            forall k, 0 <= k < RegionSize' / BlockSize' ->
              k * BlockSize' < (J + 1) * 2 ^ lg /\
              J * 2 ^ lg < (k + 1) * BlockSize' ->
              In (Region * RegionSize' + k * BlockSize') offsets)).
Proof.
  intros H.
  specialize (H Pf4096 12 12288 16384 1 [] (fun P => P) 0 eq_refl
                ltac:(lia) ltac:(lia) ltac:(lia)
                ltac:(rewrite uptr_modulus_eq; lia) (fun _ => eq_refl)).
  cbv zeta in H.
  specialize (H (Forall_nil_2 _) (NoDup_nil_2)).
  destruct H as (C' & Pf' & Hmark & Hiff).
  assert (Hnil : snd (releaseFreeMemoryToOS Pf' C' ([] : RangeLog) (fun _ => false))
                 = []).
  { vm_compute in Hmark. injection Hmark as <- <-. vm_compute. reflexivity. }
  specialize (Hiff 0 3 ltac:(lia) ltac:(vm_compute; split; [discriminate|reflexivity])).
  rewrite Hnil in Hiff. destruct Hiff as [_ Hback].
  destruct Hback as (From & To & Hin & _).
  - intros k Hk Ht. exfalso.
    assert (E : 16384 / 12288 = 1) by reflexivity. rewrite E in Hk. lia.
  - apply elem_of_nil in Hin. exact Hin.
Qed.
End Correctness.

(** ** The theorems at work *)

Section Witnesses.
Import RegionPageMap RegionPageMapSpec PageMapOps ScanSpec.

Lemma smallMap_wf : wf smallMap.
Proof. apply wfb_wf. vm_compute. reflexivity. Qed.

Lemma straddlingContext_populated : populated straddlingContext.
Proof.
  split; [apply wfb_wf; vm_compute; reflexivity|split; reflexivity].
Qed.

Lemma classification_table_witness :
  let C := PageReleaseContext.create Pf4096 48 16384 1 16384 0 in
  (PageReleaseContext.FullPagesBlockCountMax C,
   PageReleaseContext.SameBlockCountPerPage C) = (4096 / 48 + 1, true).
Proof.
  pose proof (classification_table Pf4096 48 16384 1 16384 0 12
                ltac:(lia) ltac:(unfold SCUDO_WORDSIZE; lia) eq_refl) as H.
  cbv zeta in H. destruct H as (_ & HB & _).
  apply HB. split; [vm_compute; discriminate|reflexivity].
Defined.

Lemma scan_twice_witness :
  let '(C1, log1) :=
    releaseFreeMemoryToOS Pf4096 straddlingContext ([] : RangeLog) (fun _ => false) in
  let '(C2, log2) :=
    releaseFreeMemoryToOS Pf4096 C1 ([] : RangeLog) (fun _ => false) in
  log2 = log1 /\ (forall r, r ∈ log2 -> r ∈ log1) /\ C2 = C1 /\
  forall Region J,
    valid (PageReleaseContext.PageMap straddlingContext) Region J ->
    (fun _ : Z => false) Region = false ->
    canRelease C1 (PageReleaseContext.PageMap C1) Region J
    = canRelease straddlingContext
        (PageReleaseContext.PageMap straddlingContext) Region J /\
    (canRelease straddlingContext
       (PageReleaseContext.PageMap straddlingContext) Region J = true ->
       get (PageReleaseContext.PageMap C1) Region J
       = CounterMask (PageReleaseContext.PageMap C1)) /\
    (canRelease straddlingContext
       (PageReleaseContext.PageMap straddlingContext) Region J = false ->
       get (PageReleaseContext.PageMap C1) Region J
       = get (PageReleaseContext.PageMap straddlingContext) Region J).
Proof.
  apply (scan_twice Pf4096 straddlingContext (fun _ => false)).
  - exact straddlingContext_populated.
  - vm_compute. discriminate.
Defined.

Lemma updateAsAllCountedIf_spec_witness :
  fst (updateAsAllCountedIf smallMap 0 1 0) = true /\
  get (snd (updateAsAllCountedIf smallMap 0 1 0)) 0 1 = CounterMask smallMap.
Proof.
  pose proof (updateAsAllCountedIf_spec smallMap 0 1 0 smallMap_wf
                ltac:(vm_compute; intuition discriminate)
                ltac:(vm_compute; intuition discriminate)) as H.
  destruct (updateAsAllCountedIf smallMap 0 1 0) as [b m'].
  destruct H as (_ & H & _). cbn [fst snd].
  destruct H as (Hb & Hget & _); [vm_compute; discriminate|reflexivity|].
  split; assumption.
Defined.

Lemma incRange_setAsAllCountedRange_spec_witness :
  get (setAsAllCountedRange (setAsAllCounted smallMap 0 1) 0 1 5) 0 2
  = CounterMask (setAsAllCounted smallMap 0 1) /\
  get (setAsAllCountedRange (setAsAllCounted smallMap 0 1) 0 1 5) 0 1
  = CounterMask (setAsAllCounted smallMap 0 1) /\
  get (incRange smallMap 0 1 5) 0 2 = get smallMap 0 2 + 1.
Proof.
  assert (Hwf1 : wf (setAsAllCounted smallMap 0 1))
    by (apply wfb_wf; vm_compute; reflexivity).
  split; [|split].
  - destruct (incRange_setAsAllCountedRange_spec (setAsAllCounted smallMap 0 1)
                0 1 5 Hwf1
                ltac:(vm_compute; intuition discriminate) ltac:(lia)
                ltac:(vm_compute; reflexivity)) as (_ & _ & H).
    destruct (H 0 2 ltac:(vm_compute; intuition discriminate)) as [-> _].
    reflexivity.
  - destruct (incRange_setAsAllCountedRange_spec (setAsAllCounted smallMap 0 1)
                0 1 5 Hwf1
                ltac:(vm_compute; intuition discriminate) ltac:(lia)
                ltac:(vm_compute; reflexivity)) as (_ & _ & H).
    destruct (H 0 1 ltac:(vm_compute; intuition discriminate)) as [-> _].
    reflexivity.
  - destruct (incRange_setAsAllCountedRange_spec smallMap 0 1 5 smallMap_wf
                ltac:(vm_compute; intuition discriminate) ltac:(lia)
                ltac:(vm_compute; reflexivity)) as (_ & _ & H).
    destruct (H 0 2 ltac:(vm_compute; intuition discriminate)) as [_ Hinc].
    rewrite Hinc; [reflexivity|].
    intros I HI. change (Z.min (wrap (5 + 1)) (NumCounters smallMap)) with 3 in HI.
    assert (HI' : I = 1 \/ I = 2) by lia.
    destruct HI' as [-> | ->]; vm_compute; reflexivity.
Defined.

Lemma tracker_ranges_ordered_witness :
  let cs := [FreePagesRangeTracker.ProcessNextPage true;
             FreePagesRangeTracker.ProcessNextPage false;
             FreePagesRangeTracker.ProcessNextPage true;
             FreePagesRangeTracker.Finish] in
  FreePagesRangeTracker.emissions
    (FreePagesRangeTracker.init Pf4096 ([] : RangeLog)) cs
  = [[]; [(0, 4096)]; []; [(8192, 12288)]] /\
  0 < 4096 /\ 4096 <= 8192 /\ 8192 < 12288 /\ 0 < 8192 /\ 4096 < 8192.
Proof.
  intros cs. split; [reflexivity|].
  destruct (tracker_ranges_ordered Pf4096 12 cs 1 3 [(0, 4096)] [(8192, 12288)]
              0 4096 8192 12288 eq_refl ltac:(lia)
              ltac:(repeat constructor; simpl; lia)
              ltac:(vm_compute; reflexivity) ltac:(lia)
              eq_refl ltac:(apply list_elem_of_singleton; reflexivity)
              eq_refl ltac:(apply list_elem_of_singleton; reflexivity))
    as (_ & _ & H1 & H2 & H3 & H4 & H5).
  split; [exact H1|]. split; [exact H2|]. split; [exact H3|].
  split; [exact H4|]. apply H5.
  intros k c Hk Hc. destruct k as [|[|[|k]]]; try lia;
    simpl in Hc; inversion Hc; reflexivity.
Defined.

Lemma recorder_accounting_witness :
  let calls := [(0, 4096); (8192, 16384)] in
  let r n := ReleaseRecorder.releaseAll (ReleaseRecorder.init 0) (take n calls) in
  ReleaseRecorder.getReleasedBytes (r 2%nat) = sumSizes (take 2 calls) /\
  ReleaseRecorder.getReleasedRangesCount (r 2%nat)
    = Z.of_nat (length (take 2 calls)) /\
  ReleaseRecorder.getReleasedBytes (r 2%nat)
    <= ReleaseRecorder.getReleasedBytes (r 3%nat) /\
  ReleaseRecorder.getReleasedRangesCount (r 2%nat)
    <= ReleaseRecorder.getReleasedRangesCount (r 3%nat).
Proof.
  apply (recorder_accounting 0 [(0, 4096); (8192, 16384)] 2).
  - repeat constructor; simpl; vm_compute; congruence.
  - vm_compute. reflexivity.
  - vm_compute. reflexivity.
Defined.

Lemma counters_stay_bounded_witness :
  let ops := [Inc 0 0; IncRange 0 0 2; SetAsAllCounted 0 1; IncN 0 2 1] in
  let m := run smallMap (take 3 ops) in
  0 <= get m 0 1 <= CounterMask smallMap /\
  get m 0 1 = refRun 3 (CounterMask smallMap) (fun _ _ => 0) (take 3 ops) 0 1.
Proof.
  apply (counters_stay_bounded Pf4096 1 3 2 smallMap
           (snd (reset Pf4096 1 3 2))
           [Inc 0 0; IncRange 0 0 2; SetAsAllCounted 0 1; IncN 0 2 1] 3 0 1).
  - lia.
  - lia.
  - vm_compute. intuition congruence.
  - vm_compute. reflexivity.
  - vm_compute. discriminate.
  - reflexivity.
  - reflexivity.
  - vm_compute. reflexivity.
  - vm_compute. intuition discriminate.
Defined.

Lemma reset_mapped_request_witness :
  MapRequests (snd (reset Pf4096Locked 1 1 1)) = [4096] /\
  4096 = ceilDiv 8 4096 * 4096.
Proof.
  destruct (reset_mapped_request Pf4096Locked 1 1 1
              (fst (reset Pf4096Locked 1 1 1)) (snd (reset Pf4096Locked 1 1 1))
              eq_refl (or_intror eq_refl)) as (H1 & H2 & _).
  split; [exact H1|].
  apply H2; vm_compute; [reflexivity|discriminate].
Defined.

Lemma release_correct_witness :
  exists C' Pf',
    PageReleaseContext.markFreeBlocks Pf4096
      (PageReleaseContext.create Pf4096 3000 12288 2 12288 0)
      [[0; 3000; 6000; 9000]] (fun P => P) 0 = Some (C', Pf') /\
    let log := snd (releaseFreeMemoryToOS Pf' C' ([] : RangeLog) (fun _ => false)) in
    (forall Region J,
       0 <= Region < 2 ->
       0 <= J < PageReleaseContext.PagesCount
                  (PageReleaseContext.create Pf4096 3000 12288 2 12288 0) ->
       (Region * PageReleaseContext.PagesCount
                   (PageReleaseContext.create Pf4096 3000 12288 2 12288 0) + J)
       * 2 ^ 12 = Region * 12288 + J * 2 ^ 12 /\
       (MarkSpec.covered 12 log
          (Region * PageReleaseContext.PagesCount
                      (PageReleaseContext.create Pf4096 3000 12288 2 12288 0) + J) <->
        (forall k, 0 <= k < 12288 / 3000 ->
           k * 3000 < (J + 1) * 2 ^ 12 /\ J * 2 ^ 12 < (k + 1) * 3000 ->
           In (Region * 12288 + k * 3000)
              (MarkSpec.offsetsOf [[0; 3000; 6000; 9000]] (fun P => P) 0)) /\
        (12288 / 3000 * 3000 < (J + 1) * 2 ^ 12 ->
           In (Region * 12288 + (12288 / 3000 - 1) * 3000)
              (MarkSpec.offsetsOf [[0; 3000; 6000; 9000]] (fun P => P) 0)))) /\
    (forall p Region k, MarkSpec.covered 12 log p ->
       0 <= Region < 2 -> 0 <= k < 12288 / 3000 ->
       Region * 12288 + k * 3000 < (p + 1) * 2 ^ 12 /\
       p * 2 ^ 12 < Region * 12288 + (k + 1) * 3000 ->
       In (Region * 12288 + k * 3000)
          (MarkSpec.offsetsOf [[0; 3000; 6000; 9000]] (fun P => P) 0)).
Proof.
  apply (release_correct Pf4096 12 3000 12288 2 [[0; 3000; 6000; 9000]]
           (fun P => P) 0).
  - reflexivity.
  - lia.
  - lia.
  - lia.
  - right. reflexivity.
  - rewrite uptr_modulus_eq. lia.
  - intros n. reflexivity.
  - repeat (apply Forall_cons; split); [| | | |apply Forall_nil_2].
    + exists 0, 0. vm_compute. intuition discriminate.
    + exists 0, 1. vm_compute. intuition discriminate.
    + exists 0, 2. vm_compute. intuition discriminate.
    + exists 0, 3. vm_compute. intuition discriminate.
  - vm_compute. repeat (apply NoDup_cons; split).
    + intros Hin. repeat (apply elem_of_cons in Hin as [Hin|Hin]; [discriminate|]).
      apply elem_of_nil in Hin. exact Hin.
    + intros Hin. repeat (apply elem_of_cons in Hin as [Hin|Hin]; [discriminate|]).
      apply elem_of_nil in Hin. exact Hin.
    + intros Hin. repeat (apply elem_of_cons in Hin as [Hin|Hin]; [discriminate|]).
      apply elem_of_nil in Hin. exact Hin.
    + intros Hin. apply elem_of_nil in Hin. exact Hin.
    + apply NoDup_nil_2.
Defined.
End Witnesses.

(** * Further properties of the engine *)

(** ** The life of a page map *)

Section MapLifeCycle.
Import RegionPageMap RegionPageMapSpec.

Lemma reset_cases Pf NumberOfRegion CountersPerRegion MaxValue :
  let r := reset Pf NumberOfRegion CountersPerRegion MaxValue in
  let BS := BufferSize (fst r) in
  PageSizeCached (snd r) = PageSizeCached Pf /\
  ((BS <= StaticBufferCount * sizeof_uptr /\ MutexLocked Pf = false /\
   Buffer (fst r) = StaticBufferPtr /\ MutexLocked (snd r) = true /\
   MapRequests (snd r) = MapRequests Pf) \/
  ((StaticBufferCount * sizeof_uptr < BS \/ MutexLocked Pf = true) /\
   Buffer (fst r) <> StaticBufferPtr /\
   MutexLocked (snd r) = MutexLocked Pf /\
   MapRequests (snd r) = MapRequests Pf ++ [roundUp BS (getPageSizeCached Pf)] /\
   (Buffer (fst r) = MappedBuffer <->
    MapSucceeds Pf (roundUp BS (getPageSizeCached Pf)) = true))).
Proof.
  unfold reset. cbv zeta.
  match goal with
  | |- context [(?B <=? _) && _] => set (BS := B)
  end.
  destruct (Z.leb_spec BS (StaticBufferCount * sizeof_uptr)) as [Hle|Hgt];
    destruct (MutexLocked Pf) eqn:Hlock; cbn [andb negb];
    (split; [try reflexivity; destruct (MapSucceeds Pf _); reflexivity|]).
  - right. destruct (MapSucceeds Pf _) eqn:Hmap; cbn [fst snd BufferSize Buffer
      MutexLocked MapRequests]; rewrite ?Hmap;
      (split; [right; reflexivity|]); (split; [discriminate|]);
      (split; [reflexivity|]); (split; [reflexivity|]);
      split; intros; congruence.
  - left. cbn [fst snd BufferSize Buffer MutexLocked MapRequests]. tauto.
  - right. destruct (MapSucceeds Pf _) eqn:Hmap; cbn [fst snd BufferSize Buffer
      MutexLocked MapRequests]; rewrite ?Hmap;
      (split; [left; exact Hgt|]); (split; [discriminate|]);
      (split; [reflexivity|]); (split; [reflexivity|]);
      split; intros; congruence.
  - right. destruct (MapSucceeds Pf _) eqn:Hmap; cbn [fst snd BufferSize Buffer
      MutexLocked MapRequests]; rewrite ?Hmap;
      (split; [left; exact Hgt|]); (split; [discriminate|]);
      (split; [reflexivity|]); (split; [reflexivity|]);
      split; intros; congruence.
Qed.

(** X2.  The static buffer belongs to one map at a time: of two maps built
    one after the other, with no destructor in between, at most one holds
    the static buffer. *)
Theorem static_buffer_exclusive Pf NumberOfRegion CountersPerRegion MaxValue
    NumberOfRegion' CountersPerRegion' MaxValue' :
  let r1 := reset Pf NumberOfRegion CountersPerRegion MaxValue in
  let r2 := reset (snd r1) NumberOfRegion' CountersPerRegion' MaxValue' in
  ~ (Buffer (fst r1) = StaticBufferPtr /\ Buffer (fst r2) = StaticBufferPtr).
Proof.
  intros r1 r2 [H1 H2].
  pose proof (reset_cases Pf NumberOfRegion CountersPerRegion MaxValue) as C1.
  pose proof (reset_cases (snd r1) NumberOfRegion' CountersPerRegion' MaxValue') as C2.
  cbv zeta in C1, C2. fold r1 in C1, C2. fold r2 in C2.
  destruct C1 as [_ [(_ & _ & _ & Hlocked & _)|(_ & Hne & _)]]; [|contradiction].
  destruct C2 as [_ [(_ & Hfree & _)|(_ & Hne & _)]]; [congruence|contradiction].
Qed.

(** X3.  A map built by [reset] and then destroyed leaves the platform as
    it found it: the mutex of the static buffer is back in the state it had
    before [reset], a mapped buffer is unmapped with the very size it was
    mapped with, no further [map] request is made, and the destroyed map is
    not allocated.  When [map] failed there is nothing to undo. *)
Theorem reset_destructor_round_trip Pf NumberOfRegion CountersPerRegion MaxValue :
  let r := reset Pf NumberOfRegion CountersPerRegion MaxValue in
  let d := destructor (snd r) (fst r) in
  isAllocated (fst (fst d)) = false /\
  MutexLocked (snd (fst d)) = MutexLocked Pf /\
  MapRequests (snd (fst d)) = MapRequests (snd r) /\
  match Buffer (fst r) with
  | NullBuffer => snd d = None /\ fst d = (fst r, snd r)
  | StaticBufferPtr => snd d = None /\ MapRequests (snd r) = MapRequests Pf
  | MappedBuffer =>
      exists Size, snd d = Some Size /\ MapRequests (snd r) = MapRequests Pf ++ [Size]
  end.
Proof.
  intros r d.
  pose proof (reset_cases Pf NumberOfRegion CountersPerRegion MaxValue) as Hc.
  cbv zeta in Hc. fold r in Hc. unfold d. clearbody r. clear d.
  destruct Hc as [HP Hc].
  unfold destructor, isAllocated, getPageSizeCached in *.
  destruct Hc as [(_ & Hfree & Hb & Hlock & Hreq)|(_ & Hne & Hlock & Hreq & Hmap)].
  - rewrite Hb. cbn. rewrite Hfree. repeat split; try reflexivity. exact Hreq.
  - destruct (Buffer (fst r)) eqn:Hb; [| contradiction |]; cbn.
    + rewrite Hlock, Hb. repeat split; reflexivity.
    + rewrite Hlock, HP. split; [reflexivity|]. split; [reflexivity|].
      split; [reflexivity|]. eexists. split; [reflexivity|]. exact Hreq.
Qed.

End MapLifeCycle.

(** ** The geometry of the packed counters *)

Section CounterWidth.
Import RegionPageMap RegionPageMapSpec.

Lemma roundUpPowerOfTwo_least l :
  0 <= l < 64 ->
  exists c, 0 <= c <= 6 /\ roundUpPowerOfTwo (wrap (l + 1)) = 2 ^ c /\
            (0 < c -> 2 ^ (c - 1) < l + 1).
Proof.
  intros Hl.
  assert (Hall : forallb
            (fun l => let r := roundUpPowerOfTwo (wrap (l + 1)) in
                      let c := Z.log2 r in
                      (0 <=? c) && (c <=? 6) && (r =? 2 ^ c)
                      && ((c =? 0) || (2 ^ (c - 1) <? l + 1)))
            (seqZ 0 64) = true) by (vm_compute; reflexivity).
  rewrite forallb_forall in Hall.
  specialize (Hall l). cbv zeta in Hall.
  assert (Hin : In l (seqZ 0 64)).
  { apply list_elem_of_In, elem_of_seqZ. lia. }
  specialize (Hall Hin).
  repeat (apply andb_true_iff in Hall; destruct Hall as [Hall ?]).
  exists (Z.log2 (roundUpPowerOfTwo (wrap (l + 1)))).
  split; [lia|]. split; [lia|]. intros Hc.
  match goal with H : (_ || _) = true |- _ => apply orb_true_iff in H; destruct H end;
    lia.
Qed.

(** X1.  [reset] gives every counter the least power-of-two number of bits
    that holds [MaxValue]: with [2 ^ c] bits per counter, [MaxValue] fits
    under the mask [2 ^ (2 ^ c) - 1] and would not fit in half as many
    bits.  A word then packs [2 ^ (6 - c)] counters, a region takes the
    words its counters need and the buffer eight bytes for each of them. *)
Theorem reset_counter_width Pf NumberOfRegion CountersPerRegion MaxValue :
  0 < NumberOfRegion -> 0 < CountersPerRegion ->
  0 < MaxValue < uptr_modulus ->
  CountersPerRegion * 8 * NumberOfRegion + 64 <= uptr_modulus ->
  let m := fst (reset Pf NumberOfRegion CountersPerRegion MaxValue) in
  exists c, 0 <= c <= 6 /\
    CounterSizeBitsLog m = c /\
    CounterMask m = 2 ^ (2 ^ c) - 1 /\
    MaxValue <= CounterMask m /\
    (0 < c -> 2 ^ (2 ^ (c - 1)) <= MaxValue) /\
    PackingRatioLog m = 6 - c /\
    SizePerRegion m = ceilDiv CountersPerRegion (2 ^ (6 - c)) /\
    BufferSize m = 8 * NumberOfRegion * ceilDiv CountersPerRegion (2 ^ (6 - c)).
Proof.
  intros HR HC HM Hfit m.
  destruct (counterSizeBits_cases MaxValue HM)
    as (c & Hc & Hbits & Hlog & Hmask & Hratio & Hoff & Hone & Hmax).
  cbv zeta in Hbits.
  destruct (roundUpPowerOfTwo_least (Z.log2 MaxValue) (log2_word MaxValue HM))
    as (c' & Hc' & Hbits' & Hleast).
  unfold getMostSignificantSetBitIndex in Hbits.
  assert (c' = c).
  { apply (Z.pow_inj_r 2); [lia|lia|lia|congruence]. }
  subst c'.
  assert (Hpos : 0 < 2 ^ (6 - c)) by (apply pow2_pos; lia).
  assert (Hle : 2 ^ (6 - c) <= 64) by (change 64 with (2 ^ 6); apply pow2_le; lia).
  assert (HCfit : CountersPerRegion + 2 ^ (6 - c) <= uptr_modulus) by nia.
  destruct (roundUp_eq CountersPerRegion (2 ^ (6 - c)) ltac:(lia) Hpos HCfit)
    as [Hru Hrub].
  assert (Hfields :
    CounterSizeBitsLog m = c /\ CounterMask m = 2 ^ 2 ^ c - 1 /\
    PackingRatioLog m = 6 - c /\
    SizePerRegion m = Z.shiftr (roundUp CountersPerRegion (2 ^ (6 - c))) (6 - c) /\
    BufferSize m
    = wrap (wrap (Z.shiftr (roundUp CountersPerRegion (2 ^ (6 - c))) (6 - c)
                  * sizeof_uptr) * NumberOfRegion)).
  { unfold m, reset. cbv zeta. unfold getMostSignificantSetBitIndex.
    rewrite !Hbits, !Hlog, !Hmask, !Hratio, !Hone.
    destruct (_ && _); [|destruct (MapSucceeds Pf _)];
      cbn [fst CounterSizeBitsLog CounterMask PackingRatioLog SizePerRegion
           BufferSize]; repeat split; reflexivity. }
  destruct Hfields as (F1 & F2 & F3 & F4 & F5). clearbody m.
  rewrite Z.shiftr_div_pow2 in F4, F5 by lia.
  rewrite Hru in F4, F5. rewrite Z.div_mul in F4, F5 by lia.
  fold (ceilDiv CountersPerRegion (2 ^ (6 - c))) in F4, F5, Hru.
  set (SPR := ceilDiv CountersPerRegion (2 ^ (6 - c))) in *.
  assert (HSPR : 0 <= SPR <= CountersPerRegion) by nia.
  rewrite (wrap_small (SPR * sizeof_uptr)) in F5 by (unfold sizeof_uptr; nia).
  rewrite wrap_small in F5 by (unfold sizeof_uptr; nia).
  exists c. split; [exact Hc|]. split; [exact F1|]. split; [exact F2|].
  pose proof (Z.log2_spec MaxValue ltac:(lia)) as [Hlo Hlt].
  split; [|split; [|split; [exact F3|split; [exact F4|]]]].
  - rewrite F2. rewrite <- Z.add_1_r in Hlt.
    assert (2 ^ (Z.log2 MaxValue + 1) <= 2 ^ 2 ^ c).
    { apply pow2_le. pose proof (Z.log2_nonneg MaxValue). lia. }
    lia.
  - intros Hc0. specialize (Hleast Hc0).
    assert (2 ^ 2 ^ (c - 1) <= 2 ^ Z.log2 MaxValue).
    { apply pow2_le. pose proof (pow2_pos (c - 1) ltac:(lia)). lia. }
    lia.
  - rewrite F5. unfold sizeof_uptr. lia.
Qed.

Lemma store_twice m i v v' : store (store m i v) i v' = store m i v'.
Proof. unfold store; cbn. f_equal. apply list_insert_insert_eq. Qed.

Lemma store_outside m i v v' :
  Z.of_nat (length (Words m)) <= i -> store m i v = store m i v'.
Proof.
  intros Hi. unfold store. f_equal.
  rewrite !list_insert_ge by lia. reflexivity.
Qed.

(** X4.  [incN] with [N >= 1] is [inc] called [N] times: both leave the
    same buffer, whether or not the counter has room for the [N]. *)
Theorem incN_as_repeated_inc m Region I (n : nat) :
  (0 < n)%nat ->
  Nat.iter n (fun m' => inc m' Region I) m = incN m Region I (Z.of_nat n).
Proof.
  intros Hn.
  set (i := wordIndex m Region I). set (o := bitOffset m I).
  assert (Hi : 0 <= i) by apply wrap_range.
  assert (Ho : 0 <= o) by apply wrap_range.
  assert (Hinc : forall v, inc (store m i v) Region I
                 = store m i (wrap (load (store m i v) i + wrap (Z.shiftl 1 o)))).
  { intros v. unfold inc. change (wordIndex (store m i v) Region I) with i.
    change (bitOffset (store m i v) I) with o. apply store_twice. }
  unfold incN. fold i o.
  destruct (Z.lt_ge_cases i (Z.of_nat (length (Words m)))) as [Hin|Hout].
  - assert (Hgen : forall k : nat,
              Nat.iter (S k) (fun m' => inc m' Region I) m
              = store m i (wrap (load m i + Z.of_nat (S k) * 2 ^ o))).
    { induction k as [|k IH].
      - change (Nat.iter 1 (fun m' => inc m' Region I) m) with (inc m Region I).
        unfold inc. fold i o. f_equal.
        rewrite wrap_add_wrap_r. rewrite Z.shiftl_mul_pow2 by lia. reflexivity.
      - change (Nat.iter (S (S k)) (fun m' => inc m' Region I) m)
          with (inc (Nat.iter (S k) (fun m' => inc m' Region I) m) Region I).
        rewrite IH, Hinc. rewrite load_store_same by lia. f_equal.
        rewrite wrap_add_wrap_r, wrap_add_wrap_l.
        rewrite Z.shiftl_mul_pow2 by lia. f_equal.
        rewrite (Nat2Z.inj_succ (S k)). ring. }
    destruct n as [|k]; [lia|]. rewrite Hgen. f_equal.
    rewrite wrap_add_wrap_r. rewrite Z.shiftl_mul_pow2 by lia. reflexivity.
  - assert (Hgen : forall k : nat, exists v,
              Nat.iter (S k) (fun m' => inc m' Region I) m = store m i v).
    { induction k as [|k [v IH]].
      - eexists. reflexivity.
      - change (Nat.iter (S (S k)) (fun m' => inc m' Region I) m)
          with (inc (Nat.iter (S k) (fun m' => inc m' Region I) m) Region I).
        rewrite IH, Hinc. eexists. reflexivity. }
    destruct n as [|k]; [lia|]. destruct (Hgen k) as [v ->].
    apply store_outside. exact Hout.
Qed.

Lemma incN_as_repeated_inc_witness :
  Nat.iter 2 (fun m' => inc m' 0 1) smallMap = incN smallMap 0 1 2.
Proof. apply (incN_as_repeated_inc smallMap 0 1 2). lia. Defined.

Lemma reset_counter_width_witness :
  exists c, 0 <= c <= 6 /\
    CounterSizeBitsLog smallMap = c /\
    CounterMask smallMap = 2 ^ (2 ^ c) - 1 /\
    2 <= CounterMask smallMap /\
    (0 < c -> 2 ^ (2 ^ (c - 1)) <= 2) /\
    PackingRatioLog smallMap = 6 - c /\
    SizePerRegion smallMap = ceilDiv 3 (2 ^ (6 - c)) /\
    BufferSize smallMap = 8 * 1 * ceilDiv 3 (2 ^ (6 - c)).
Proof.
  apply (reset_counter_width Pf4096 1 3 2); rewrite ?uptr_modulus_eq; lia.
Defined.
End CounterWidth.

(** ** The range tracker and its recorder *)

Section TrackerAccounting.
Import FreePagesRangeTracker TrackerSpec.

Lemma advance_advance {R} `{ReleaseRecorderT R} (T : t R) a b :
  advance (advance T a) b = advance T (a + b).
Proof.
  unfold advance; cbn. f_equal.
  rewrite wrap_add_wrap_l. f_equal. ring.
Qed.

Lemma closeOpenedRange_closed {R} `{ReleaseRecorderT R} (T : t R) :
  InRange T = false -> closeOpenedRange T = T.
Proof. intros HIn. unfold closeOpenedRange. rewrite HIn. reflexivity. Qed.

Lemma InRange_closeOpenedRange {R} `{ReleaseRecorderT R} (T : t R) :
  InRange (closeOpenedRange T) = false.
Proof. unfold closeOpenedRange. destruct (InRange T) eqn:E; [reflexivity|exact E]. Qed.

Lemma run_unreleased {R} `{ReleaseRecorderT R} (n : nat) : forall T : t R,
  run T (replicate (S n) (ProcessNextPage false))
  = advance (closeOpenedRange T) (Z.of_nat (S n)).
Proof.
  induction n as [|n IH]; intros T.
  - reflexivity.
  - change (run T (replicate (S (S n)) (ProcessNextPage false)))
      with (run (processNextPage T false) (replicate (S n) (ProcessNextPage false))).
    rewrite IH.
    change (processNextPage T false) with (advance (closeOpenedRange T) 1).
    rewrite closeOpenedRange_closed by apply InRange_closeOpenedRange.
    rewrite advance_advance. f_equal. lia.
Qed.

(** X5.  [skipPages(N)] with [N >= 1] does to a tracker, and through it to
    its recorder, what [N] calls [processNextPage(false)] do. *)
Theorem skipPages_as_unreleased_pages {R} `{ReleaseRecorderT R} (T : t R) (n : nat) :
  (0 < n)%nat ->
  skipPages T (Z.of_nat n) = run T (replicate n (ProcessNextPage false)).
Proof.
  intros Hn. destruct n as [|n]; [lia|].
  rewrite run_unreleased. reflexivity.
Qed.

Lemma skipPages_as_unreleased_pages_witness :
  skipPages (processNextPage (init Pf4096 ([] : RangeLog)) true) 2
  = run (processNextPage (init Pf4096 ([] : RangeLog)) true)
        [ProcessNextPage false; ProcessNextPage false].
Proof.
  apply (skipPages_as_unreleased_pages
           (processNextPage (init Pf4096 ([] : RangeLog)) true) 2).
  lia.
Defined.

Lemma releasedPages_app xs ys :
  releasedPages (xs ++ ys) = releasedPages xs + releasedPages ys.
Proof.
  induction xs as [|c xs IH]; [reflexivity|].
  change (releasedPages ((c :: xs) ++ ys))
    with (match c with ProcessNextPage true => 1 + releasedPages (xs ++ ys)
                     | _ => releasedPages (xs ++ ys) end).
  change (releasedPages (c :: xs))
    with (match c with ProcessNextPage true => 1 + releasedPages xs
                     | _ => releasedPages xs end).
  destruct c as [[|]|N|]; lia.
Qed.

Lemma balanced_step lg B k T c :
  balanced lg B k T -> 0 <= pages c ->
  (CurrentPage T + pages c) * 2 ^ lg < uptr_modulus ->
  balanced lg B (k + releasedPages [c]) (step T c) /\
  CurrentPage (step T c) = CurrentPage T + pages c.
Proof.
  intros (Hwf & Hk & HB & Hcount & Hbooks) Hp Hfit.
  pose proof Hwf as (Hlog & Hlg & Hcur & Hin).
  pose proof (pow2_pos lg Hlg) as Hpow.
  assert (Hcurfit : CurrentPage T * 2 ^ lg < uptr_modulus) by nia.
  assert (Hw : wrap (CurrentPage T + pages c) = CurrentPage T + pages c)
    by (apply wrap_small; nia).
  unfold balanced, wf.
  destruct c as [[|]|N|]; cbn [pages releasedPages fold_right] in *;
    unfold step, processNextPage, skipPages, finish, closeOpenedRange, advance;
    destruct (InRange T) eqn:HIn;
    cbn [negb InRange CurrentPage CurrentRangeStatePage PageSizeLog Recorder
         releasePageRangeToOS ReleaseRecorder_recorder
         ReleaseRecorder.releasePageRangeToOS ReleaseRecorder.ReleasedBytes
         ReleaseRecorder.ReleasedRangesCount ReleaseRecorder.Base];
    rewrite ?HIn, ?Hw, ?Hlog, ?Z.add_0_r;
    rewrite ?(shift_page (CurrentPage T) lg) by lia;
    rewrite ?(shift_page (CurrentRangeStatePage T) lg)
      by (try lia; specialize (Hin eq_refl); nia);
    try (specialize (Hin eq_refl));
    rewrite ?(wrap_small (CurrentPage T * 2 ^ lg - CurrentRangeStatePage T * 2 ^ lg))
      by nia;
    rewrite ?(wrap_small (ReleaseRecorder.ReleasedBytes (Recorder T)
               + (CurrentPage T * 2 ^ lg - CurrentRangeStatePage T * 2 ^ lg)))
      by nia;
    rewrite ?(wrap_small (ReleaseRecorder.ReleasedRangesCount (Recorder T) + 1))
      by nia.
  all: repeat match goal with |- _ /\ _ => split end; try reflexivity;
    try assumption; try lia; try nia; try (intros HH; discriminate HH);
    try (intros _; lia).
Qed.

Lemma balanced_run lg B cs : forall k T,
  balanced lg B k T -> Forall (fun c => 0 <= pages c) cs ->
  (CurrentPage T + pagesAdvanced cs) * 2 ^ lg < uptr_modulus ->
  balanced lg B (k + releasedPages cs) (run T cs).
Proof.
  induction cs as [|c cs IH]; intros k T Hb Hall Hfit.
  - cbn. rewrite Z.add_0_r. exact Hb.
  - inversion Hall as [|? ? Hc Hcs]; subst.
    pose proof (pagesAdvanced_nonneg cs Hcs) as Hn.
    pose proof Hb as ((_ & Hlg & Hcur & _) & _).
    pose proof (pow2_pos lg Hlg) as Hpow.
    cbn [pagesAdvanced fold_right] in Hfit. fold (pagesAdvanced cs) in Hfit.
    destruct (balanced_step lg B k T c Hb Hc ltac:(nia)) as [Hb' Hcur'].
    change (run T (c :: cs)) with (run (step T c) cs).
    change (c :: cs) with ([c] ++ cs). rewrite releasedPages_app.
    rewrite Z.add_assoc. apply IH; [exact Hb'|exact Hcs|].
    rewrite Hcur'. replace (CurrentPage T + pages c + pagesAdvanced cs)
      with (CurrentPage T + (pages c + pagesAdvanced cs)) by lia. exact Hfit.
Qed.

(** X6.  Run any sequence of [processNextPage], [skipPages] and [finish]
    calls on a fresh tracker that reports to a fresh [ReleaseRecorder], the
    page cursor staying within a word, and call [finish].  The recorder
    then holds exactly one page size of released bytes for each page that
    was reported as released, in at most as many ranges as there were such
    pages, and its base is untouched. *)
Theorem tracker_released_bytes Pf lg B cs :
  PageSizeCached Pf = 2 ^ lg -> 0 <= lg ->
  Forall (fun c => 0 <= pages c) cs ->
  pagesAdvanced cs * 2 ^ lg < uptr_modulus ->
  let Rec := Recorder (run (init Pf (ReleaseRecorder.init B)) (cs ++ [Finish])) in
  ReleaseRecorder.getReleasedBytes Rec = releasedPages cs * PageSizeCached Pf /\
  0 <= ReleaseRecorder.getReleasedRangesCount Rec <= releasedPages cs /\
  ReleaseRecorder.getBase Rec = B.
Proof.
  intros HP Hlg Hall Hfit Rec.
  pose proof (pow2_pos lg Hlg) as Hpow.
  assert (Hb0 : balanced lg B 0 (init Pf (ReleaseRecorder.init B))).
  { unfold balanced, wf, init; cbn. unfold getLog2, getPageSizeCached.
    rewrite HP, Z.log2_pow2 by lia.
    repeat split; try lia; discriminate. }
  assert (Hall' : Forall (fun c => 0 <= pages c) (cs ++ [Finish])).
  { apply Forall_app. split; [exact Hall|]. constructor; [cbn; lia|constructor]. }
  pose proof (balanced_run lg B (cs ++ [Finish]) 0 _ Hb0 Hall') as Hb.
  rewrite pagesAdvanced_app, releasedPages_app in Hb.
  cbn [pagesAdvanced releasedPages fold_right pages CurrentPage init] in Hb.
  rewrite !Z.add_0_r, Z.add_0_l in Hb. specialize (Hb Hfit).
  destruct Hb as (_ & _ & HB & Hcount & Hbooks).
  assert (Hclosed : InRange (run (init Pf (ReleaseRecorder.init B)) (cs ++ [Finish]))
                    = false).
  { rewrite run_app. apply InRange_closeOpenedRange. }
  rewrite Hclosed in Hbooks. destruct Hbooks as [Hbytes Hranges].
  unfold ReleaseRecorder.getReleasedBytes, ReleaseRecorder.getReleasedRangesCount,
    ReleaseRecorder.getBase. fold Rec in HB, Hcount, Hbytes, Hranges.
  rewrite HP. tauto.
Qed.

Lemma tracker_released_bytes_witness :
  let Rec := Recorder (run (init Pf4096 (ReleaseRecorder.init 0))
                         ([ProcessNextPage true; ProcessNextPage true; SkipPages 3;
                           ProcessNextPage true] ++ [Finish])) in
  ReleaseRecorder.getReleasedBytes Rec
  = releasedPages [ProcessNextPage true; ProcessNextPage true; SkipPages 3;
                   ProcessNextPage true] * PageSizeCached Pf4096 /\
  0 <= ReleaseRecorder.getReleasedRangesCount Rec
    <= releasedPages [ProcessNextPage true; ProcessNextPage true; SkipPages 3;
                      ProcessNextPage true] /\
  ReleaseRecorder.getBase Rec = 0.
Proof.
  apply (tracker_released_bytes Pf4096 12 0
           [ProcessNextPage true; ProcessNextPage true; SkipPages 3;
            ProcessNextPage true]).
  - reflexivity.
  - lia.
  - repeat constructor; cbn; lia.
  - rewrite uptr_modulus_eq. cbn. lia.
Defined.
End TrackerAccounting.

(** ** The scan with a skip predicate *)

Section ScanWithSkip.
Import RegionPageMap RegionPageMapSpec ScanSpec MarkSpec FreePagesRangeTracker.

Lemma map_const_replicate {A B} (c : B) (l : list A) :
  map (fun _ => c) l = replicate (length l) c.
Proof. induction l as [|x l IH]; [reflexivity|]. cbn. rewrite IH. reflexivity. Qed.

(** Whatever is skipped, the tracker ends where a walk over every page
    would take it, with the pages of the skipped regions not released. *)
Lemma scan_run_flat {R} `{ReleaseRecorderT R} C M Skip (n : nat) (T : t R) :
  0 < PageReleaseContext.PagesCount C ->
  run T (scanCalls C M Skip (Z.of_nat n))
  = run T (map (fun p => ProcessNextPage
                  (negb (Skip (p / PageReleaseContext.PagesCount C))
                   && canRelease C M (p / PageReleaseContext.PagesCount C)
                                     (p mod PageReleaseContext.PagesCount C)))
             (seqZ 0 (Z.of_nat n * PageReleaseContext.PagesCount C))).
Proof.
  intros HPC. set (PC := PageReleaseContext.PagesCount C) in *.
  induction n as [|n IH]; [reflexivity|].
  rewrite Nat2Z.inj_succ. unfold Z.succ.
  rewrite scanCalls_snoc by lia. rewrite run_app, IH.
  replace ((Z.of_nat n + 1) * PC) with (Z.of_nat n * PC + PC) by ring.
  rewrite seqZ_app by nia. rewrite map_app, run_app. rewrite Z.add_0_l.
  set (T' := run T _). clearbody T'.
  rewrite (map_seqZ_shift _ (Z.of_nat n * PC)).
  assert (Hdiv : forall J, 0 <= J < PC ->
            (Z.of_nat n * PC + J) / PC = Z.of_nat n /\
            (Z.of_nat n * PC + J) mod PC = J).
  { intros J HJ. split.
    - rewrite Z.add_comm, Z.div_add by lia. rewrite Z.div_small by lia. lia.
    - rewrite Z.add_comm, Z.mod_add by lia. apply Z.mod_small; lia. }
  unfold regionCalls. destruct (Skip (Z.of_nat n)) eqn:Hskip.
  - assert (Hmap : map (fun x => ProcessNextPage
                     (negb (Skip ((Z.of_nat n * PC + x) / PC))
                      && canRelease C M ((Z.of_nat n * PC + x) / PC)
                           ((Z.of_nat n * PC + x) mod PC))) (seqZ 0 PC)
                   = replicate (Z.to_nat PC) (ProcessNextPage false)).
    { rewrite <- (length_seqZ 0 PC). rewrite <- map_const_replicate.
      apply map_ext_in. intros J HJ. apply list_elem_of_In, elem_of_seqZ in HJ.
      destruct (Hdiv J ltac:(lia)) as [-> _]. rewrite Hskip. reflexivity. }
    fold PC. rewrite Hmap.
    destruct (Z.to_nat PC) as [|k] eqn:Hk; [lia|].
    rewrite run_unreleased. fold PC.
    change (run T' [SkipPages PC]) with (skipPages T' PC).
    unfold skipPages. f_equal. lia.
  - unfold pageCalls. fold PC. f_equal.
    apply map_ext_in. intros J HJ. apply list_elem_of_In, elem_of_seqZ in HJ.
    destruct (Hdiv J ltac:(lia)) as [-> ->]. rewrite Hskip. reflexivity.
Qed.

(** The scan of a populated context, page by page. *)
Lemma scan_pages_spec Pf lg C Skip Region J :
  populated C -> PageSizeCached Pf = 2 ^ lg -> 0 <= lg ->
  0 <= PageReleaseContext.NumberOfRegions C ->
  PageReleaseContext.NumberOfRegions C * PageReleaseContext.PagesCount C * 2 ^ lg
    < uptr_modulus ->
  0 <= Region < PageReleaseContext.NumberOfRegions C ->
  0 <= J < PageReleaseContext.PagesCount C ->
  let M0 := PageReleaseContext.PageMap C in
  let r := releaseFreeMemoryToOS Pf C ([] : RangeLog) Skip in
  (covered lg (snd r) (Region * PageReleaseContext.PagesCount C + J) <->
   Skip Region = false /\ canRelease C M0 Region J = true) /\
  get (PageReleaseContext.PageMap (fst r)) Region J
  = if negb (Skip Region) && canRelease C M0 Region J
    then CounterMask M0 else get M0 Region J.
Proof.
  intros Hpop HP Hlg HNR Hfit HR HJ M0 r.
  set (PC := PageReleaseContext.PagesCount C) in *.
  set (NR := PageReleaseContext.NumberOfRegions C) in *.
  pose proof (release_spec Pf C Skip Hpop ltac:(fold PC; lia)) as Hrel.
  cbv zeta in Hrel. fold r in Hrel. fold M0 in Hrel.
  destruct r as [C1 log]. cbn [fst snd].
  destruct Hrel as (_ & _ & Hlog & Hget & _).
  split.
  - rewrite run_app in Hlog. fold NR in Hlog.
    rewrite <- (Z2Nat.id NR) in Hlog by lia.
    rewrite scan_run_flat in Hlog by (fold PC; lia).
    rewrite Z2Nat.id in Hlog by lia. fold PC in Hlog.
    set (v := fun p => negb (Skip (p / PC)) && canRelease C M0 (p / PC) (p mod PC)).
    assert (Hpages : 0 <= NR * PC) by nia.
    pose proof (fed_run lg v Hlg (Z.to_nat (NR * PC))
                  (init Pf ([] : RangeLog))) as Hfed.
    rewrite Z2Nat.id in Hfed by exact Hpages.
    specialize (Hfed Hfit (fed_init lg v Hlg Pf HP)).
    rewrite Hlog.
    etransitivity;
      [exact (fed_finish lg v Hlg _ _ (Region * PC + J) Hpages Hfit Hfed)|].
    unfold v.
    replace ((Region * PC + J) / PC) with Region
      by (rewrite Z.add_comm, Z.div_add by lia; rewrite Z.div_small by lia; lia).
    replace ((Region * PC + J) mod PC) with J
      by (rewrite Z.add_comm, Z.mod_add by lia; rewrite Z.mod_small by lia; lia).
    rewrite andb_true_iff, negb_true_iff. split; [tauto|].
    intros Hv. split; [nia|exact Hv].
  - apply Hget. destruct Hpop as (_ & HRe & HNc).
    unfold valid. fold M0 in HRe, HNc. rewrite HRe, HNc. fold NR PC. lia.
Qed.

(** X7.  The scan of a populated context, whatever regions it skips: the
    page the scan counts as page [J] of region [Region], which it reports
    at byte offset [(Region * PagesCount + J) * PageSize], ends up inside
    a released range exactly when the region is not skipped and the
    counter of the page is all-counted or holds the count the scan expects
    of the page; the counters of the released pages become all-counted and
    every other counter, those of the skipped regions among them, keeps
    its value. *)
Theorem scan_releases_releasable_pages Pf lg C Skip Region J :
  populated C -> PageSizeCached Pf = 2 ^ lg -> 0 <= lg ->
  0 <= PageReleaseContext.NumberOfRegions C ->
  PageReleaseContext.NumberOfRegions C * PageReleaseContext.PagesCount C * 2 ^ lg
    < uptr_modulus ->
  0 <= Region < PageReleaseContext.NumberOfRegions C ->
  0 <= J < PageReleaseContext.PagesCount C ->
  let M0 := PageReleaseContext.PageMap C in
  let r := releaseFreeMemoryToOS Pf C ([] : RangeLog) Skip in
  (covered lg (snd r) (Region * PageReleaseContext.PagesCount C + J) <->
   Skip Region = false /\ canRelease C M0 Region J = true) /\
  get (PageReleaseContext.PageMap (fst r)) Region J
  = if negb (Skip Region) && canRelease C M0 Region J
    then CounterMask M0 else get M0 Region J.
Proof. apply scan_pages_spec. Qed.

Lemma scan_releases_releasable_pages_witness :
  let C := straddlingContext in
  let r := releaseFreeMemoryToOS Pf4096 C ([] : RangeLog) (fun _ => false) in
  (covered 12 (snd r) (0 * PageReleaseContext.PagesCount C + 1) <->
   false = false /\ canRelease C (PageReleaseContext.PageMap C) 0 1 = true) /\
  get (PageReleaseContext.PageMap (fst r)) 0 1
  = if negb false && canRelease C (PageReleaseContext.PageMap C) 0 1
    then CounterMask (PageReleaseContext.PageMap C)
    else get (PageReleaseContext.PageMap C) 0 1.
Proof.
  apply (scan_releases_releasable_pages Pf4096 12 straddlingContext (fun _ => false) 0 1).
  - exact straddlingContext_populated.
  - reflexivity.
  - lia.
  - vm_compute. discriminate.
  - vm_compute. reflexivity.
  - vm_compute. split; [discriminate|reflexivity].
  - vm_compute. split; [discriminate|reflexivity].
Defined.
End ScanWithSkip.

(** ** The blocks on a page *)

Section BlocksPerPage.
Import PageReleaseContext ScanSpec MarkSpec.

Lemma gridCount_fullCount S B n J :
  0 < S -> 0 < B -> 0 <= J -> (J + 1) * S <= n * B ->
  gridCount S B 0 n J = fullCount S B J.
Proof.
  intros HS HB HJ Hn.
  assert (H0 : 0 <= J * S / B) by (apply Z.div_pos; nia).
  assert (H1 : ((J + 1) * S - 1) / B <= n - 1).
  { assert (((J + 1) * S - 1) / B < n); [|lia].
    apply Z.div_lt_upper_bound; lia. }
  assert (H2 : J * S / B <= ((J + 1) * S - 1) / B).
  { apply Z.div_le_mono; nia. }
  assert (Hn0 : 0 <= n) by nia.
  rewrite gridCount_interval by lia. unfold fullCount. lia.
Qed.

(** X8.  [FullPagesBlockCountMax] is what its name says: no page meets
    more blocks than the constructor's classification allows, and when the
    classification is [SameBlockCountPerPage] every page meets exactly
    that many. *)
Theorem max_blocks_per_page S B J n Max same :
  0 < S -> 0 < B -> 0 <= J -> S + 2 < uptr_modulus ->
  (J + 1) * S <= n * B ->
  classify B S = (Max, same) ->
  1 <= gridCount S B 0 n J <= Max /\
  (same = true -> gridCount S B 0 n J = Max).
Proof.
  intros HS HB HJ Hfit Hn Hclass.
  rewrite (gridCount_fullCount S B n J HS HB HJ Hn).
  split.
  - apply (fullCount_le_max S B J Max same HS HB HJ Hfit Hclass).
  - intros ->. apply fullCount_same; assumption.
Qed.

Lemma max_blocks_per_page_witness :
  1 <= gridCount 4096 3000 0 10 2 <= 3 /\
  (false = true -> gridCount 4096 3000 0 10 2 = 3).
Proof.
  apply (max_blocks_per_page 4096 3000 2 10 3 false);
    rewrite ?uptr_modulus_eq; try lia. reflexivity.
Defined.

Lemma slowStateAt_offset C (n : nat) :
  0 < PageSize C -> 0 < BlockSize C -> 0 <= ReleasePageOffset C ->
  (ReleasePageOffset C + Z.of_nat n + 2) * PageSize C + 2 * BlockSize C
    < uptr_modulus ->
  exists c q,
    slowStateAt C (Z.of_nat n) = ((ReleasePageOffset C + Z.of_nat n) * PageSize C, c) /\
    c = q * BlockSize C /\
    (ReleasePageOffset C + Z.of_nat n) * PageSize C <= c
      < (ReleasePageOffset C + Z.of_nat n) * PageSize C + BlockSize C.
Proof.
  intros HS HB HO.
  induction n as [|n IH]; intros Hfit.
  - unfold slowStateAt. rewrite for_range_nil by lia. unfold slowInit.
    rewrite Z.add_0_r.
    destruct (Z.ltb_spec 0 (ReleasePageOffset C)) as [Hpos|Hzero].
    + rewrite (wrap_small (ReleasePageOffset C * PageSize C)) by nia.
      change (roundUpSlow (ReleasePageOffset C * PageSize C) (BlockSize C))
        with (roundUp (ReleasePageOffset C * PageSize C) (BlockSize C)).
      destruct (roundUp_eq (ReleasePageOffset C * PageSize C) (BlockSize C))
        as [Hru Hrub]; [nia|lia|nia|].
      eexists _, _. split; [reflexivity|]. split; [exact Hru|]. lia.
    + replace (ReleasePageOffset C) with 0 by lia.
      exists 0, 0. split; [reflexivity|]. lia.
  - destruct IH as (c & q & Hst & Hc & Hrange); [nia|].
    rewrite Nat2Z.inj_succ. unfold Z.succ.
    rewrite slowStateAt_succ by lia. rewrite Hst.
    destruct (slowBlocks_spec (PageSize C) (BlockSize C)
                ((ReleasePageOffset C + Z.of_nat n) * PageSize C) c q HS HB
                ltac:(nia) Hc Hrange) as (c' & q' & Hrun & Hc' & Hrange'); [nia|].
    unfold slowPnc, slowPn. rewrite Hrun. cbn [snd].
    exists c', q'. split; [f_equal; ring|]. split; [exact Hc'|]. lia.
Qed.

(** X9.  On the slow path, also when the release window starts
    [ReleasePageOffset] pages into the region, the count the scan expects
    of page [J] of the window is the number of blocks that meet that page
    of the region. *)
Theorem slow_path_expected_blocks C J n :
  SameBlockCountPerPage C = false ->
  0 < PageSize C -> 0 < BlockSize C -> 0 <= ReleasePageOffset C -> 0 <= J ->
  (ReleasePageOffset C + J + 2) * PageSize C + 2 * BlockSize C < uptr_modulus ->
  (ReleasePageOffset C + J + 1) * PageSize C <= n * BlockSize C ->
  expectedBlocks C J
  = gridCount (PageSize C) (BlockSize C) 0 n (ReleasePageOffset C + J).
Proof.
  intros Hslow HS HB HO HJ Hfit Hn.
  rewrite gridCount_fullCount by (try lia; nia).
  unfold expectedBlocks. rewrite Hslow.
  destruct (slowStateAt_offset C (Z.to_nat J) HS HB HO) as (c & q & Hst & Hc & Hrange);
    [rewrite Z2Nat.id by lia; exact Hfit|].
  rewrite Z2Nat.id in * by lia. rewrite Hst.
  destruct (slowBlocks_spec (PageSize C) (BlockSize C)
              ((ReleasePageOffset C + J) * PageSize C) c q HS HB ltac:(nia) Hc Hrange)
    as (c' & q' & Hrun & _); [nia|].
  unfold slowPnc, slowPn. rewrite Hrun. cbn [fst]. unfold fullCount.
  f_equal. f_equal. f_equal. ring.
Qed.

Lemma slow_path_expected_blocks_witness :
  expectedBlocks (create Pf4096 3000 1048576 1 8192 8192) 1
  = gridCount 4096 3000 0 6 (2 + 1).
Proof.
  apply (slow_path_expected_blocks (create Pf4096 3000 1048576 1 8192 8192) 1 6);
    try reflexivity; vm_compute; discriminate.
Defined.
End BlocksPerPage.

(** ** Marking a free list in several calls *)

Section MarkingCalls.
Import PageReleaseContext.

(** The marking reads the context, never its page map. *)
Lemma markLastBlockLoop_withPageMap C M0 RegionIndex fuel : forall PInRegion M,
  markLastBlockLoop fuel (withPageMap C M0) RegionIndex PInRegion M
  = markLastBlockLoop fuel C RegionIndex PInRegion M.
Proof.
  induction fuel as [|fuel IH]; intros PInRegion M; cbn [markLastBlockLoop];
    cbn [RoundedRegionSize withPageMap]; [reflexivity|].
  destruct (PInRegion <? RoundedRegionSize C); [|reflexivity].
  rewrite IH. reflexivity.
Qed.

Lemma markBlock_withPageMap C M0 DecompactPtr Base' Last handle M :
  markBlock (withPageMap C M0) DecompactPtr Base' Last handle M
  = markBlock C DecompactPtr Base' Last handle M.
Proof.
  unfold markBlock, markLastBlock. rewrite markLastBlockLoop_withPageMap.
  reflexivity.
Qed.

Lemma markBatch_withPageMap C M0 DecompactPtr Base' Last It : forall M,
  markBatch (withPageMap C M0) DecompactPtr Base' Last It M
  = markBatch C DecompactPtr Base' Last It M.
Proof.
  induction It as [|handle It IH]; intros M; [reflexivity|].
  cbn [markBatch]. rewrite markBlock_withPageMap.
  destruct (markBlock C DecompactPtr Base' Last handle M); [apply IH|reflexivity].
Qed.

Lemma markBatches_withPageMap C M0 DecompactPtr Base' Last FreeList : forall M,
  markBatches (withPageMap C M0) DecompactPtr Base' Last FreeList M
  = markBatches C DecompactPtr Base' Last FreeList M.
Proof.
  induction FreeList as [|It FreeList IH]; intros M; [reflexivity|].
  cbn [markBatches]. rewrite markBatch_withPageMap.
  destruct (markBatch C DecompactPtr Base' Last It M); [apply IH|reflexivity].
Qed.

Lemma markBatches_app C DecompactPtr Base' Last xs ys : forall M,
  markBatches C DecompactPtr Base' Last (xs ++ ys) M
  = match markBatches C DecompactPtr Base' Last xs M with
    | Some M' => markBatches C DecompactPtr Base' Last ys M'
    | None => None
    end.
Proof.
  induction xs as [|It xs IH]; intros M; [reflexivity|].
  cbn [app markBatches].
  destruct (markBatch C DecompactPtr Base' Last It M); [apply IH|reflexivity].
Qed.

Lemma ensurePageMapAllocated_fields Pf C :
  exists M, fst (ensurePageMapAllocated Pf C) = withPageMap C M.
Proof.
  unfold ensurePageMapAllocated.
  destruct (RegionPageMap.isAllocated (PageMap C)).
  - exists (PageMap C). destruct C; reflexivity.
  - destruct (RegionPageMap.reset _ _ _ _) as [M Pf']. exists M. reflexivity.
Qed.

(** X10.  Marking accumulates: once the page map is allocated, marking a
    first free list and then a second one leaves the context and the
    platform that marking the two lists in one call leaves. *)
Theorem markFreeBlocks_app Pf C FreeList1 FreeList2 DecompactPtr Base' C1 Pf1 :
  markFreeBlocks Pf C FreeList1 DecompactPtr Base' = Some (C1, Pf1) ->
  hasBlockMarked C1 = true ->
  markFreeBlocks Pf1 C1 FreeList2 DecompactPtr Base'
  = markFreeBlocks Pf C (FreeList1 ++ FreeList2) DecompactPtr Base'.
Proof.
  intros Hfirst Halloc. unfold markFreeBlocks in *.
  destruct (ensurePageMapAllocated_fields Pf C) as [M0 HM0].
  destruct (ensurePageMapAllocated Pf C) as [C0 Pf0]. cbn [fst] in HM0. subst C0.
  cbn [RegionSize BlockSize PageMap withPageMap] in *.
  rewrite markBatches_withPageMap in *.
  rewrite markBatches_app.
  destruct (markBatches C DecompactPtr Base' _ FreeList1 M0) as [M1|];
    [|discriminate].
  injection Hfirst as <- <-.
  unfold ensurePageMapAllocated. unfold hasBlockMarked in Halloc.
  rewrite Halloc. cbn [RegionSize BlockSize PageMap withPageMap].
  rewrite !markBatches_withPageMap. reflexivity.
Qed.

Lemma markFreeBlocks_app_witness :
  match markFreeBlocks Pf4096 (create Pf4096 3000 12000 1 12000 0) [[0; 3000]]
          (fun P => P) 0 with
  | Some (C1, Pf1) =>
      markFreeBlocks Pf1 C1 [[6000; 9000]] (fun P => P) 0
      = markFreeBlocks Pf4096 (create Pf4096 3000 12000 1 12000 0)
          ([[0; 3000]] ++ [[6000; 9000]]) (fun P => P) 0
  | None => False
  end.
Proof.
  destruct (markFreeBlocks Pf4096 (create Pf4096 3000 12000 1 12000 0) [[0; 3000]]
              (fun P => P) 0) as [[C1 Pf1]|] eqn:E.
  - apply (markFreeBlocks_app _ _ _ _ _ _ _ _ E).
    vm_compute in E. injection E as <- _. reflexivity.
  - vm_compute in E. discriminate E.
Defined.

(** The entries of a batch that lie inside the window of the context. *)
Lemma markBatch_filter C DecompactPtr Base' Last It : forall M,
  markBatch C DecompactPtr Base' Last It M
  = markBatch C DecompactPtr Base' Last
      (List.filter (fun handle => wrap (DecompactPtr handle - Base') <? RoundedSize C) It)
      M.
Proof.
  induction It as [|handle It IH]; intros M; [reflexivity|].
  cbn [markBatch List.filter].
  destruct (Z.ltb_spec (wrap (DecompactPtr handle - Base')) (RoundedSize C)) as [Hin|Hout].
  - cbn [markBatch].
    destruct (markBlock C DecompactPtr Base' Last handle M); [apply IH|reflexivity].
  - unfold markBlock at 1.
    destruct (Z.leb_spec (RoundedSize C) (wrap (DecompactPtr handle - Base')));
      [apply IH|lia].
Qed.

(** X11.  [markFreeBlocks] leaves out the entries whose offset from [Base]
    is at or past [RoundedSize]: a free list and the same list without
    those entries mark the same. *)
Theorem markFreeBlocks_skips_outside Pf C FreeList DecompactPtr Base' :
  markFreeBlocks Pf C FreeList DecompactPtr Base'
  = markFreeBlocks Pf C
      (map (List.filter
              (fun handle => wrap (DecompactPtr handle - Base') <? RoundedSize C))
           FreeList)
      DecompactPtr Base'.
Proof.
  unfold markFreeBlocks.
  destruct (ensurePageMapAllocated_fields Pf C) as [M0 HM0].
  destruct (ensurePageMapAllocated Pf C) as [C0 Pf0]. cbn [fst] in HM0. subst C0.
  cbn [RegionSize BlockSize PageMap withPageMap].
  rewrite !markBatches_withPageMap.
  set (Last := wrap (wrap (RegionSize C / BlockSize C - 1) * BlockSize C)).
  assert (H : forall M, markBatches C DecompactPtr Base' Last FreeList M
              = markBatches C DecompactPtr Base' Last
                  (map (List.filter
                          (fun handle => wrap (DecompactPtr handle - Base')
                                         <? RoundedSize C)) FreeList) M).
  { induction FreeList as [|It FreeList IH]; intros M; [reflexivity|].
    cbn [map markBatches]. rewrite <- markBatch_filter.
    destruct (markBatch C DecompactPtr Base' Last It M); [apply IH|reflexivity]. }
  rewrite <- H. reflexivity.
Qed.
End MarkingCalls.

(** ** Marking a range as all counted *)

Section MarkRange.
Import PageReleaseContext RegionPageMap RegionPageMapSpec MarkSpec RangeSpec.

Variables (lg : Z) (C : PageReleaseContext.t).
Hypothesis Hgeo : geometry lg C.

Variables (f t' : Z).
Hypothesis Hft : 0 <= f < t' /\ t' <= RegionSize C.



Variable R : Z.
Hypothesis HR : 0 <= R < NumberOfRegions C.


Hypothesis Hwf : wf (PageMap C).
Hypothesis HRe : Regions (PageMap C) = NumberOfRegions C.
Hypothesis HNc : NumCounters (PageMap C) = PagesCount C.

End MarkRange.

(** ** Releasing after a range was marked *)

Section RangeRelease.
Import PageReleaseContext RegionPageMap RegionPageMapSpec MarkSpec RangeSpec ScanSpec.




End RangeRelease.

(** ** Releasing after a range was marked: the pages *)

Section RangeRelease2.
Import PageReleaseContext RegionPageMap RegionPageMapSpec MarkSpec RangeSpec ScanSpec.


End RangeRelease2.

(** ** Ranges with no block, and whole regions *)

Section RangeTheorems.
Import PageReleaseContext RegionPageMap RegionPageMapSpec MarkSpec RangeSpec ScanSpec.









End RangeTheorems.
